(** * pelican-kicad-embed: detector, parsers, resolver and injection guard

    A shallow embedding of the Python sources
    [pelican_kicad_embed/__init__.py], [md_ext.py] and [liquid_tag.py],
    followed by the theorems that settle the properties of the
    specification against them.

    Python [str] values are sequences of Unicode code points; they are
    modelled as lists of code points ([N]), so that non-ASCII text, the
    Unicode whitespace class of [\s] and case-insensitive matching keep the
    meaning they have in CPython. *)

From Stdlib Require Import String Ascii List NArith ZArith Bool Lia.
Import ListNotations.

(* ===================================================================== *)
(** * Python strings *)
(* ===================================================================== *)

Module PyStr.

Definition char := N.
Definition str := list char.

(** An ASCII literal of the source as a code-point list. *)
Definition txt (s : string) : str := map N_of_ascii (list_ascii_of_string s).

(** The double quote, the single quote and the newline, which the
    literals of the source contain. *)
Definition DQ : str := [34%N].
Definition SQ : str := [39%N].
Definition NL : str := [10%N].

Definition char_eqb (a b : char) : bool := N.eqb a b.

(** [c in l], for a character. *)
Fixpoint mem (c : char) (l : list char) : bool :=
  match l with
  | [] => false
  | d :: l' => char_eqb c d || mem c l'
  end.

(** [a == b] on strings. *)
Fixpoint str_eqb (a b : str) : bool :=
  match a, b with
  | [], [] => true
  | x :: a', y :: b' => char_eqb x y && str_eqb a' b'
  | _, _ => false
  end.

(** [s.startswith(p)] *)
Fixpoint startswith (s p : str) {struct p} : bool :=
  match p with
  | [] => true
  | c :: p' =>
      match s with
      | [] => false
      | d :: s' => char_eqb c d && startswith s' p'
      end
  end.

(** [p in s] *)
Fixpoint contains (p s : str) : bool :=
  startswith s p ||
  match s with
  | [] => false
  | _ :: s' => contains p s'
  end.

(** Number of positions of [s] at which [p] occurs. *)
Fixpoint occurrences (p s : str) : nat :=
  (if startswith s p then 1 else 0) +
  match s with
  | [] => 0
  | _ :: s' => occurrences p s'
  end.

Fixpoint find_aux (p s : str) (i : Z) : Z :=
  if startswith s p then i
  else match s with
       | [] => (-1)%Z
       | _ :: s' => find_aux p s' (i + 1)%Z
       end.

(** Python's normalisation of a slice bound against a length. *)
Definition clamp (len i : Z) : Z :=
  if (i <? 0)%Z then Z.max 0 (i + len) else Z.min i len.

(** [s.find(p, start)] *)
Definition find (s p : str) (start : Z) : Z :=
  let len := Z.of_nat (length s) in
  let st := if (start <? 0)%Z then Z.max 0 (start + len) else start in
  if (len <? st)%Z then (-1)%Z
  else find_aux p (skipn (Z.to_nat st) s) st.

(** [s[:i]] and [s[i:]] *)
Definition slice_to (s : str) (i : Z) : str :=
  firstn (Z.to_nat (clamp (Z.of_nat (length s)) i)) s.
Definition slice_from (s : str) (i : Z) : str :=
  skipn (Z.to_nat (clamp (Z.of_nat (length s)) i)) s.

(** [s.replace(old, new, 1)]: the first occurrence only. *)
Fixpoint replace1 (s old new : str) : str :=
  if startswith s old then new ++ skipn (length old) s
  else match s with
       | [] => []
       | c :: s' => c :: replace1 s' old new
       end.

(** [s.rstrip("/")] *)
Fixpoint rstrip_slash (s : str) : str :=
  match s with
  | [] => []
  | c :: s' =>
      match rstrip_slash s' with
      | [] => if char_eqb c 47%N then [] else [c]
      | r => c :: r
      end
  end.

End PyStr.
Import PyStr.

(* ===================================================================== *)
(** * Process-wide settings and the document object *)
(* ===================================================================== *)

(** The keys of the Pelican settings dictionary that the plugin reads;
    [None] is a key that is not set. *)
Record Settings := {
  PATH : option str;
  OUTPUT_PATH : option str;
  KICAD_SCHEMATICS_PATH : option str;
  KICANVAS_USE_CDN : option bool
}.

Definition empty_settings : Settings :=
  {| PATH := None; OUTPUT_PATH := None;
     KICAD_SCHEMATICS_PATH := None; KICANVAS_USE_CDN := None |}.

(** [d.get(key, default)] *)
Definition get {A} (v : option A) (default : A) : A :=
  match v with Some a => a | None => default end.

(** The attributes of a Pelican content object that the plugin touches.
    [None] stands for an attribute that is absent; for [_content] it also
    stands for the value [None], which the code treats alike. *)
Record Content := {
  kicanvas_embed : option bool;
  status : str;
  _kicanvas_script_injected : option bool;
  _content : option str
}.

Definition set_kicanvas_script_injected (c : Content) (b : bool) : Content :=
  {| kicanvas_embed := kicanvas_embed c; status := status c;
     _kicanvas_script_injected := Some b; _content := _content c |}.

Definition set_content (c : Content) (html : option str) : Content :=
  {| kicanvas_embed := kicanvas_embed c; status := status c;
     _kicanvas_script_injected := _kicanvas_script_injected c;
     _content := html |}.

(* ===================================================================== *)
(** * The injection guard *)
(* ===================================================================== *)

Section Injection.

(** The module-level [_pelican_settings], [None] until initialisation. *)
Variable _pelican_settings : option Settings.

Definition settings : Settings := get _pelican_settings empty_settings.

Definition kicanvas_url : str :=
  if get (KICANVAS_USE_CDN settings) false
  then txt "https://kicanvas.org/kicanvas/kicanvas.js"
  else txt "/static/js/kicanvas.js".

Definition script_tag : str :=
  txt "<script type=" ++ DQ ++ txt "module" ++ DQ ++ txt " src=" ++ DQ
    ++ kicanvas_url ++ DQ ++ txt "></script>" ++ NL.

(** The three insertion positions, [html] being the rendered body. *)
Definition insert_script (html : str) : str :=
  if contains (txt "</head>") html then
    replace1 html (txt "</head>") (script_tag ++ txt "</head>")
  else if contains (txt "<body") html then
    let body_pos := (find html (txt ">") (find html (txt "<body") 0) + 1)%Z in
    slice_to html body_pos ++ NL ++ script_tag ++ slice_from html body_pos
  else
    script_tag ++ html.

Definition inject_kicanvas_script_into_html (content : Content) : Content :=
  if negb (get (kicanvas_embed content) false) then content
  else if negb (str_eqb (status content) (txt "published")) then content
  else
    match _kicanvas_script_injected content with
    | Some _ => content
    | None =>
        let content := set_kicanvas_script_injected content true in
        match _content content with
        | None => content
        | Some [] => content
        | Some html =>
            if contains kicanvas_url html then content
            else set_content content (Some (insert_script html))
        end
    end.

End Injection.

(* ===================================================================== *)
(** * The regular expressions of the source and Python's matcher *)
(* ===================================================================== *)

Module Re.

(** [Py_UNICODE_ISSPACE], the class [\s] of a [str] pattern. *)
Definition is_space (c : char) : bool :=
  ((9 <=? c) && (c <=? 13) || (28 <=? c) && (c <=? 32) ||
   (c =? 133) || (c =? 160) || (c =? 5760) ||
   (8192 <=? c) && (c <=? 8202) || (c =? 8232) || (c =? 8233) ||
   (c =? 8239) || (c =? 8287) || (c =? 12288))%N.

Definition is_ascii_letter (c : char) : bool :=
  ((65 <=? c) && (c <=? 90) || (97 <=? c) && (c <=? 122))%N.

Definition ascii_lower (c : char) : char :=
  if ((65 <=? c) && (c <=? 90))%N then (c + 32)%N else c.

(** [Py_UNICODE_TOLOWER], exact on every code point whose lower case is an
    ASCII letter (the letters themselves, U+0130 and U+212A); the patterns
    of the source only hold ASCII literals, so no other value is compared. *)
Definition sre_lower (d : char) : char :=
  if ((65 <=? d) && (d <=? 90))%N then (d + 32)%N
  else if (d =? 304)%N then 105%N
  else if (d =? 8490)%N then 107%N
  else d.

(** The extra case equivalences of the [sre] compiler that concern ASCII
    letters: dotless i (U+0131) with [i], long s (U+017F) with [s]. *)
Definition casefix (lo d : char) : bool :=
  ((lo =? 105) && (d =? 305) || (lo =? 115) && (d =? 383))%N.

(** Does the pattern literal [c] (ASCII) match the character [d]? With
    [re.IGNORECASE] a cased literal is compared through lower case. *)
Definition lit_match (ic : bool) (c d : char) : bool :=
  if ic && is_ascii_letter c
  then (sre_lower d =? ascii_lower c)%N || casefix (ascii_lower c) d
  else (c =? d)%N.

(** Character classes of the source's patterns. None of them holds a cased
    character, so [re.IGNORECASE] does not change what they match. *)
Inductive cls :=
| Space                       (* \s *)
| NotSpace                    (* \S *)
| OneOf (l : list char)       (* [...] *)
| NoneOf (l : list char).     (* [^...] *)

Definition cls_match (k : cls) (c : char) : bool :=
  match k with
  | Space => is_space c
  | NotSpace => negb (is_space c)
  | OneOf l => mem c l
  | NoneOf l => negb (mem c l)
  end.

(** The fragment of [re] syntax that the source uses. A repetition is
    always over one character class, and greedy. *)
Inductive re :=
| Eps
| Bos                         (* ^ without re.MULTILINE *)
| Str (p : str)               (* a literal text *)
| Any (k : cls)               (* one character of a class *)
| Rep (k : cls) (min : nat)   (* k* is [Rep k 0], k+ is [Rep k 1] *)
| Seq (a b : re)
| Alt (a b : re)              (* a|b *)
| Opt (a : re)                (* (?:a)? *)
| Grp (i : nat) (a : re).     (* a capturing group, by number *)

Fixpoint seq (l : list re) : re :=
  match l with
  | [] => Eps
  | [a] => a
  | a :: l' => Seq a (seq l')
  end.

(** Captured groups, the latest capture first. *)
Definition groups := list (nat * str).

Fixpoint group (g : groups) (i : nat) : option str :=
  match g with
  | [] => None
  | (j, v) :: g' => if Nat.eqb i j then Some v else group g' i
  end.

(** Strip the literal [p] from the front of [s]. *)
Fixpoint strip (ic : bool) (p s : str) : option str :=
  match p with
  | [] => Some s
  | c :: p' =>
      match s with
      | [] => None
      | d :: s' => if lit_match ic c d then strip ic p' s' else None
      end
  end.

Section Matcher.

Variable ic : bool.          (* re.IGNORECASE *)
Variable total : nat.        (* length of the subject string *)
Variable A : Type.

(** Greedy repetition of a class: the longest run first, then shorter
    ones down to [min] characters. *)
Fixpoint rep (k : cls) (min : nat) (s : str) (cont : str -> option A)
  : option A :=
  let stop := match min with O => cont s | S _ => None end in
  match s with
  | [] => stop
  | c :: s' =>
      if cls_match k c then
        match rep k (pred min) s' cont with
        | Some r => Some r
        | None => stop
        end
      else stop
  end.

(** The backtracking matcher, in continuation-passing style: [m r s g k]
    matches [r] at the front of [s] and hands the rest of the input and
    the groups to [k]; [None] is failure, which makes the caller try its
    next alternative. *)
Fixpoint m (r : re) (s : str) (g : groups)
    (k : str -> groups -> option A) : option A :=
  match r with
  | Eps => k s g
  | Bos => if Nat.eqb (length s) total then k s g else None
  | Str p =>
      match strip ic p s with
      | Some s' => k s' g
      | None => None
      end
  | Any c =>
      match s with
      | [] => None
      | d :: s' => if cls_match c d then k s' g else None
      end
  | Rep c min => rep c min s (fun s' => k s' g)
  | Seq a b => m a s g (fun s' g' => m b s' g' k)
  | Alt a b =>
      match m a s g k with
      | Some x => Some x
      | None => m b s g k
      end
  | Opt a =>
      match m a s g k with
      | Some x => Some x
      | None => k s g
      end
  | Grp i a =>
      m a s g (fun s' g' => k s' ((i, firstn (length s - length s') s) :: g'))
  end.

End Matcher.

Arguments rep {A} k min s cont.
Arguments m ic total {A} r s g k.

(** A match object: the matched text and the groups. *)
Record Match := { group0 : str; captures : groups }.

Definition mgroup (mo : Match) (i : nat) : option str := group (captures mo) i.

(** The match of [r] that starts at the front of [s], if any, with the
    unmatched rest. *)
Definition match_here (ic : bool) (total : nat) (r : re) (s : str)
  : option (Match * str) :=
  m ic total r s []
    (fun s' g =>
       Some ({| group0 := firstn (length s - length s') s; captures := g |}, s')).

(** [re.match(r, s)] *)
Definition re_match (ic : bool) (r : re) (s : str) : option Match :=
  option_map fst (match_here ic (length s) r s).

Fixpoint search_from (ic : bool) (total : nat) (r : re) (s : str)
  : option Match :=
  match match_here ic total r s with
  | Some (mo, _) => Some mo
  | None =>
      match s with
      | [] => None
      | _ :: s' => search_from ic total r s'
      end
  end.

(** [re.search(r, s)]: the leftmost match. *)
Definition re_search (ic : bool) (r : re) (s : str) : option Match :=
  search_from ic (length s) r s.

(** [r.sub(repl, s)] with a function [repl]: [skip] counts the characters
    of the current match that are still to be dropped. An empty match is
    replaced and the scan moves on by one character. *)
Fixpoint sub_from (ic : bool) (total : nat) (r : re) (repl : Match -> str)
    (s : str) (skip : nat) : str :=
  match skip with
  | S n =>
      match s with
      | [] => []
      | _ :: s' => sub_from ic total r repl s' n
      end
  | O =>
      match match_here ic total r s with
      | Some (mo, _) =>
          repl mo ++
          match s with
          | [] => []
          | c :: s' =>
              match length (group0 mo) with
              | O => c :: sub_from ic total r repl s' 0
              | S n => sub_from ic total r repl s' n
              end
          end
      | None =>
          match s with
          | [] => []
          | c :: s' => c :: sub_from ic total r repl s' 0
          end
      end
  end.

Definition re_sub (ic : bool) (r : re) (repl : Match -> str) (s : str) : str :=
  sub_from ic (length s) r repl s 0.

End Re.
Import Re.

(* ===================================================================== *)
(** * The syntax detector *)
(* ===================================================================== *)

Definition ws0 : re := Rep Space 0.     (* \s* *)
Definition ws1 : re := Rep Space 1.     (* \s+ *)
(** The class of the two quote characters, and the runs of characters
    that are neither of them (starred and plussed in the source). *)
Definition quote : re := Any (OneOf (DQ ++ SQ)).
Definition unquoted0 : re := Rep (NoneOf (DQ ++ SQ)) 0.
Definition unquoted1 : re := Rep (NoneOf (DQ ++ SQ)) 1.

(** [KICAD_PATTERN], compiled with [re.IGNORECASE | re.MULTILINE]; the
    pattern has no [^] or [$], which is all that [re.MULTILINE] affects. *)
Definition KICAD_PATTERN : re :=
  Grp 1
    (Alt (seq [Str (txt "{{"); ws0; Str (txt "kicad_schematic"); ws0;
               Str (txt "(")])
    (Alt (seq [Str (txt ".."); ws1; Str (txt "kicad-schematic::")])
         (seq [Str (txt "{%"); ws0; Str (txt "kicad_schematic"); ws1]))).

Definition KICAD_PATTERN_search (s : str) : option Match :=
  re_search true KICAD_PATTERN s.

(** [inject_kicanvas_script]: flags the document when its raw source holds
    one of the three syntaxes. *)
Definition inject_kicanvas_script (content : Content) : Content :=
  match _content content with
  | None => content
  | Some raw =>
      match KICAD_PATTERN_search raw with
      | Some _ =>
          {| kicanvas_embed := Some true; status := status content;
             _kicanvas_script_injected := _kicanvas_script_injected content;
             _content := _content content |}
      | None => content
      end
  end.

(* ===================================================================== *)
(** * Grammar A: the Markdown preprocessor *)
(* ===================================================================== *)

Module KiCadSchematicPreprocessor.

Definition quoted_filename : nat := 1.
Definition unquoted_filename : nat := 2.
Definition style : nat := 3.
Definition controls : nat := 4.

(** [PATTERN], compiled with [re.IGNORECASE]. *)
Definition PATTERN : re :=
  seq [Str (txt "{{"); ws0; Str (txt "kicad_schematic"); ws0; Str (txt "(");
       ws0;
       Alt (seq [quote; Grp quoted_filename unquoted1; quote])
           (Grp unquoted_filename (Rep NotSpace 1));
       ws0;
       Opt (seq [Str (txt ","); ws0; Str (txt "style"); ws0; Str (txt "=");
                 ws0; quote; Grp style unquoted0; quote]);
       Opt (seq [Str (txt ","); ws0; Str (txt "controls"); ws0;
                 Str (txt "="); ws0; quote; Grp controls unquoted0; quote]);
       ws0; Str (txt ")"); ws0; Str (txt "}}")].

(** [a or b] on a group that may be [None] or empty. *)
Definition or_else (a : option str) (b : option str) : option str :=
  match a with
  | Some (_ :: _) => a
  | _ => b
  end.

(** Python's [join] of the attributes, with one space between them. *)
Fixpoint join_space (l : list str) : str :=
  match l with
  | [] => []
  | [a] => a
  | a :: l' => a ++ txt " " ++ join_space l'
  end.

(** The three attribute texts and the element they are joined into. *)
Definition attrs (filename style controls : str) : list str :=
  [txt "src=" ++ DQ ++ txt "/static/schematics/" ++ filename ++ DQ]
  ++ (match controls with
      | [] => []
      | _ => [txt "controls=" ++ DQ ++ controls ++ DQ]
      end)
  ++ (match style with
      | [] => []
      | _ => [txt "style=" ++ DQ ++ style ++ DQ]
      end).

Definition element (filename style controls : str) : str :=
  txt "<kicanvas-embed " ++ join_space (attrs filename style controls)
    ++ txt "></kicanvas-embed>".

(** The filename a match carries. The pattern cannot match with both
    filename groups unset or empty, which is the only case in which
    Python would format [None]. *)
Definition match_filename (mo : Match) : str :=
  get (or_else (mgroup mo quoted_filename) (mgroup mo unquoted_filename)) [].

Definition _replace_match (mo : Match) : str :=
  let filename := match_filename mo in
  let style := get (or_else (mgroup mo style) (Some [])) [] in
  let controls := get (or_else (mgroup mo controls) (Some [])) [] in
  element filename style controls.

Definition run (lines : list str) : list str :=
  map (fun line => re_sub true PATTERN _replace_match line) lines.

End KiCadSchematicPreprocessor.

(* ===================================================================== *)
(** * Grammar C: the Liquid tag *)
(* ===================================================================== *)

(** [^\s*(\S+)] *)
Definition LIQUID_FILENAME : re := seq [Bos; ws0; Grp 1 (Rep NotSpace 1)].

(** The parameter pattern: the key, [=] with optional white space around
    it, and a quoted value, which is group 1 and holds no quote
    character; searched with [re.IGNORECASE]. *)
Definition LIQUID_PARAM (key : str) : re :=
  seq [Str key; ws0; Str (txt "="); ws0; quote; Grp 1 unquoted0; quote].

Definition kicad_schematic_tag (markup : str) : str :=
  match re_match false LIQUID_FILENAME markup with
  | None => txt "<!-- Invalid kicad_schematic syntax: " ++ markup ++ txt " -->"
  | Some filename_match =>
      let filename := get (mgroup filename_match 1) [] in
      let style_match := re_search true (LIQUID_PARAM (txt "style")) markup in
      let controls_match :=
        re_search true (LIQUID_PARAM (txt "controls")) markup in
      let style :=
        match style_match with
        | Some mo => get (mgroup mo 1) []
        | None => []
        end in
      let controls :=
        match controls_match with
        | Some mo => get (mgroup mo 1) []
        | None => []
        end in
      KiCadSchematicPreprocessor.element filename style controls
  end.

(* ===================================================================== *)
(** * The path resolver and the template function *)
(* ===================================================================== *)

(** [pathlib] expressions, kept symbolic: what a path denotes is decided
    by the file system, which the resolver only consults through
    [exists()] and [resolve().relative_to()]. *)
Inductive Path :=
| PathOf (s : str)              (* Path(s) *)
| Div (p : Path) (s : str)      (* p / s *)
| Parent (p : Path).            (* p.parent *)

(** Python truthiness of a value that is [None] or a string. *)
Definition truthy (v : option str) : bool :=
  match v with
  | Some (_ :: _) => true
  | _ => false
  end.

(** [s.replace(backslash, "/")] *)
Definition slashes (s : str) : str :=
  map (fun c => if char_eqb c 92%N then 47%N else c) s.

Section Resolver.

Variable _pelican_settings : option Settings.

(** The file system at the time of the call: [p.exists()], and
    [str(p.resolve().relative_to(root.resolve()))], which is [None] when
    [relative_to] raises [ValueError]. *)
Variable exists_ : Path -> bool.
Variable resolved_relative_to : Path -> Path -> option str.

Definition content_path : str :=
  get (PATH (settings _pelican_settings)) (txt "content").
Definition output_path : str :=
  get (OUTPUT_PATH (settings _pelican_settings)) (txt "output").

Definition is_absolute_url (filename : str) : bool :=
  startswith filename (txt "/") || startswith filename (txt "http").

(** Strategy 1 of the source: the article's output directory, then the
    directory of its source file, both published under the article URL. *)
Definition strategy_article_url
    (filename : str) (content_source_path article_url : option str)
  : option str :=
  if truthy article_url && truthy content_source_path then
    let url_path := rstrip_slash (get article_url []) in
    let expected_output := Div (Div (PathOf output_path) url_path) filename in
    if exists_ expected_output then
      Some (txt "/" ++ url_path ++ txt "/" ++ filename)
    else
      let source_dir := Parent (PathOf (get content_source_path [])) in
      let schematic_source := Div source_dir filename in
      if exists_ schematic_source then
        Some (txt "/" ++ url_path ++ txt "/" ++ filename)
      else None
  else None.

(** Strategy 2 of the source: relative to the content root. *)
Definition strategy_content_relative
    (filename : str) (content_source_path : option str) : option str :=
  if truthy content_source_path then
    let source_dir := Parent (PathOf (get content_source_path [])) in
    let schematic_path := Div source_dir filename in
    if exists_ schematic_path then
      match resolved_relative_to schematic_path (PathOf content_path) with
      | Some rel_path => Some (txt "/" ++ slashes rel_path)
      | None => None
      end
    else None
  else None.

(** Strategy 3 of the source and the fallback. *)
Definition strategy_schematics_path (filename : str) : str :=
  let kicad_path := KICAD_SCHEMATICS_PATH (settings _pelican_settings) in
  if truthy kicad_path then
    let schematic_path :=
      Div (Div (PathOf content_path) (get kicad_path [])) filename in
    if exists_ schematic_path then
      txt "/" ++ get kicad_path [] ++ txt "/" ++ filename
    else filename
  else filename.

Definition resolve_schematic_path
    (filename : str) (content_source_path article_url : option str) : str :=
  if is_absolute_url filename then filename
  else
    match strategy_article_url filename content_source_path article_url with
    | Some url => url
    | None =>
        match strategy_content_relative filename content_source_path with
        | Some url => url
        | None => strategy_schematics_path filename
        end
    end.

(** An article or page object: its [source_path] and [url] attributes,
    [None] when absent. *)
Record Page := { source_path : option str; url : option str }.

(** The Jinja2 context: the four keys the template function looks up,
    [None] when the key is absent (or, for the first two, holds [None]). *)
Record Context := {
  __source_path__ : option str;
  __article_url__ : option str;
  article : option Page;
  page : option Page
}.

Definition is_some {A} (v : option A) : bool :=
  match v with Some _ => true | None => false end.

(** The source path and URL that [kicad_schematic] takes from the
    context. *)
Definition context_paths (context : Context) : option str * option str :=
  let content_source_path := __source_path__ context in
  let article_url := __article_url__ context in
  match article context with
  | Some a =>
      (if is_some (source_path a) && negb (truthy content_source_path)
       then source_path a else content_source_path,
       if is_some (url a) && negb (truthy article_url)
       then url a else article_url)
  | None =>
      match page context with
      | Some pg =>
          if is_some (source_path pg) then
            (if negb (truthy content_source_path)
             then source_path pg else content_source_path,
             if is_some (url pg) && negb (truthy article_url)
             then url pg else article_url)
          else (content_source_path, article_url)
      | None => (content_source_path, article_url)
      end
  end.

Definition kicad_schematic (context : Context) (filename style controls : str)
  : str :=
  let style :=
    match style with
    | [] => txt "width: 100%; height: 600px;"
    | _ => style
    end in
  let controls :=
    match controls with
    | [] => txt "all"
    | _ => controls
    end in
  let '(content_source_path, article_url) := context_paths context in
  let resolved_path :=
    resolve_schematic_path filename content_source_path article_url in
  txt "<kicanvas-embed src=" ++ DQ ++ resolved_path ++ DQ
    ++ txt " controls=" ++ DQ ++ controls ++ DQ
    ++ txt " style=" ++ DQ ++ style ++ DQ ++ txt "></kicanvas-embed>".

End Resolver.

(* ===================================================================== *)
(** * Notions used to state the properties *)
(* ===================================================================== *)

(** In [a ++ p ++ b], no occurrence of [p] begins inside [a]. *)
Definition first_occurrence (p a b : str) : Prop :=
  forall a1 a2, a = a1 ++ a2 -> a2 <> [] -> startswith (a2 ++ p ++ b) p = false.

(** A checker for [first_occurrence] on concrete texts. *)
Fixpoint no_start_inside (p a r : str) : bool :=
  match a with
  | [] => true
  | _ :: a' => negb (startswith (a ++ r) p) && no_start_inside p a' r
  end.

(** Later guard calls on one document object; before each of them the
    pipeline may have assigned the body anew ([bodies] lists the values). *)
Fixpoint subsequent_calls (st : option Settings) (c : Content)
    (bodies : list (option str)) : Content :=
  match bodies with
  | [] => c
  | b :: bs =>
      subsequent_calls st (inject_kicanvas_script_into_html st (set_content c b)) bs
  end.

(** A flagged, published document on which the guard has not run. *)
Definition fresh_document (body : option str) : Content :=
  {| kicanvas_embed := Some true; status := txt "published";
     _kicanvas_script_injected := None; _content := body |}.

(** [x] is [p] up to the case-insensitivity of the literal match. *)
Definition lit_text (ic : bool) (p x : str) : Prop :=
  Forall2 (fun c d => lit_match ic c d = true) p x.

Definition run_of (k : cls) (w : str) : Prop :=
  Forall (fun d => cls_match k d = true) w.

(** The texts that a pattern matches, whatever follows them. *)
Fixpoint matches (ic : bool) (r : re) (x : str) : Prop :=
  match r with
  | Eps => x = []
  | Bos => x = []
  | Str p => lit_text ic p x
  | Any k => exists d, x = [d] /\ cls_match k d = true
  | Rep k min => run_of k x /\ min <= length x
  | Seq a b => exists y z, x = y ++ z /\ matches ic a y /\ matches ic b z
  | Alt a b => matches ic a x \/ matches ic b x
  | Opt a => matches ic a x \/ x = []
  | Grp _ a => matches ic a x
  end.

Fixpoint no_bos (r : re) : bool :=
  match r with
  | Bos => false
  | Seq a b | Alt a b => no_bos a && no_bos b
  | Opt a | Grp _ a => no_bos a
  | _ => true
  end.

(** The groups that a match of a pattern on the text [x] adds to [g]. *)
Fixpoint captures_of (ic : bool) (r : re) (x : str) (g g' : groups) : Prop :=
  match r with
  | Eps | Bos => x = [] /\ g' = g
  | Str p => lit_text ic p x /\ g' = g
  | Any k => (exists d, x = [d] /\ cls_match k d = true) /\ g' = g
  | Rep k min => (run_of k x /\ min <= length x) /\ g' = g
  | Seq a b =>
      exists y z g1,
        x = y ++ z /\ captures_of ic a y g g1 /\ captures_of ic b z g1 g'
  | Alt a b => captures_of ic a x g g' \/ captures_of ic b x g g'
  | Opt a => captures_of ic a x g g' \/ (x = [] /\ g' = g)
  | Grp i a => exists g1, captures_of ic a x g g1 /\ g' = (i, x) :: g1
  end.

(** A run of white space, in the sense of Python's [\s]. *)
Definition spaces (w : str) : Prop := run_of Space w.

(** "Case-insensitively" is the relation of [re.IGNORECASE]: a letter also
    matches its other case (and [k], [i], [s] their non-ASCII case variants
    U+212A, U+0130, U+0131, U+017F). On ASCII text it is equality after
    ASCII lower-casing, see [same_ignoring_case_ascii]. *)
Definition same_ignoring_case (p x : str) : Prop := lit_text true p x.

(** The opening tokens of the three grammars, in the words of the
    specification; the white space inside a token is as free as the
    grammars have it. *)

(** [{{ kicad_schematic(], with optional white space around the name *)
Definition opener_markdown (t : str) : Prop :=
  exists w1 name w2,
    t = txt "{{" ++ w1 ++ name ++ w2 ++ txt "(" /\
    spaces w1 /\ same_ignoring_case (txt "kicad_schematic") name /\ spaces w2.

(** [.. kicad-schematic::], with white space after the two dots *)
Definition opener_rst (t : str) : Prop :=
  exists w name,
    t = txt ".." ++ w ++ name /\
    spaces w /\ w <> [] /\ same_ignoring_case (txt "kicad-schematic::") name.

(** [{% kicad_schematic] followed by white space, with optional white
    space before the name *)
Definition opener_liquid (t : str) : Prop :=
  exists w1 name w2,
    t = txt "{%" ++ w1 ++ name ++ w2 /\
    spaces w1 /\ same_ignoring_case (txt "kicad_schematic") name /\
    spaces w2 /\ w2 <> [].

Definition has_opener (s : str) : Prop :=
  exists pre t post,
    s = pre ++ t ++ post /\
    (opener_markdown t \/ opener_rst t \/ opener_liquid t).

Fixpoint skip_spaces (s : str) : str :=
  match s with
  | [] => []
  | c :: s' => if is_space c then skip_spaces s' else s
  end.

(** Does the text hold the closing tokens of Grammar A: a closing
    parenthesis, optional white space, and two closing braces? *)
Fixpoint has_closing (s : str) : bool :=
  match s with
  | [] => false
  | c :: s' =>
      (char_eqb c 41%N && startswith (skip_spaces s') (txt "}}"))
      || has_closing s'
  end.

(** The line holds a complete Grammar-A call: a text of the language of
    the preprocessor's pattern. *)
Definition holds_call (line : str) : Prop :=
  exists pre call post,
    line = pre ++ call ++ post /\
    matches true KiCadSchematicPreprocessor.PATTERN call.

(** A run of a class ends where the rest of the input is empty or begins
    with a character outside the class. *)
Definition ends_run (k : cls) (s : str) : bool :=
  match s with
  | [] => true
  | d :: _ => negb (cls_match k d)
  end.

Definition is_quote (c : char) : bool := mem c (DQ ++ SQ).

(** A Grammar-A call with a quoted filename and no options, followed by
    [rest]: white space [w1] to [w5] where the pattern allows it, the
    call token [name], the quotes [q1] and [q2] around the filename [f]. *)
Definition quoted_call (w1 name w2 w3 : str) (q1 : char) (f : str) (q2 : char)
    (w4 w5 rest : str) : str :=
  txt "{{" ++ w1 ++ name ++ w2 ++ txt "(" ++ w3 ++ q1 :: f ++ q2 :: w4
    ++ txt ")" ++ w5 ++ txt "}}" ++ rest.

(** The Grammar-A call with a double-quoted filename and both options
    given as empty strings. *)
Definition empty_options_call (f : str) : str :=
  txt "{{ kicad_schematic(" ++ DQ ++ f ++ DQ ++ txt ", style=" ++ DQ ++ DQ
    ++ txt ", controls=" ++ DQ ++ DQ ++ txt ") }}".

(** The number of quote characters of a text. *)
Definition count_quotes (s : str) : nat := length (filter is_quote s).

(** A file system that holds exactly the paths of [l]. *)
Fixpoint path_eqb (p q : Path) : bool :=
  match p, q with
  | PathOf a, PathOf b => str_eqb a b
  | Div p' a, Div q' b => path_eqb p' q' && str_eqb a b
  | Parent p', Parent q' => path_eqb p' q'
  | _, _ => false
  end.

Definition files (l : list Path) (p : Path) : bool :=
  existsb (path_eqb p) l.

(** The result of a match in front of [cand], seen in the longer input. *)
Definition with_rest (cand : str) (res : Match * str) : Match * str :=
  (fst res, snd res ++ cand).

Definition empty_context : Context :=
  {| __source_path__ := None; __article_url__ := None;
     article := None; page := None |}.

(* ===================================================================== *)
(** * Grammar A: the forms of a call *)
(* ===================================================================== *)

(** What [PATTERN] asks for behind the filename: the two options, each of
    which may be missing, and the closing tokens. *)
Definition PATTERN_tail : re :=
  seq [ws0;
       Opt (seq [Str (txt ","); ws0; Str (txt "style"); ws0; Str (txt "=");
                 ws0; quote; Grp KiCadSchematicPreprocessor.style unquoted0;
                 quote]);
       Opt (seq [Str (txt ","); ws0; Str (txt "controls"); ws0;
                 Str (txt "="); ws0; quote;
                 Grp KiCadSchematicPreprocessor.controls unquoted0; quote]);
       ws0; Str (txt ")"); ws0; Str (txt "}}")].

(** Behind optional white space, does the text go on with a comma or a
    closing parenthesis? *)
Definition tail_start (s : str) : bool :=
  match skip_spaces s with
  | d :: _ => char_eqb d 44%N || char_eqb d 41%N
  | [] => false
  end.

(** A Grammar-A call with an unquoted filename and no options: white
    space [w1] to [w5] where the pattern allows it, the call token
    [name], the filename [f]. *)
Definition bare_call (w1 name w2 w3 f w4 w5 : str) : str :=
  txt "{{" ++ w1 ++ name ++ w2 ++ txt "(" ++ w3 ++ f ++ w4 ++ txt ")" ++ w5
    ++ txt "}}".

(** A Grammar-A call as the documentation writes it: a double-quoted
    filename followed by the options that are given, [style] first. *)
Definition style_option (v : option str) : str :=
  match v with
  | Some s => txt ", style=" ++ DQ ++ s ++ DQ
  | None => []
  end.

Definition controls_option (v : option str) : str :=
  match v with
  | Some s => txt ", controls=" ++ DQ ++ s ++ DQ
  | None => []
  end.

Definition options_call (f : str) (style_ controls_ : option str) : str :=
  txt "{{ kicad_schematic(" ++ DQ ++ f ++ DQ ++ style_option style_
    ++ controls_option controls_ ++ txt ") }}".

(** The groups of the match of such a call, the latest capture first. *)
Definition options_groups (f : str) (style_ controls_ : option str) : groups :=
  match controls_ with
  | Some c => [(KiCadSchematicPreprocessor.controls, c)]
  | None => []
  end ++
  match style_ with
  | Some s => [(KiCadSchematicPreprocessor.style, s)]
  | None => []
  end ++ [(KiCadSchematicPreprocessor.quoted_filename, f)].

(** No two opening braces begin in the text [pre] that stands in front of
    an opening brace. *)
Definition no_braces_open (pre : str) : bool :=
  negb (contains (txt "{{") (pre ++ txt "{")).

(* ===================================================================== *)
(** * Grammar A: a quoted call with its options, and where it stands *)
(* ===================================================================== *)

(** The text of an option: a comma, the key, [=] and the value between
    two quote characters, with white space [wa], [wb], [wc] where the
    pattern allows it. *)
Definition option_text (wa key wb wc : str) (qo : char) (v : str) (qc : char)
  : str :=
  txt "," ++ wa ++ key ++ wb ++ txt "=" ++ wc ++ qo :: v ++ [qc].

(** The text [x] gives the option [name] the value [v]; for [None] the
    option is not written. *)
Definition option_given (name : str) (v : option str) (x : str) : Prop :=
  match v with
  | None => x = []
  | Some s =>
      exists wa key wb wc qo qc,
        x = option_text wa key wb wc qo s qc /\
        spaces wa /\ same_ignoring_case name key /\ spaces wb /\ spaces wc /\
        is_quote qo = true /\ is_quote qc = true /\
        run_of (NoneOf (DQ ++ SQ)) s
  end.

(** A Grammar-A call with a quoted filename: white space [w1] to [w6]
    where the pattern allows it, the call token [name], the quotes [q1]
    and [q2] around the filename [f], and the texts [sx] and [cx] of the
    two options. *)
Definition quoted_call_with (w1 name w2 w3 : str) (q1 : char) (f : str)
    (q2 : char) (w4 sx cx w5 w6 : str) : str :=
  txt "{{" ++ w1 ++ name ++ w2 ++ txt "(" ++ w3 ++ q1 :: f ++ q2 :: w4
    ++ sx ++ cx ++ w5 ++ txt ")" ++ w6 ++ txt "}}".

(** What [run] makes of one line. *)
Definition run_line (line : str) : str :=
  re_sub true KiCadSchematicPreprocessor.PATTERN
    KiCadSchematicPreprocessor._replace_match line.

(** A text that the pattern matches begins inside [pre] and reaches into
    the text [after] that follows [pre]. *)
Definition reaches_into (pre after : str) : Prop :=
  exists p1 x l,
    pre ++ after = p1 ++ x ++ l /\
    matches true KiCadSchematicPreprocessor.PATTERN x /\
    length p1 < length pre /\ length l < length after.

(* ===================================================================== *)
(** * Grammar C: the last quote character of a text *)
(* ===================================================================== *)

(** The text from its first quote character on. *)
Fixpoint from_first_quote (s : str) : str :=
  match s with
  | [] => []
  | d :: s' => if is_quote d then s else from_first_quote s'
  end.

(** Does the last quote character of the text open a parameter [key]:
    does it directly follow the key, [=] and optional white space? The
    text is read backwards from its last quote character. *)
Definition opens_parameter (key s : str) : bool :=
  match from_first_quote (rev s) with
  | _ :: r1 =>
      match skip_spaces r1 with
      | e :: r2 =>
          char_eqb e 61%N &&
          is_some (strip true (rev key) (skip_spaces r2))
      | [] => false
      end
  | [] => false
  end.

(* ===================================================================== *)
(** * Grammar B: the reStructuredText directive *)
(* ===================================================================== *)

Module KiCadSchematicDirective.

(** The node [nodes.raw(rawsource, text, format=...)]. *)
Record raw := { rawsource : str; text : str; format : str }.

(** The two entries of [option_spec]; both are converted by
    [directives.unchanged], so a given option is a string. [None] is an
    option that the directive does not carry. *)
Record Options := { style : option str; controls : option str }.

(** [run]: [arguments] and [options] are the attributes that docutils
    fills in. [None] stands for the [IndexError] of [self.arguments[0]] on
    an empty list, which [required_arguments = 1] rules out. *)
Definition run (arguments : list str) (options : Options) : option (list raw) :=
  match arguments with
  | [] => None
  | filename :: _ =>
      let style := get (style options) [] in
      let controls := get (controls options) [] in
      let html := KiCadSchematicPreprocessor.element filename style controls in
      Some [{| rawsource := []; text := html; format := txt "html" |}]
  end.

End KiCadSchematicDirective.

(* ===================================================================== *)
(** * Grammar C: the form of a tag *)
(* ===================================================================== *)

(** A parameter of the Liquid tag as the documentation writes it: a
    space, the key, [=] and the value in double quotes. *)
Definition liquid_param (key value : str) : str :=
  txt " " ++ key ++ txt "=" ++ DQ ++ value ++ DQ.

(** The text holds no quote character. *)
Definition quote_free (s : str) : Prop := run_of (NoneOf (DQ ++ SQ)) s.

(** A quote character or the equals sign. *)
Definition quote_or_equals (d : char) : bool := is_quote d || char_eqb d 61%N.

(* ===================================================================== *)
(** * Registration with Pelican *)
(* ===================================================================== *)

Module Registration.

(** Python dictionaries with [str] keys, in insertion order. *)
Definition Dict (V : Type) := list (str * V).

(** [d.get(key)] *)
Fixpoint dict_get {V} (d : Dict V) (key : str) : option V :=
  match d with
  | [] => None
  | (k, v) :: d' => if str_eqb key k then Some v else dict_get d' key
  end.

(** [d[key] = v]: an entry that exists keeps its place, a new one comes
    last. *)
Fixpoint dict_set {V} (d : Dict V) (key : str) (v : V) : Dict V :=
  match d with
  | [] => [(key, v)]
  | (k, x) :: d' =>
      if str_eqb key k then (k, v) :: d' else (k, x) :: dict_set d' key v
  end.

(** The values of a dictionary of Jinja2 globals: the template function
    of the plugin, or something else. *)
Inductive Global := kicad_schematic_function | other_global (n : nat).

(** What the [extensions] entry of the Markdown configuration holds: a
    list of extensions, each one a name or an object, or a single value
    that is not a list. Objects are told apart by their identity. *)
Inductive Entry := Name (s : str) | Object (id : nat).

Inductive Value := Single (e : Entry) | ListOf (l : list Entry).

(** [a == b]: objects are equal when they are the same object, as for
    every class that does not define its own equality, which neither
    [KiCadSchematicExtension] nor its base class does. *)
Definition entry_eqb (a b : Entry) : bool :=
  match a, b with
  | Name s, Name t => str_eqb s t
  | Object i, Object j => Nat.eqb i j
  | _, _ => false
  end.

(** [x in l] *)
Definition entry_in (x : Entry) (l : list Entry) : bool :=
  existsb (fun e => entry_eqb e x) l.

(** The settings dictionary: the keys that the resolver and the guard
    read, and the two keys that registration writes. *)
Record PelicanSettings := {
  plugin : Settings;
  JINJA_GLOBALS : option (Dict Global);
  MARKDOWN : option (Dict Value)
}.

Record Environment := { globals : Dict Global }.

(** The object that a signal hands over, a [Pelican] or a [Readers]
    instance: its [settings] attribute, and its [env] attribute, which
    may be missing or hold [None]. *)
Record Pelican := {
  settings : option PelicanSettings;
  env : option (option Environment)
}.

(** [add_jinja2_globals]. The second argument and the second result are
    the module's [_pelican_settings]; it refers to the dictionary of the
    object, so it shows that dictionary as the call leaves it. *)
Definition add_jinja2_globals (pelican_object : Pelican)
    (_pelican_settings : option PelicanSettings)
  : Pelican * option PelicanSettings :=
  let env' :=
    match env pelican_object with
    | Some (Some e) =>
        Some (Some {| globals := dict_set (globals e) (txt "kicad_schematic")
                                   kicad_schematic_function |})
    | other => other
    end in
  match settings pelican_object with
  | Some st =>
      let jinja_globals := get (JINJA_GLOBALS st) [] in
      let st' :=
        {| plugin := plugin st;
           JINJA_GLOBALS :=
             Some (dict_set jinja_globals (txt "kicad_schematic")
                     kicad_schematic_function);
           MARKDOWN := MARKDOWN st |} in
      ({| settings := Some st'; env := env' |}, Some st')
  | None => ({| settings := None; env := env' |}, _pelican_settings)
  end.

(** [register_markdown_extension]; [ext_instance] is the identity of the
    object that [KiCadSchematicExtension()] creates. [None] stands for
    the [AttributeError] of an object without settings. *)
Definition register_markdown_extension (pelican_object : Pelican)
    (ext_instance : nat) : option Pelican :=
  match settings pelican_object with
  | None => None
  | Some st =>
      let md_extensions := get (MARKDOWN st) [] in
      let md_extensions :=
        match dict_get md_extensions (txt "extensions") with
        | None => dict_set md_extensions (txt "extensions") (ListOf [])
        | Some (ListOf _) => md_extensions
        | Some (Single v) =>
            dict_set md_extensions (txt "extensions") (ListOf [v])
        end in
      let md_extensions :=
        match dict_get md_extensions (txt "extensions") with
        | Some (ListOf l) =>
            if entry_in (Object ext_instance) l then md_extensions
            else dict_set md_extensions (txt "extensions")
                   (ListOf (l ++ [Object ext_instance]))
        | _ => md_extensions
        end in
      Some {| settings :=
                Some {| plugin := plugin st;
                        JINJA_GLOBALS := JINJA_GLOBALS st;
                        MARKDOWN := Some md_extensions |};
              env := env pelican_object |}
  end.

(** The list that the [extensions] entry of a Markdown configuration
    stands for: none for a missing entry, the value itself for a value
    that is not a list. *)
Definition configured_extensions (md : option (Dict Value)) : list Entry :=
  match dict_get (get md []) (txt "extensions") with
  | None => []
  | Some (ListOf l) => l
  | Some (Single v) => [v]
  end.

End Registration.

(* ===================================================================== *)
(** * The version check script *)
(* ===================================================================== *)

Module CheckKicanvasVersion.

(** [s.strip()] *)
Definition strip (s : str) : str := rev (skip_spaces (rev (skip_spaces s))).

(** [get_current_version]: [version_file] is the text of the file
    [KICANVAS_VERSION], [None] if the file does not exist. *)
Definition get_current_version (version_file : option str) : option str :=
  option_map strip version_file.

(** [get_latest_commit]: [response] is the [sha] entry of the decoded
    answer, or the text of the exception that the request, the decoding
    or the lookup raised. The result comes with the line written to the
    standard error stream. *)
Definition get_latest_commit (response : str + str) : option str * list str :=
  match response with
  | inr sha => (Some (firstn 7 sha), [])
  | inl e => (None, [txt "Error fetching latest version: " ++ e])
  end.

(** [main]: the lines printed, the lines written to the standard error
    stream, and the exit code. *)
Definition main (version_file : option str) (response : str + str)
  : list str * list str * Z :=
  let current := get_current_version version_file in
  let '(latest, err) := get_latest_commit response in
  match latest with
  | None => ([10060%N :: txt " Could not fetch latest KiCanvas version"], err, 1%Z)
  | Some latest =>
      match current with
      | None =>
          ([[9888%N; 65039%N] ++ txt "  No version file found. Latest is: "
              ++ latest;
            txt "   Run: echo '" ++ latest ++ txt "' > KICANVAS_VERSION"],
           err, 1%Z)
      | Some current =>
          if negb (str_eqb current latest) then
            ([128260%N :: txt " KiCanvas update available!";
              txt "   Current: " ++ current;
              txt "   Latest:  " ++ latest;
              txt "   Update: scripts/update_kicanvas.sh"],
             err, 1%Z)
          else
            ([9989%N :: txt " KiCanvas is up to date (" ++ current ++ txt ")"],
             err, 0%Z)
      end
  end.

End CheckKicanvasVersion.

(* ===================================================================== *)
(** * The generator hook *)
(* ===================================================================== *)

(** [inject_scripts_before_write], the closure that [register] connects
    to [article_generator_finalized], calls the injection guard on every
    article and then on every draft of the generator. The guard mutates
    the object it is given; the content objects therefore live in a store,
    and the two lists of the generator hold references into it, so that
    an object listed twice is one object. *)
Definition Store := list Content.

Record ArticlesGenerator := { articles : list nat; drafts : list nat }.

Fixpoint store_set (h : Store) (ref : nat) (c : Content) : Store :=
  match h, ref with
  | [], _ => []
  | _ :: h', O => c :: h'
  | x :: h', S n => x :: store_set h' n c
  end.

(** One guard call on the object behind a reference. *)
Definition inject_at (st : option Settings) (h : Store) (ref : nat) : Store :=
  match nth_error h ref with
  | Some c => store_set h ref (inject_kicanvas_script_into_html st c)
  | None => h
  end.

Definition inject_scripts_before_write (st : option Settings)
    (generator : ArticlesGenerator) (h : Store) : Store :=
  fold_left (inject_at st) (drafts generator)
    (fold_left (inject_at st) (articles generator) h).

(** Is the reference in one of the two lists of the generator? *)
Definition listed (generator : ArticlesGenerator) (ref : nat) : bool :=
  existsb (Nat.eqb ref) (articles generator ++ drafts generator).

(* ===================================================================== *)
(** * Facts about the string operations *)
(* ===================================================================== *)

Section StringFacts.

Implicit Types (p s a b : str) (x y : char).

Lemma char_eqb_eq x y : char_eqb x y = true <-> x = y.
Proof. apply N.eqb_eq. Qed.

Lemma char_eqb_refl x : char_eqb x x = true.
Proof. apply N.eqb_refl. Qed.

Lemma str_eqb_eq a : forall b, str_eqb a b = true <-> a = b.
Proof.
  induction a as [|c a IH]; intros [|d b]; simpl; split; intro H;
    try reflexivity; try discriminate.
  - apply andb_true_iff in H as [H1 H2].
    apply char_eqb_eq in H1. apply IH in H2. congruence.
  - injection H as -> ->. rewrite char_eqb_refl. now apply IH.
Qed.

Lemma startswith_app p : forall b, startswith (p ++ b) p = true.
Proof.
  induction p as [|c p IH]; intro b; simpl; [reflexivity|].
  now rewrite char_eqb_refl, IH.
Qed.

Lemma startswith_split p : forall s,
  startswith s p = true -> s = p ++ skipn (length p) s.
Proof.
  induction p as [|c p IH]; intros s H; simpl in *; [reflexivity|].
  destruct s as [|d s]; [discriminate|].
  apply andb_true_iff in H as [H1 H2].
  apply char_eqb_eq in H1. subst d. simpl. f_equal. now apply IH.
Qed.

Lemma startswith_mono p : forall a b,
  startswith a p = true -> startswith (a ++ b) p = true.
Proof.
  induction p as [|c p IH]; intros a b H; simpl in *; [reflexivity|].
  destruct a as [|d a]; [discriminate|]. simpl.
  apply andb_true_iff in H as [H1 H2]. rewrite H1. simpl. now apply IH.
Qed.

(** A character that [p] does not hold stops every occurrence of [p]
    that begins before it. *)
Lemma startswith_barrier p : forall a x r,
  mem x p = false -> startswith (a ++ x :: r) p = startswith a p.
Proof.
  induction p as [|c p IH]; intros a x r Hx; simpl in *; [reflexivity|].
  apply orb_false_iff in Hx as [Hc Hp].
  destruct a as [|d a]; simpl.
  - unfold char_eqb in *. rewrite N.eqb_sym, Hc. reflexivity.
  - now rewrite (IH a x r Hp).
Qed.

Lemma occurrences_nil p : p <> [] -> occurrences p [] = 0.
Proof. destruct p; [congruence | reflexivity]. Qed.

Lemma occurrences_barrier p a x r :
  p <> [] -> mem x p = false ->
  occurrences p (a ++ x :: r) = occurrences p a + occurrences p (x :: r).
Proof.
  intros Hp Hx. induction a as [|c a IH].
  - now rewrite occurrences_nil.
  - change (occurrences p ((c :: a) ++ x :: r))
      with ((if startswith ((c :: a) ++ x :: r) p then 1 else 0)
            + occurrences p (a ++ x :: r)).
    rewrite startswith_barrier by assumption.
    change (occurrences p (c :: a))
      with ((if startswith (c :: a) p then 1 else 0) + occurrences p a).
    lia.
Qed.

Lemma occurrences_skip p x b :
  p <> [] -> mem x p = false -> occurrences p (x :: b) = occurrences p b.
Proof.
  intros Hp Hx.
  change (occurrences p (x :: b))
    with ((if startswith (x :: b) p then 1 else 0) + occurrences p b).
  pose proof (startswith_barrier p [] x b Hx) as H. simpl app in H.
  rewrite H. destruct p; [congruence | reflexivity].
Qed.

(** Inserting a text whose first and last characters do not belong to [p]
    neither creates nor destroys an occurrence of [p] around it. *)
Lemma occurrences_insert p a b x y mid :
  p <> [] -> mem x p = false -> mem y p = false ->
  occurrences p (a ++ (x :: mid ++ [y]) ++ b)
  = occurrences p a + occurrences p (x :: mid ++ [y]) + occurrences p b.
Proof.
  intros Hp Hx Hy.
  change ((x :: mid ++ [y]) ++ b) with (x :: (mid ++ [y]) ++ b).
  rewrite occurrences_barrier by assumption.
  rewrite <- (app_assoc mid [y] b). simpl ([y] ++ b).
  change (x :: mid ++ y :: b) with ((x :: mid) ++ y :: b).
  change (x :: mid ++ [y]) with ((x :: mid) ++ [y]).
  rewrite !occurrences_barrier by assumption.
  rewrite !occurrences_skip by assumption.
  rewrite occurrences_nil by assumption. lia.
Qed.

Lemma occurrences_app_l p a b : occurrences p a <= occurrences p (a ++ b).
Proof.
  induction a as [|c a IH].
  - simpl. destruct p; simpl; [destruct b; simpl; lia | lia].
  - change (occurrences p ((c :: a) ++ b))
      with ((if startswith ((c :: a) ++ b) p then 1 else 0)
            + occurrences p (a ++ b)).
    change (occurrences p (c :: a))
      with ((if startswith (c :: a) p then 1 else 0) + occurrences p a).
    destruct (startswith (c :: a) p) eqn:E.
    + rewrite (startswith_mono _ _ b E). lia.
    + lia.
Qed.

Lemma occurrences_app_r p a b : occurrences p b <= occurrences p (a ++ b).
Proof.
  induction a as [|c a IH]; [simpl; lia|].
  change (occurrences p ((c :: a) ++ b))
    with ((if startswith ((c :: a) ++ b) p then 1 else 0)
          + occurrences p (a ++ b)).
  lia.
Qed.

Lemma contains_occurrences p s : contains p s = false <-> occurrences p s = 0.
Proof.
  induction s as [|c s IH]; simpl.
  - destruct (startswith [] p); simpl; split; intro; try discriminate;
      try reflexivity.
  - destruct (startswith (c :: s) p); simpl.
    + split; intro; discriminate.
    + exact IH.
Qed.

Lemma contains_app p a b : contains p (a ++ p ++ b) = true.
Proof.
  induction a as [|c a IH].
  - simpl app. destruct (p ++ b) eqn:E; simpl; rewrite <- E;
      now rewrite startswith_app.
  - simpl. rewrite IH. apply orb_true_r.
Qed.

Lemma contains_split p : forall s,
  contains p s = true ->
  exists a b, s = a ++ p ++ b /\ first_occurrence p a b.
Proof.
  induction s as [|c s IH]; intro H.
  - simpl in H. rewrite orb_false_r in H. exists [], [].
    destruct p; [|discriminate]. split; [reflexivity|].
    intros a1 a2 E. now destruct a1, a2.
  - simpl in H. destruct (startswith (c :: s) p) eqn:E.
    + exists [], (skipn (length p) (c :: s)). split.
      * now apply startswith_split.
      * intros a1 a2 E2. now destruct a1, a2.
    + simpl in H. destruct (IH H) as (a & b & -> & Hf).
      exists (c :: a), b. split; [reflexivity|].
      intros a1 a2 E2 Hne. destruct a1 as [|d a1].
      * simpl in E2. subst a2. exact E.
      * injection E2 as -> ->. now apply (Hf a1 a2).
Qed.

Lemma first_occurrence_tail p c a b :
  first_occurrence p (c :: a) b -> first_occurrence p a b.
Proof. intros H a1 a2 E. apply (H (c :: a1) a2). now rewrite E. Qed.

Lemma first_occurrence_head p c a b :
  first_occurrence p (c :: a) b -> startswith (c :: a ++ p ++ b) p = false.
Proof. intro H. now apply (H [] (c :: a)). Qed.

Lemma replace1_first p new : forall a b,
  first_occurrence p a b -> replace1 (a ++ p ++ b) p new = a ++ new ++ b.
Proof.
  induction a as [|c a IH]; intros b H.
  - simpl app. destruct (p ++ b) eqn:E; simpl; rewrite <- E;
      rewrite startswith_app; f_equal;
      now rewrite skipn_app, Nat.sub_diag, skipn_all.
  - simpl app. simpl replace1.
    rewrite (first_occurrence_head _ _ _ _ H). f_equal.
    apply IH. now apply first_occurrence_tail in H.
Qed.

Lemma find_aux_first p : forall a b i,
  first_occurrence p a b ->
  find_aux p (a ++ p ++ b) i = (i + Z.of_nat (length a))%Z.
Proof.
  induction a as [|c a IH]; intros b i H.
  - simpl app. destruct (p ++ b) eqn:E; simpl; rewrite <- E;
      rewrite startswith_app; lia.
  - simpl app. simpl find_aux.
    rewrite (first_occurrence_head _ _ _ _ H).
    rewrite IH by (now apply first_occurrence_tail in H).
    simpl length. lia.
Qed.

Lemma first_occurrence_char x : forall a b,
  mem x a = false -> first_occurrence [x] a b.
Proof.
  intros a b H a1 a2 -> Hne.
  destruct a2 as [|d a2]; [congruence|].
  simpl. assert (Hd : mem x (d :: a2) = false).
  { clear - H. induction a1; simpl in *; [exact H|].
    apply orb_false_iff in H as [_ H]. auto. }
  simpl in Hd. apply orb_false_iff in Hd as [Hd _]. now rewrite Hd.
Qed.

Lemma find_from p a0 a b :
  first_occurrence p a b ->
  find (a0 ++ a ++ p ++ b) p (Z.of_nat (length a0))
  = Z.of_nat (length a0 + length a).
Proof.
  intro H. unfold find.
  replace (Z.of_nat (length a0) <? 0)%Z with false
    by (symmetry; apply Z.ltb_ge; lia).
  replace (Z.of_nat (length (a0 ++ a ++ p ++ b)) <? Z.of_nat (length a0))%Z
    with false by (symmetry; apply Z.ltb_ge; rewrite length_app; lia).
  rewrite Nat2Z.id, skipn_app, Nat.sub_diag, skipn_all.
  change (skipn 0 (a ++ p ++ b)) with (a ++ p ++ b). simpl app at 1.
  rewrite (find_aux_first _ _ _ _ H). lia.
Qed.

Lemma slices_at a b :
  slice_to (a ++ b) (Z.of_nat (length a)) = a /\
  slice_from (a ++ b) (Z.of_nat (length a)) = b.
Proof.
  unfold slice_to, slice_from, clamp.
  replace (Z.of_nat (length a) <? 0)%Z with false
    by (symmetry; apply Z.ltb_ge; lia).
  replace (Z.to_nat (Z.min (Z.of_nat (length a)) (Z.of_nat (length (a ++ b)))))
    with (length a) by (rewrite length_app; lia).
  rewrite firstn_app, skipn_app, Nat.sub_diag, firstn_all, skipn_all.
  simpl. now rewrite app_nil_r.
Qed.

End StringFacts.

(* ===================================================================== *)
(** * The injection guard: idempotence and insertion position *)
(* ===================================================================== *)

Section InjectionFacts.

Variable st : option Settings.

Local Abbreviation inject := (inject_kicanvas_script_into_html st).
Local Abbreviation url := (kicanvas_url st).
Local Abbreviation tag := (script_tag st).

Lemma loader_facts :
  url <> [] /\ mem 60%N url = false /\ mem 10%N url = false /\
  occurrences url tag = 1 /\ occurrences url (NL ++ tag) = 1 /\
  (exists mid, tag = 60%N :: mid ++ [10%N]) /\
  (exists mid, NL ++ tag = 10%N :: mid ++ [10%N]).
Proof.
  unfold script_tag, kicanvas_url.
  destruct (get (KICANVAS_USE_CDN (settings st)) false);
    (repeat split; try discriminate; try (vm_compute; reflexivity);
     match goal with
     | |- exists mid, ?t = _ => exists (removelast (tl t))
     end; vm_compute; reflexivity).
Qed.

Lemma slices_app (html : str) (i : Z) :
  slice_to html i ++ slice_from html i = html.
Proof. apply firstn_skipn. Qed.

(** Every branch of the insertion puts the loader tag, or a newline and
    the loader tag, between two parts of the body. *)
Lemma insert_script_shape (html : str) :
  exists a b ins,
    html = a ++ b /\ insert_script st html = a ++ ins ++ b /\
    (ins = tag \/ ins = NL ++ tag).
Proof.
  unfold insert_script.
  destruct (contains (txt "</head>") html) eqn:Eh.
  - destruct (contains_split _ _ Eh) as (a & b & -> & Hf).
    exists a, (txt "</head>" ++ b), tag.
    split; [reflexivity|]. split; [|now left].
    rewrite (replace1_first _ _ _ _ Hf). now rewrite <- app_assoc.
  - destruct (contains (txt "<body") html).
    + set (i := (find html (txt ">") (find html (txt "<body") 0) + 1)%Z).
      exists (slice_to html i), (slice_from html i), (NL ++ tag).
      split; [now rewrite slices_app|].
      split; [now rewrite <- app_assoc | now right].
    + exists [], html, tag. split; [reflexivity|]. split; [reflexivity | now left].
Qed.

Lemma insert_script_contains (html : str) :
  contains tag (insert_script st html) = true.
Proof.
  destruct (insert_script_shape html) as (a & b & ins & _ & -> & [-> | ->]).
  - apply contains_app.
  - rewrite <- app_assoc, app_assoc. apply contains_app.
Qed.

Lemma insert_script_occurrences (html : str) :
  occurrences url html = 0 -> occurrences url (insert_script st html) = 1.
Proof.
  intro H0.
  destruct loader_facts as (Hne & Hlt & Hnl & Ht & Hnt & [m1 Em1] & [m2 Em2]).
  destruct (insert_script_shape html) as (a & b & ins & -> & -> & Hins).
  pose proof (occurrences_app_l url a b) as Ha.
  pose proof (occurrences_app_r url a b) as Hb.
  destruct Hins as [-> | ->].
  - rewrite Em1 in Ht |- *. rewrite occurrences_insert by assumption.
    unfold str, char in *. lia.
  - rewrite Em2 in Hnt |- *. rewrite occurrences_insert by assumption.
    unfold str, char in *. lia.
Qed.

(** What a call does to a flagged, published document on which the guard
    has not run. *)
Lemma inject_fresh (c : Content) :
  get (kicanvas_embed c) false = true ->
  status c = txt "published" ->
  _kicanvas_script_injected c = None ->
  inject c =
    match _content c with
    | Some (ch :: html) =>
        if contains url (ch :: html)
        then set_kicanvas_script_injected c true
        else set_content (set_kicanvas_script_injected c true)
               (Some (insert_script st (ch :: html)))
    | _ => set_kicanvas_script_injected c true
    end.
Proof.
  intros He Hs Hi. unfold inject_kicanvas_script_into_html.
  rewrite He, Hs, Hi.
  replace (str_eqb (txt "published") (txt "published")) with true
    by (symmetry; now apply str_eqb_eq).
  simpl negb. cbv iota. simpl _content.
  destruct (_content c) as [[|ch html]|]; reflexivity.
Qed.

(** Once the flag is present a call changes nothing. *)
Lemma inject_flagged (c : Content) :
  _kicanvas_script_injected c <> None -> inject c = c.
Proof.
  intro H. unfold inject_kicanvas_script_into_html.
  destruct (negb (get (kicanvas_embed c) false)); [reflexivity|].
  destruct (negb (str_eqb (status c) (txt "published"))); [reflexivity|].
  destruct (_kicanvas_script_injected c); [reflexivity | congruence].
Qed.

Lemma inject_unchanged_or_flagged (c : Content) :
  inject c = c \/ _kicanvas_script_injected (inject c) <> None.
Proof.
  unfold inject_kicanvas_script_into_html.
  destruct (negb (get (kicanvas_embed c) false)); [now left|].
  destruct (negb (str_eqb (status c) (txt "published"))); [now left|].
  destruct (_kicanvas_script_injected c); [now left|]. right.
  cbn [_content set_kicanvas_script_injected].
  destruct (_content c) as [[|ch html]|]; try (simpl; discriminate).
  destruct (contains url (ch :: html)); simpl; discriminate.
Qed.

Lemma inject_idempotent (c : Content) : inject (inject c) = inject c.
Proof.
  destruct (inject_unchanged_or_flagged c) as [E | H].
  - now rewrite !E.
  - now apply inject_flagged.
Qed.

Lemma last_cons {A} (bs : list A) : forall b d, last (b :: bs) d = last bs b.
Proof.
  induction bs as [|x bs IH]; intros b d; [reflexivity|].
  change (last (b :: x :: bs) d) with (last (x :: bs) d).
  now rewrite !IH.
Qed.

Lemma subsequent_calls_flagged (bodies : list (option str)) : forall c,
  _kicanvas_script_injected c <> None ->
  subsequent_calls st c bodies = set_content c (last bodies (_content c)).
Proof.
  induction bodies as [|b bs IH]; intros c H.
  - simpl. now destruct c.
  - simpl subsequent_calls. rewrite inject_flagged by exact H.
    rewrite IH by exact H. rewrite last_cons. reflexivity.
Qed.

End InjectionFacts.

(* ===================================================================== *)
(** * Properties of the injection guard *)
(* ===================================================================== *)

(** C1, as amended. For every document object whose embed flag is set,
    whose status is "published", on which the guard has not run yet and
    whose non-empty body holds the loader URL at most once, two guard
    calls in sequence yield a body with exactly one occurrence of the
    loader URL, and the second call leaves the object (so its body)
    unchanged. *)
Theorem two_calls_one_loader (st : option Settings) (c : Content) (html : str) :
  get (kicanvas_embed c) false = true ->
  status c = txt "published" ->
  _kicanvas_script_injected c = None ->
  _content c = Some html ->
  html <> [] ->
  occurrences (kicanvas_url st) html <= 1 ->
  (exists out,
     _content (inject_kicanvas_script_into_html st
                 (inject_kicanvas_script_into_html st c)) = Some out /\
     occurrences (kicanvas_url st) out = 1) /\
  inject_kicanvas_script_into_html st (inject_kicanvas_script_into_html st c)
  = inject_kicanvas_script_into_html st c.
Proof.
  intros He Hs Hi Hc Hne Hocc.
  split; [|apply inject_idempotent].
  rewrite inject_idempotent, (inject_fresh st c He Hs Hi), Hc.
  destruct html as [|ch html]; [congruence|].
  destruct (contains (kicanvas_url st) (ch :: html)) eqn:E.
  - exists (ch :: html). split; [exact Hc|].
    assert (occurrences (kicanvas_url st) (ch :: html) <> 0).
    { intro H0. apply contains_occurrences in H0. congruence. }
    lia.
  - exists (insert_script st (ch :: html)). split; [reflexivity|].
    apply insert_script_occurrences. now apply contains_occurrences.
Qed.

Lemma two_calls_one_loader_witness :
  let c := fresh_document (Some (txt "<html><head></head><body>x</body></html>")) in
  (exists out,
     _content (inject_kicanvas_script_into_html None
                 (inject_kicanvas_script_into_html None c)) = Some out /\
     occurrences (kicanvas_url None) out = 1) /\
  inject_kicanvas_script_into_html None (inject_kicanvas_script_into_html None c)
  = inject_kicanvas_script_into_html None c.
Proof.
  apply (two_calls_one_loader None
           (fresh_document (Some (txt "<html><head></head><body>x</body></html>")))
           (txt "<html><head></head><body>x</body></html>"));
    try reflexivity; [discriminate | vm_compute; lia].
Defined.

(** C1, as stated, fails: a published, flagged document whose body already
    holds the loader tag twice (put there by the author) keeps both after
    two guard calls, because the guard does nothing when the loader URL is
    already in the body; and a document that carries the one-shot flag
    already gets no loader at all. *)
Lemma two_calls_two_loaders :
  let c := fresh_document (Some (script_tag None ++ script_tag None)) in
  let flagged :=
    set_kicanvas_script_injected (fresh_document (Some (txt "<p>x</p>"))) true in
  get (kicanvas_embed c) false = true /\
  status c = txt "published" /\
  (exists html, _content c = Some html /\ html <> []) /\
  (exists out,
     _content (inject_kicanvas_script_into_html None
                 (inject_kicanvas_script_into_html None c)) = Some out /\
     occurrences (kicanvas_url None) out = 2 /\
     occurrences (script_tag None) out = 2 /\
     occurrences (kicanvas_url None) out <> 1) /\
  _content (inject_kicanvas_script_into_html None
              (inject_kicanvas_script_into_html None flagged))
  = Some (txt "<p>x</p>") /\
  occurrences (kicanvas_url None) (txt "<p>x</p>") = 0.
Proof.
  cbv zeta. split; [reflexivity|]. split; [reflexivity|]. split; [|split].
  - eexists. split; [reflexivity | discriminate].
  - eexists. split; [vm_compute; reflexivity|].
    split; [vm_compute; reflexivity|].
    split; [vm_compute; reflexivity | vm_compute; discriminate].
  - split; vm_compute; reflexivity.
Qed.

(** C2, as amended. Whenever the guard performs its insertion, the
    resulting body is the old body with the loader tag, or a newline and
    the loader tag, put in at one position, and: the tag is placed
    immediately before the first [</head>] if the body has one;
    otherwise, if the body has [<body] followed by [>], a newline and then
    the tag are placed immediately after the first [>] that follows the
    first [<body]; otherwise, if the body has no [<body], the tag is
    prepended to the whole body. *)
Theorem insertion_position (st : option Settings) (c : Content) (html : str) :
  get (kicanvas_embed c) false = true ->
  status c = txt "published" ->
  _kicanvas_script_injected c = None ->
  _content c = Some html ->
  html <> [] ->
  contains (kicanvas_url st) html = false ->
  exists out,
    _content (inject_kicanvas_script_into_html st c) = Some out /\
    contains (script_tag st) out = true /\
    (exists a b,
       html = a ++ b /\
       (out = a ++ script_tag st ++ b \/ out = a ++ NL ++ script_tag st ++ b)) /\
    (forall a b,
       html = a ++ txt "</head>" ++ b ->
       first_occurrence (txt "</head>") a b ->
       out = a ++ script_tag st ++ txt "</head>" ++ b) /\
    (contains (txt "</head>") html = false ->
     forall a mid b,
       html = a ++ txt "<body" ++ mid ++ txt ">" ++ b ->
       first_occurrence (txt "<body") a (mid ++ txt ">" ++ b) ->
       mem 62%N mid = false ->
       out = a ++ txt "<body" ++ mid ++ txt ">" ++ NL ++ script_tag st ++ b) /\
    (contains (txt "</head>") html = false ->
     contains (txt "<body") html = false ->
     out = script_tag st ++ html).
Proof.
  intros He Hs Hi Hc Hne Hurl.
  exists (insert_script st html).
  split.
  { rewrite (inject_fresh st c He Hs Hi), Hc.
    destruct html as [|ch html]; [congruence|]. now rewrite Hurl. }
  split; [apply insert_script_contains|].
  split.
  { destruct (insert_script_shape st html) as (a & b & ins & E & -> & [-> | ->]).
    - exists a, b. split; [exact E | now left].
    - exists a, b. split; [exact E|]. right. now rewrite <- app_assoc. }
  unfold insert_script. split; [|split].
  - intros a b -> Hf. rewrite contains_app.
    rewrite (replace1_first _ _ _ _ Hf). now rewrite <- app_assoc.
  - intros Hh a mid b -> Hf Hm. rewrite Hh.
    rewrite contains_app.
    pose proof (find_from (txt "<body") [] a (mid ++ txt ">" ++ b) Hf) as E1.
    change (find (a ++ txt "<body" ++ mid ++ txt ">" ++ b) (txt "<body") 0
            = Z.of_nat (length a)) in E1.
    rewrite E1.
    change (a ++ txt "<body" ++ mid ++ txt ">" ++ b)
      with (a ++ (txt "<body" ++ mid) ++ txt ">" ++ b).
    rewrite (find_from (txt ">") a (txt "<body" ++ mid) b)
      by (apply first_occurrence_char; exact Hm).
    replace (a ++ (txt "<body" ++ mid) ++ txt ">" ++ b)
      with ((a ++ txt "<body" ++ mid ++ txt ">") ++ b)
      by (now rewrite <- !app_assoc).
    replace (Z.of_nat (length a + length (txt "<body" ++ mid)) + 1)%Z
      with (Z.of_nat (length (a ++ txt "<body" ++ mid ++ txt ">")))
      by (rewrite !length_app; simpl length; lia).
    destruct (slices_at (a ++ txt "<body" ++ mid ++ txt ">") b) as [-> ->].
    now rewrite <- !app_assoc.
  - intros Hh Hb. now rewrite Hh, Hb.
Qed.

Lemma no_start_inside_sound (p b : str) : forall a,
  no_start_inside p a (p ++ b) = true -> first_occurrence p a b.
Proof.
  induction a as [|c a IH]; intros H a1 a2 E Hne.
  - now destruct a1, a2.
  - simpl in H. apply andb_true_iff in H as [H1 H2].
    destruct a1 as [|d a1].
    + simpl in E. subst a2. now apply negb_true_iff in H1.
    + injection E as -> ->. now apply (IH H2 a1 a2).
Qed.

Lemma insertion_position_witness :
  let html := txt "<html><body class=x>hi</body></html>" in
  _content (inject_kicanvas_script_into_html None (fresh_document (Some html)))
  = Some (txt "<html><body class=x>" ++ NL ++ script_tag None
            ++ txt "hi</body></html>").
Proof.
  cbv zeta.
  destruct (insertion_position None
              (fresh_document (Some (txt "<html><body class=x>hi</body></html>")))
              (txt "<html><body class=x>hi</body></html>")
              eq_refl eq_refl eq_refl eq_refl)
    as (out & Hout & _ & _ & _ & Hbody & _).
  - discriminate.
  - vm_compute. reflexivity.
  - rewrite Hout. f_equal.
    apply (Hbody eq_refl (txt "<html>") (txt " class=x") (txt "hi</body></html>")).
    + reflexivity.
    + apply no_start_inside_sound. vm_compute. reflexivity.
    + vm_compute. reflexivity.
Defined.

(** C2, as stated, fails: for the body [<body>x] the guard performs its
    insertion, and what follows the opening tag is a newline, not the
    loader tag; the result is not the body with just the loader tag put
    in, at whatever position. And the insertion point is the first [>]
    after [<body], which lies inside the opening tag when an attribute
    value holds that character. *)
Lemma body_insertion_adds_newline :
  let html := txt "<body>x" in
  let c := fresh_document (Some html) in
  get (kicanvas_embed c) false = true /\
  status c = txt "published" /\
  _kicanvas_script_injected c = None /\
  contains (kicanvas_url None) html = false /\
  contains (txt "</head>") html = false /\
  _content (inject_kicanvas_script_into_html None c)
  = Some (txt "<body>" ++ NL ++ script_tag None ++ txt "x") /\
  _content (inject_kicanvas_script_into_html None c)
  <> Some (txt "<body>" ++ script_tag None ++ txt "x") /\
  (forall a b,
     html = a ++ b ->
     _content (inject_kicanvas_script_into_html None c)
     <> Some (a ++ script_tag None ++ b)) /\
  _content (inject_kicanvas_script_into_html None
              (fresh_document
                 (Some (txt "<body title=" ++ DQ ++ txt "a>b" ++ DQ ++ txt ">x"))))
  = Some (txt "<body title=" ++ DQ ++ txt "a>" ++ NL ++ script_tag None
            ++ txt "b" ++ DQ ++ txt ">x").
Proof.
  cbv zeta. repeat (split; [vm_compute; reflexivity|]).
  split; [vm_compute; discriminate|].
  split; [|vm_compute; reflexivity].
  intros a b E H.
  assert (L : length (a ++ script_tag None ++ b)
              = length (txt "<body>x") + length (script_tag None)).
  { rewrite E, !length_app. lia. }
  replace (_content (inject_kicanvas_script_into_html None
                       (fresh_document (Some (txt "<body>x")))))
    with (Some (txt "<body>" ++ NL ++ script_tag None ++ txt "x")) in H
    by (vm_compute; reflexivity).
  apply (f_equal (option_map (@length char))) in H.
  cbn [option_map] in H. rewrite L in H. vm_compute in H. discriminate.
Qed.

(** C10. For a flagged, published document on which the guard has not
    run, a first call made while the body is missing or empty sets the
    one-shot flag and inserts nothing; every later call, whatever body
    (or other state) the document has by then, changes nothing, so the
    body is always the one the pipeline assigned last and no loader is
    ever inserted. *)
Theorem flag_set_before_body_check (st : option Settings) (c : Content) :
  get (kicanvas_embed c) false = true ->
  status c = txt "published" ->
  _kicanvas_script_injected c = None ->
  _content c = None \/ _content c = Some [] ->
  let c1 := inject_kicanvas_script_into_html st c in
  _kicanvas_script_injected c1 = Some true /\
  _content c1 = _content c /\
  (forall body,
     inject_kicanvas_script_into_html st (set_content c1 body)
     = set_content c1 body) /\
  (forall bodies,
     subsequent_calls st c1 bodies
     = set_content c1 (last bodies (_content c))) /\
  (forall later,
     _kicanvas_script_injected later = _kicanvas_script_injected c1 ->
     inject_kicanvas_script_into_html st later = later).
Proof.
  intros He Hs Hi Hb. cbv zeta.
  assert (E : inject_kicanvas_script_into_html st c
              = set_kicanvas_script_injected c true).
  { rewrite (inject_fresh st c He Hs Hi). now destruct Hb as [-> | ->]. }
  rewrite E. split; [reflexivity|]. split; [reflexivity|].
  split; [|split].
  - intro body. apply inject_flagged. discriminate.
  - intro bodies. rewrite subsequent_calls_flagged by discriminate.
    reflexivity.
  - intros later Hl. apply inject_flagged. rewrite Hl. discriminate.
Qed.

Lemma flag_set_before_body_check_witness :
  let c1 := inject_kicanvas_script_into_html None (fresh_document (Some [])) in
  _kicanvas_script_injected c1 = Some true /\
  _content c1 = Some [] /\
  inject_kicanvas_script_into_html None
    (set_content c1 (Some (txt "<html><head></head></html>")))
  = set_content c1 (Some (txt "<html><head></head></html>")).
Proof.
  destruct (flag_set_before_body_check None (fresh_document (Some []))
              eq_refl eq_refl eq_refl (or_intror eq_refl))
    as (H1 & H2 & H3 & _ & _).
  cbv zeta. split; [exact H1|]. split; [exact H2|]. apply H3.
Defined.

(* ===================================================================== *)
(** * The language of a pattern, and the matcher against it *)
(* ===================================================================== *)

Section MatcherFacts.

Variable ic : bool.
Variable total : nat.

Lemma strip_sound p : forall s s',
  strip ic p s = Some s' -> exists x, s = x ++ s' /\ lit_text ic p x.
Proof.
  induction p as [|c p IH]; intros s s' H; simpl in H.
  - injection H as ->. exists []. split; [reflexivity | constructor].
  - destruct s as [|d s]; [discriminate|].
    destruct (lit_match ic c d) eqn:E; [|discriminate].
    destruct (IH _ _ H) as (x & -> & Hx).
    exists (d :: x). split; [reflexivity | now constructor].
Qed.

Lemma strip_complete p x s' : lit_text ic p x -> strip ic p (x ++ s') = Some s'.
Proof.
  induction 1 as [|c d p x Hcd _ IH]; simpl; [reflexivity|].
  now rewrite Hcd.
Qed.

Section Rep.

Variable A : Type.
Variable k : cls.
Variable cont : str -> option A.

Lemma rep_sound : forall s min a,
  rep k min s cont = Some a ->
  exists x s', s = x ++ s' /\ run_of k x /\ min <= length x /\ cont s' = Some a.
Proof.
  assert (Hstop : forall s min a,
             match min with O => cont s | S _ => None end = Some a ->
             exists x s', s = x ++ s' /\ run_of k x /\ min <= length x
                          /\ cont s' = Some a).
  { intros s [|n] a H; [|discriminate].
    exists [], s. repeat split; [constructor | reflexivity | exact H]. }
  induction s as [|c s IH]; intros min a H; simpl in H.
  - now apply Hstop.
  - destruct (cls_match k c) eqn:E; [|now apply Hstop].
    destruct (rep k (pred min) s cont) eqn:R; [|now apply Hstop].
    injection H as ->.
    destruct (IH _ _ R) as (x & s' & -> & Hx & Hm & Hc).
    exists (c :: x), s'. repeat split; [now constructor | simpl; lia | exact Hc].
Qed.

Lemma rep_complete : forall x min s',
  run_of k x -> min <= length x -> cont s' <> None ->
  rep k min (x ++ s') cont <> None.
Proof.
  induction x as [|c x IH]; intros min s' Hx Hm Hc.
  - destruct min; [|simpl in Hm; lia]. simpl app.
    destruct s' as [|d s']; simpl; [exact Hc|].
    destruct (cls_match k d); [|exact Hc].
    destruct (rep k 0 s' cont); [discriminate | exact Hc].
  - inversion Hx as [|? ? Hcc Hxx]; subst. simpl. rewrite Hcc.
    specialize (IH (pred min) s' Hxx).
    destruct (rep k (pred min) (x ++ s') cont); [discriminate|].
    exfalso. apply IH; [simpl in Hm; lia | exact Hc | reflexivity].
Qed.

(** The greedy choice is the result when the continuation accepts it:
    the run [x] is followed by a character outside the class, or by the
    end of the input. *)
Lemma rep_greedy : forall x min s' a,
  run_of k x -> min <= length x ->
  match s' with [] => true | d :: _ => negb (cls_match k d) end = true ->
  cont s' = Some a ->
  rep k min (x ++ s') cont = Some a.
Proof.
  induction x as [|c x IH]; intros min s' a Hx Hm Hs Hc.
  - destruct min; [|simpl in Hm; lia]. simpl app.
    destruct s' as [|d s']; simpl; [exact Hc|].
    apply negb_true_iff in Hs. now rewrite Hs.
  - inversion Hx as [|? ? Hcc Hxx]; subst. simpl. rewrite Hcc.
    rewrite (IH (pred min) s' a Hxx); [reflexivity | simpl in Hm; lia | exact Hs | exact Hc].
Qed.

End Rep.

Lemma m_sound (A : Type) : forall r s g (k : str -> groups -> option A) a,
  m ic total r s g k = Some a ->
  exists x s' g', s = x ++ s' /\ matches ic r x /\ k s' g' = Some a.
Proof.
  induction r as [| |p|c|c min|r1 IH1 r2 IH2|r1 IH1 r2 IH2|r IH|i r IH];
    intros s g k a H; simpl in H.
  - exists [], s, g. now repeat split.
  - destruct (Nat.eqb (length s) total); [|discriminate].
    exists [], s, g. now repeat split.
  - destruct (strip ic p s) as [s'|] eqn:E; [|discriminate].
    destruct (strip_sound _ _ _ E) as (x & -> & Hx).
    exists x, s', g. now repeat split.
  - destruct s as [|d s]; [discriminate|].
    destruct (cls_match c d) eqn:E; [|discriminate].
    exists [d], s, g. repeat split; [|exact H]. now exists d.
  - destruct (rep_sound _ _ _ _ _ _ H) as (x & s' & -> & Hx & Hm & Hc).
    exists x, s', g. now repeat split.
  - destruct (IH1 _ _ _ _ H) as (x & s1 & g1 & -> & Hx & H1).
    destruct (IH2 _ _ _ _ H1) as (y & s2 & g2 & -> & Hy & H2).
    exists (x ++ y), s2, g2. split; [now rewrite app_assoc|].
    split; [|exact H2]. now exists x, y.
  - destruct (m ic total r1 s g k) eqn:E1.
    + injection H as ->. destruct (IH1 _ _ _ _ E1) as (x & s' & g' & -> & Hx & Hk).
      exists x, s', g'. repeat split; [now left | exact Hk].
    + destruct (IH2 _ _ _ _ H) as (x & s' & g' & -> & Hx & Hk).
      exists x, s', g'. repeat split; [now right | exact Hk].
  - destruct (m ic total r s g k) eqn:E1.
    + injection H as ->. destruct (IH _ _ _ _ E1) as (x & s' & g' & -> & Hx & Hk).
      exists x, s', g'. repeat split; [now left | exact Hk].
    + exists [], s, g. repeat split; [now right | exact H].
  - destruct (IH _ _ _ _ H) as (x & s' & g' & -> & Hx & Hk).
    exists x, s', ((i, firstn (length (x ++ s') - length s') (x ++ s')) :: g').
    now repeat split.
Qed.

Lemma m_complete (A : Type) : forall r x s' g (k : str -> groups -> option A),
  no_bos r = true ->
  matches ic r x ->
  (forall g', k s' g' <> None) ->
  m ic total r (x ++ s') g k <> None.
Proof.
  induction r as [| |p|c|c min|r1 IH1 r2 IH2|r1 IH1 r2 IH2|r IH|i r IH];
    intros x s' g k Hb Hx Hk; simpl in *.
  - subst x. apply Hk.
  - discriminate.
  - rewrite (strip_complete _ _ _ Hx). apply Hk.
  - destruct Hx as (d & -> & Hd). simpl. rewrite Hd. apply Hk.
  - destruct Hx as [Hx Hm]. apply rep_complete; auto.
  - apply andb_true_iff in Hb as [Hb1 Hb2].
    destruct Hx as (y & z & -> & Hy & Hz). rewrite <- app_assoc.
    apply IH1; [assumption | assumption|].
    intro g'. now apply IH2.
  - apply andb_true_iff in Hb as [Hb1 Hb2].
    destruct (m ic total r1 (x ++ s') g k) eqn:E; [discriminate|].
    destruct Hx as [Hx | Hx].
    + exfalso. now apply (IH1 x s' g k Hb1 Hx Hk).
    + now apply IH2.
  - destruct (m ic total r (x ++ s') g k) eqn:E; [discriminate|].
    destruct Hx as [Hx | ->].
    + exfalso. now apply (IH x s' g k Hb Hx Hk).
    + apply Hk.
  - apply IH; auto.
Qed.

Lemma match_here_sound r s mo rest :
  match_here ic total r s = Some (mo, rest) ->
  s = group0 mo ++ rest /\ matches ic r (group0 mo).
Proof.
  unfold match_here. intro H.
  destruct (m_sound _ _ _ _ _ _ H) as (x & s' & g' & E & Hx & Hk).
  injection Hk as <- <-. simpl group0.
  subst s. rewrite length_app, Nat.add_sub, firstn_app, Nat.sub_diag, firstn_all.
  simpl. rewrite app_nil_r. now split.
Qed.

Lemma firstn_consumed (x s : str) :
  firstn (length (x ++ s) - length s) (x ++ s) = x.
Proof.
  rewrite length_app, Nat.add_sub, firstn_app, Nat.sub_diag, firstn_all.
  simpl. apply app_nil_r.
Qed.

(** The matcher only succeeds along a match of the pattern, and hands on
    the groups of that match. *)
Lemma m_captures (A : Type) : forall r s g (k : str -> groups -> option A) a,
  m ic total r s g k = Some a ->
  exists x s' g', s = x ++ s' /\ captures_of ic r x g g' /\ k s' g' = Some a.
Proof.
  induction r as [| |p|c|c min|r1 IH1 r2 IH2|r1 IH1 r2 IH2|r IH|i r IH];
    intros s g k a H; simpl in H.
  - exists [], s, g. now repeat split.
  - destruct (Nat.eqb (length s) total); [|discriminate].
    exists [], s, g. now repeat split.
  - destruct (strip ic p s) as [s'|] eqn:E; [|discriminate].
    destruct (strip_sound _ _ _ E) as (x & -> & Hx).
    exists x, s', g. now repeat split.
  - destruct s as [|d s]; [discriminate|].
    destruct (cls_match c d) eqn:E; [|discriminate].
    exists [d], s, g. repeat split; [|exact H]. now exists d.
  - destruct (rep_sound _ _ _ _ _ _ H) as (x & s' & -> & Hx & Hm & Hc).
    exists x, s', g. now repeat split.
  - destruct (IH1 _ _ _ _ H) as (x & s1 & g1 & -> & Hx & H1).
    destruct (IH2 _ _ _ _ H1) as (y & s2 & g2 & -> & Hy & H2).
    exists (x ++ y), s2, g2. split; [now rewrite app_assoc|].
    split; [|exact H2]. now exists x, y, g1.
  - destruct (m ic total r1 s g k) eqn:E1.
    + injection H as ->. destruct (IH1 _ _ _ _ E1) as (x & s' & g' & -> & Hx & Hk).
      exists x, s', g'. repeat split; [now left | exact Hk].
    + destruct (IH2 _ _ _ _ H) as (x & s' & g' & -> & Hx & Hk).
      exists x, s', g'. repeat split; [now right | exact Hk].
  - destruct (m ic total r s g k) eqn:E1.
    + injection H as ->. destruct (IH _ _ _ _ E1) as (x & s' & g' & -> & Hx & Hk).
      exists x, s', g'. repeat split; [now left | exact Hk].
    + exists [], s, g. repeat split; [now right | exact H].
  - destruct (IH _ _ _ _ H) as (x & s' & g' & -> & Hx & Hk).
    rewrite firstn_consumed in Hk.
    exists x, s', ((i, x) :: g'). split; [reflexivity|].
    split; [now exists g' | exact Hk].
Qed.

Lemma match_here_captures r s mo rest :
  match_here ic total r s = Some (mo, rest) ->
  s = group0 mo ++ rest /\ captures_of ic r (group0 mo) [] (captures mo).
Proof.
  unfold match_here. intro H.
  destruct (m_captures _ _ _ _ _ _ H) as (x & s' & g' & E & Hx & Hk).
  injection Hk as <- <-. simpl group0. simpl captures.
  subst s. rewrite firstn_consumed. now split.
Qed.

Lemma search_from_captures r : forall s mo,
  search_from ic total r s = Some mo ->
  exists pre post,
    s = pre ++ group0 mo ++ post /\
    captures_of ic r (group0 mo) [] (captures mo).
Proof.
  induction s as [|c s IH]; intros mo H; simpl in H.
  - destruct (match_here ic total r []) as [[mo' rest]|] eqn:E; [|discriminate].
    injection H as <-. destruct (match_here_captures _ _ _ _ E) as [E1 Hx].
    exists [], rest. now split.
  - destruct (match_here ic total r (c :: s)) as [[mo' rest]|] eqn:E.
    + injection H as <-. destruct (match_here_captures _ _ _ _ E) as [E1 Hx].
      exists [], rest. now split.
    + destruct (IH _ H) as (pre & post & -> & Hx).
      exists (c :: pre), post. now split.
Qed.

Lemma match_here_complete r x s' :
  no_bos r = true -> matches ic r x -> match_here ic total r (x ++ s') <> None.
Proof.
  intros Hb Hx. unfold match_here. apply m_complete; auto. discriminate.
Qed.

Lemma search_from_sound r : forall s mo,
  search_from ic total r s = Some mo ->
  exists pre x post, s = pre ++ x ++ post /\ matches ic r x.
Proof.
  induction s as [|c s IH]; intros mo H; simpl in H.
  - destruct (match_here ic total r []) as [[mo' rest]|] eqn:E; [|discriminate].
    destruct (match_here_sound _ _ _ _ E) as [E1 Hx].
    exists [], (group0 mo'), rest. now split.
  - destruct (match_here ic total r (c :: s)) as [[mo' rest]|] eqn:E.
    + destruct (match_here_sound _ _ _ _ E) as [E1 Hx].
      exists [], (group0 mo'), rest. now split.
    + destruct (IH _ H) as (pre & x & post & -> & Hx).
      exists (c :: pre), x, post. now split.
Qed.

Lemma search_from_complete r x post : forall pre,
  no_bos r = true -> matches ic r x ->
  search_from ic total r (pre ++ x ++ post) <> None.
Proof.
  intros pre Hb Hx. induction pre as [|c pre IH].
  - simpl app. pose proof (match_here_complete r x post Hb Hx) as Hm.
    destruct (x ++ post); simpl;
      destruct (match_here ic total r _) as [[? ?]|]; congruence.
  - simpl. destruct (match_here ic total r _) as [[? ?]|]; [discriminate|].
    exact IH.
Qed.

(** Substitution leaves a text without any match as it is. *)
Lemma sub_from_no_match r repl : forall s,
  (forall pre t, s = pre ++ t -> match_here ic total r t = None) ->
  sub_from ic total r repl s 0 = s.
Proof.
  induction s as [|c s IH]; intro H; simpl.
  - now rewrite (H [] [] eq_refl).
  - rewrite (H [] (c :: s) eq_refl). f_equal. apply IH.
    intros pre t ->. apply (H (c :: pre) t). reflexivity.
Qed.

(** ** The text behind a match does not matter *)

Lemma rep_none (A : Type) (k : cls) (cont : str -> option A) n :
  (forall l, length l < n -> cont l = None) ->
  forall s min, length s < n -> rep k min s cont = None.
Proof.
  intros Hc s min Hs.
  destruct (rep k min s cont) as [a|] eqn:E; [|reflexivity].
  destruct (rep_sound _ _ _ _ _ _ E) as (x & s' & -> & _ & _ & Hk).
  rewrite Hc in Hk; [discriminate|]. rewrite length_app in Hs. lia.
Qed.

Lemma m_none (A : Type) (k : str -> groups -> option A) n :
  (forall l g, length l < n -> k l g = None) ->
  forall r s g, length s < n -> m ic total r s g k = None.
Proof.
  intros Hc r s g Hs.
  destruct (m ic total r s g k) as [a|] eqn:E; [|reflexivity].
  destruct (m_sound _ _ _ _ _ _ E) as (x & s' & g' & -> & _ & Hk).
  rewrite Hc in Hk; [discriminate|]. rewrite length_app in Hs. lia.
Qed.

Lemma lit_text_length p x : lit_text ic p x -> length x = length p.
Proof. induction 1; simpl; congruence. Qed.

Lemma strip_append p cd : forall s,
  match strip ic p s with
  | Some s' => strip ic p (s ++ cd) = Some (s' ++ cd)
  | None => forall l, strip ic p (s ++ cd) = Some l -> length l < length cd
  end.
Proof.
  induction p as [|c p IH]; intro s; [reflexivity|].
  destruct s as [|d s].
  - simpl app. simpl (strip ic (c :: p) []). intros l H.
    destruct (strip_sound _ _ _ H) as (x & -> & Hx).
    apply lit_text_length in Hx. rewrite length_app, Hx. simpl. lia.
  - simpl. destruct (lit_match ic c d); [apply IH | discriminate].
Qed.

(** Two continuations that agree wherever a match of the pattern can end
    give the same result. *)
Lemma rep_agree (A : Type) (k : cls) (c1 c2 : str -> option A) : forall s min,
  (forall x l, s = x ++ l -> run_of k x -> min <= length x -> c1 l = c2 l) ->
  rep k min s c1 = rep k min s c2.
Proof.
  induction s as [|a s IH]; intros min H.
  - simpl. destruct min; [|reflexivity].
    apply (H [] []); [reflexivity | constructor | simpl; lia].
  - simpl.
    assert (Hstop : match min with O => c1 (a :: s) | S _ => None end
                    = match min with O => c2 (a :: s) | S _ => None end).
    { destruct min; [|reflexivity].
      apply (H [] (a :: s)); [reflexivity | constructor | simpl; lia]. }
    destruct (cls_match k a) eqn:E; [|exact Hstop].
    rewrite (IH (pred min)).
    + now rewrite Hstop.
    + intros x l -> Hx Hm. apply (H (a :: x) l); [reflexivity | |simpl; lia].
      now constructor.
Qed.

Lemma m_agree (A : Type) : forall r s g (k1 k2 : str -> groups -> option A),
  (forall x l g', s = x ++ l -> matches ic r x -> k1 l g' = k2 l g') ->
  m ic total r s g k1 = m ic total r s g k2.
Proof.
  induction r as [| |p|c|c min|r1 IH1 r2 IH2|r1 IH1 r2 IH2|r IH|i r IH];
    intros s g k1 k2 H; simpl.
  - now apply (H [] s).
  - destruct (Nat.eqb (length s) total); [|reflexivity]. now apply (H [] s).
  - destruct (strip ic p s) as [s'|] eqn:E; [|reflexivity].
    destruct (strip_sound _ _ _ E) as (x & -> & Hx). now apply (H x s').
  - destruct s as [|d s]; [reflexivity|].
    destruct (cls_match c d) eqn:E; [|reflexivity].
    apply (H [d] s); [reflexivity|]. now exists d.
  - apply rep_agree. intros x l -> Hx Hm. apply (H x l); [reflexivity|].
    now split.
  - apply IH1. intros x l g' -> Hx. apply IH2.
    intros y l2 g2 -> Hy. apply (H (x ++ y) l2); [now rewrite app_assoc|].
    now exists x, y.
  - rewrite (IH1 s g k1 k2), (IH2 s g k1 k2); [reflexivity| |].
    + intros x l g' E Hx. apply (H x l g' E). now right.
    + intros x l g' E Hx. apply (H x l g' E). now left.
  - rewrite (IH s g k1 k2).
    + now rewrite (H [] s g eq_refl (or_intror eq_refl)).
    + intros x l g' E Hx. apply (H x l g' E). now left.
  - apply IH. intros x l g' E Hx. now apply (H x l).
Qed.

End MatcherFacts.

Section AppendFacts.

Variable ic : bool.
Variables (A B : Type) (phi : A -> B).

(** The text [cd] behind the input. *)
Variable cd : str.

Lemma rep_append (k : cls) (c' : str -> option B) (c : str -> option A) :
  (forall s', c' (s' ++ cd) = option_map phi (c s')) ->
  (forall l, length l < length cd -> c' l = None) ->
  forall s min, rep k min (s ++ cd) c' = option_map phi (rep k min s c).
Proof.
  intros Hrel Hin. induction s as [|a s IH]; intro min.
  - simpl app. simpl (rep k min [] c).
    assert (Hstop : match min with O => c' cd | S _ => None end
                    = option_map phi match min with O => c [] | S _ => None end).
    { destruct min; [apply (Hrel []) | reflexivity]. }
    destruct cd as [|d cd1] eqn:Ecd; [exact Hstop|].
    simpl. destruct (cls_match k d); [|exact Hstop].
    rewrite (rep_none _ k c' (length (d :: cd1)) Hin); [exact Hstop|].
    simpl. lia.
  - simpl.
    assert (Hstop : match min with O => c' (a :: s ++ cd) | S _ => None end
                    = option_map phi
                        match min with O => c (a :: s) | S _ => None end).
    { destruct min; [apply (Hrel (a :: s)) | reflexivity]. }
    destruct (cls_match k a); [|exact Hstop].
    rewrite IH. destruct (rep k (pred min) s c); [reflexivity | exact Hstop].
Qed.

Lemma m_append t1 t2 : forall r,
  no_bos r = true ->
  forall s g (k' : str -> groups -> option B) (k : str -> groups -> option A),
    (forall s' g', k' (s' ++ cd) g' = option_map phi (k s' g')) ->
    (forall l g', length l < length cd -> k' l g' = None) ->
    m ic t1 r (s ++ cd) g k' = option_map phi (m ic t2 r s g k).
Proof.
  induction r as [| |p|c|c min|r1 IH1 r2 IH2|r1 IH1 r2 IH2|r IH|i r IH];
    intros Hb s g k' k Hrel Hin; simpl in *.
  - apply Hrel.
  - discriminate.
  - pose proof (strip_append ic p cd s) as Hs.
    destruct (strip ic p s) as [s'|].
    + rewrite Hs. apply Hrel.
    + destruct (strip ic p (s ++ cd)) as [l|] eqn:E; [|reflexivity].
      apply Hin. now apply Hs.
  - destruct s as [|d s].
    + simpl. destruct cd as [|d cd1]; [reflexivity|].
      destruct (cls_match c d); [|reflexivity]. apply Hin. simpl. lia.
    + simpl. destruct (cls_match c d); [apply Hrel | reflexivity].
  - apply rep_append; intros; [apply Hrel | now apply Hin].
  - apply andb_true_iff in Hb as [Hb1 Hb2]. apply IH1; [exact Hb1| |].
    + intros s' g'. now apply IH2.
    + intros l g' Hl. now apply (m_none ic t1 B k' (length cd)).
  - apply andb_true_iff in Hb as [Hb1 Hb2].
    rewrite (IH1 Hb1 s g k' k Hrel Hin), (IH2 Hb2 s g k' k Hrel Hin).
    now destruct (m ic t2 r1 s g k).
  - rewrite (IH Hb s g k' k Hrel Hin), Hrel.
    now destruct (m ic t2 r s g k).
  - apply IH; [exact Hb| |].
    + intros s' g'. rewrite <- Hrel. f_equal. f_equal. f_equal.
      rewrite !length_app.
      replace (length s + length cd - (length s' + length cd))
        with (length s - length s') by lia.
      rewrite firstn_app.
      replace (length s - length s' - length s) with 0 by lia.
      simpl. now rewrite app_nil_r.
    + intros l g' Hl. now apply Hin.
Qed.

End AppendFacts.

Section SubAppendFacts.

Variable ic : bool.
Variable r : re.
Hypothesis Hbos : no_bos r = true.
Hypothesis Hempty : ~ matches ic r [].

(** A match in front of [cand] that cannot end inside [cand] is the match
    found without [cand]. *)
Lemma match_here_append t1 t2 (t cand : str) :
  (forall x l, t ++ cand = x ++ l -> matches ic r x -> length cand <= length l) ->
  match_here ic t1 r (t ++ cand)
  = option_map (with_rest cand) (match_here ic t2 r t).
Proof.
  intro H. unfold match_here.
  rewrite (m_agree ic t1 _ r (t ++ cand) [] _
             (fun s' g =>
                if Nat.ltb (length s') (length cand) then None
                else Some ({| group0 := firstn (length (t ++ cand) - length s')
                                          (t ++ cand);
                              captures := g |}, s'))).
  - apply (m_append ic _ _ (with_rest cand) cand t1 t2 r Hbos).
    + intros s' g'. rewrite length_app.
      replace (Nat.ltb (length s' + length cand) (length cand)) with false
        by (symmetry; apply Nat.ltb_ge; lia).
      simpl. unfold with_rest. simpl. f_equal. f_equal. f_equal.
      rewrite length_app.
      replace (length t + length cand - (length s' + length cand))
        with (length t - length s') by lia.
      rewrite firstn_app.
      replace (length t - length s' - length t) with 0 by lia.
      simpl. now rewrite app_nil_r.
    + intros l g' Hl. apply Nat.ltb_lt in Hl. now rewrite Hl.
  - intros x l g' E Hx. specialize (H x l E Hx).
    replace (Nat.ltb (length l) (length cand)) with false
      by (symmetry; apply Nat.ltb_ge; lia).
    reflexivity.
Qed.

Lemma match_here_nonempty total s mo rest :
  match_here ic total r s = Some (mo, rest) -> group0 mo <> [].
Proof.
  intros H E. destruct (match_here_sound _ _ _ _ _ _ H) as [_ Hm].
  rewrite E in Hm. now apply Hempty.
Qed.

(** Substitution on a line whose matches all end before its last part
    [cand] leaves [cand] as it is. *)
Lemma sub_from_append t1 t2 repl (cand : str) : forall pre skip,
  (forall p1 x l,
     pre ++ cand = p1 ++ x ++ l -> matches ic r x -> length cand <= length l) ->
  skip <= length pre ->
  sub_from ic t1 r repl (pre ++ cand) skip
  = sub_from ic t2 r repl pre skip ++ cand.
Proof.
  induction pre as [|c pre IH]; intros skip H Hs.
  - assert (skip = 0) by (simpl in Hs; lia). subst skip. simpl app.
    assert (E0 : match_here ic t2 r [] = None).
    { destruct (match_here ic t2 r []) as [[mo rest]|] eqn:E; [|reflexivity].
      exfalso. apply (match_here_nonempty _ _ _ _ E).
      destruct (match_here_sound _ _ _ _ _ _ E) as [E1 _].
      symmetry in E1. now apply app_eq_nil in E1. }
    cbn [sub_from app]. rewrite E0. cbn [app]. apply sub_from_no_match.
    intros p1 t ->.
    destruct (match_here ic t1 r t) as [[mo rest]|] eqn:E; [|reflexivity].
    exfalso. destruct (match_here_sound _ _ _ _ _ _ E) as [E1 Hm].
    pose proof (match_here_nonempty _ _ _ _ E) as Hne.
    assert (Hl := H p1 (group0 mo) rest).
    simpl app in Hl. rewrite <- E1 in Hl. specialize (Hl eq_refl Hm).
    rewrite length_app, E1, length_app in Hl.
    destruct (group0 mo); [congruence | simpl in Hl; lia].
  - assert (Htail : forall p1 x l,
               pre ++ cand = p1 ++ x ++ l -> matches ic r x ->
               length cand <= length l).
    { intros p1 x l E. apply (H (c :: p1) x l). simpl. now rewrite E. }
    destruct skip as [|n].
    + simpl app. simpl sub_from.
      pose proof (match_here_append t1 t2 (c :: pre) cand (H [])) as Hm.
      simpl app in Hm. rewrite Hm.
      destruct (match_here ic t2 r (c :: pre)) as [[mo rest]|] eqn:E.
      * simpl. rewrite <- app_assoc. f_equal.
        destruct (match_here_sound _ _ _ _ _ _ E) as [E1 _].
        destruct (length (group0 mo)) as [|n] eqn:El.
        -- simpl. f_equal. apply IH; [exact Htail | lia].
        -- apply IH; [exact Htail|].
           apply (f_equal (@length char)) in E1.
           rewrite length_app, El in E1. simpl in E1. lia.
      * simpl. f_equal. apply IH; [exact Htail | lia].
    + simpl. apply IH; [exact Htail | simpl in Hs; lia].
Qed.

End SubAppendFacts.

(* ===================================================================== *)
(** * The detector and the opening tokens *)
(* ===================================================================== *)

Section DetectorFacts.

Lemma lit_text_exact ic (p : str) :
  forallb (fun c => negb (is_ascii_letter c)) p = true ->
  forall x, lit_text ic p x -> x = p.
Proof.
  intros Hp x H. induction H as [|c d p x Hcd _ IH]; [reflexivity|].
  simpl in Hp. apply andb_true_iff in Hp as [Hc Hp].
  apply negb_true_iff in Hc. unfold lit_match in Hcd.
  rewrite Hc, andb_false_r in Hcd. apply N.eqb_eq in Hcd.
  subst d. f_equal. now apply IH.
Qed.

(** On ASCII characters the case-insensitive match is equality after
    ASCII lower-casing. *)
Lemma lit_match_ascii (c d : char) :
  (c < 128)%N -> (d < 128)%N ->
  lit_match true c d = (ascii_lower c =? ascii_lower d)%N.
Proof.
  intros Hc Hd. unfold lit_match, is_ascii_letter, ascii_lower, sre_lower, casefix.
  destruct (N.eqb_spec d 304); [exfalso; lia|].
  destruct (N.eqb_spec d 8490); [exfalso; lia|].
  destruct (N.eqb_spec d 305); [exfalso; lia|].
  destruct (N.eqb_spec d 383); [exfalso; lia|].
  rewrite !andb_false_r.
  destruct (N.leb_spec 65 c), (N.leb_spec c 90), (N.leb_spec 97 c),
    (N.leb_spec c 122); simpl; try (exfalso; lia);
    destruct (N.leb_spec 65 d), (N.leb_spec d 90); simpl; try (exfalso; lia);
    repeat match goal with
           | |- context [(?a =? ?b)%N] => destruct (N.eqb_spec a b)
           end; simpl; try reflexivity; exfalso; lia.
Qed.

Lemma same_ignoring_case_ascii (p : str) : forall x,
  Forall (fun c => (c < 128)%N) p -> Forall (fun d => (d < 128)%N) x ->
  same_ignoring_case p x <-> map ascii_lower p = map ascii_lower x.
Proof.
  induction p as [|c p IH]; intros x Hp Hx.
  - split; intro H; [now inversion H|].
    destruct x; [constructor | discriminate].
  - inversion Hp as [|? ? Hc Hp']; subst. split; intro H.
    + inversion H as [|? d ? x' Hcd Hr]; subst.
      inversion Hx as [|? ? Hd Hx']; subst. simpl. f_equal.
      * rewrite (lit_match_ascii c d Hc Hd) in Hcd. now apply N.eqb_eq.
      * now apply IH.
    + destruct x as [|d x]; [discriminate|]. simpl in H. injection H as H1 H2.
      inversion Hx as [|? ? Hd Hx']; subst. constructor.
      * rewrite (lit_match_ascii c d Hc Hd). now apply N.eqb_eq.
      * now apply IH.
Qed.

Lemma length_pos_nonnil (w : str) : 1 <= length w <-> w <> [].
Proof. destruct w; simpl; split; intro; try congruence; lia. Qed.

Lemma KICAD_PATTERN_language (t : str) :
  matches true KICAD_PATTERN t <->
  opener_markdown t \/ opener_rst t \/ opener_liquid t.
Proof.
  unfold KICAD_PATTERN. simpl. split.
  - intros [H | [H | H]].
    + left. destruct H as (o & r1 & -> & Ho & w1 & r2 & -> & [Hw1 _]
                            & n & r3 & -> & Hn & w2 & p & -> & [Hw2 _] & Hp).
      apply (lit_text_exact true (txt "{{") eq_refl) in Ho.
      apply (lit_text_exact true (txt "(") eq_refl) in Hp. subst o p.
      now exists w1, n, w2.
    + right. left.
      destruct H as (o & r1 & -> & Ho & w & n & -> & [Hw Hl] & Hn).
      apply (lit_text_exact true (txt "..") eq_refl) in Ho. subst o.
      exists w, n. repeat split; auto. now apply length_pos_nonnil.
    + right. right.
      destruct H as (o & r1 & -> & Ho & w1 & r2 & -> & [Hw1 _]
                       & n & w2 & -> & Hn & [Hw2 Hl]).
      apply (lit_text_exact true (txt "{%") eq_refl) in Ho. subst o.
      exists w1, n, w2. repeat split; auto. now apply length_pos_nonnil.
  - intros [H | [H | H]].
    + left. destruct H as (w1 & n & w2 & -> & Hw1 & Hn & Hw2).
      exists (txt "{{"), (w1 ++ n ++ w2 ++ txt "("). split; [reflexivity|].
      split; [repeat constructor|].
      exists w1, (n ++ w2 ++ txt "("). split; [reflexivity|].
      split; [split; [exact Hw1 | lia]|].
      exists n, (w2 ++ txt "("). split; [reflexivity|]. split; [exact Hn|].
      exists w2, (txt "("). split; [reflexivity|].
      split; [split; [exact Hw2 | lia] | repeat constructor].
    + right. left. destruct H as (w & n & -> & Hw & Hne & Hn).
      exists (txt ".."), (w ++ n). split; [reflexivity|].
      split; [repeat constructor|].
      exists w, n. split; [reflexivity|].
      split; [split; [exact Hw | now apply length_pos_nonnil] | exact Hn].
    + right. right. destruct H as (w1 & n & w2 & -> & Hw1 & Hn & Hw2 & Hne).
      exists (txt "{%"), (w1 ++ n ++ w2). split; [reflexivity|].
      split; [repeat constructor|].
      exists w1, (n ++ w2). split; [reflexivity|].
      split; [split; [exact Hw1 | lia]|].
      exists n, w2. split; [reflexivity|]. split; [exact Hn|].
      split; [exact Hw2 | now apply length_pos_nonnil].
Qed.

End DetectorFacts.

(** C3. For every string, [KICAD_PATTERN] has a match if and only if the
    string holds an opening token of one of the three grammars, matched
    case-insensitively; the plain prose string has no match, and each
    opener matches wherever it stands and whatever follows it, in upper
    case as well. *)
Theorem detector_matches_openers :
  (forall s, KICAD_PATTERN_search s <> None <-> has_opener s) /\
  KICAD_PATTERN_search (txt "This is just normal text about KiCad") = None /\
  (forall pre rest,
     KICAD_PATTERN_search (pre ++ txt "{{ kicad_schematic(" ++ rest) <> None) /\
  (forall pre rest,
     KICAD_PATTERN_search (pre ++ txt ".. kicad-schematic::" ++ rest) <> None) /\
  (forall pre rest,
     KICAD_PATTERN_search (pre ++ txt "{% kicad_schematic " ++ rest) <> None) /\
  (forall pre rest,
     KICAD_PATTERN_search (pre ++ txt "{{ KICAD_SCHEMATIC(" ++ rest) <> None).
Proof.
  assert (Hiff : forall s, KICAD_PATTERN_search s <> None <-> has_opener s).
  { intro s. unfold KICAD_PATTERN_search, re_search. split.
    - intro H.
      destruct (search_from true (length s) KICAD_PATTERN s) as [mo|] eqn:E;
        [|congruence].
      destruct (search_from_sound _ _ _ _ _ E) as (pre & x & post & -> & Hx).
      exists pre, x, post. split; [reflexivity|].
      now apply KICAD_PATTERN_language.
    - intros (pre & t & post & -> & Ht).
      apply search_from_complete; [reflexivity|].
      now apply KICAD_PATTERN_language. }
  split; [exact Hiff|]. split; [vm_compute; reflexivity|].
  split; [|split; [|split]]; intros pre rest; apply Hiff.
  - exists pre, (txt "{{ kicad_schematic("), rest. split; [reflexivity|]. left.
    exists (txt " "), (txt "kicad_schematic"), [].
    split; [reflexivity|]. repeat split; repeat constructor.
  - exists pre, (txt ".. kicad-schematic::"), rest. split; [reflexivity|].
    right; left. exists (txt " "), (txt "kicad-schematic::").
    split; [reflexivity|]. repeat split; try discriminate; repeat constructor.
  - exists pre, (txt "{% kicad_schematic "), rest. split; [reflexivity|].
    right; right. exists (txt " "), (txt "kicad_schematic"), (txt " ").
    split; [reflexivity|]. repeat split; try discriminate; repeat constructor.
  - exists pre, (txt "{{ KICAD_SCHEMATIC("), rest. split; [reflexivity|]. left.
    exists (txt " "), (txt "KICAD_SCHEMATIC"), [].
    split; [reflexivity|]. repeat split; repeat constructor.
Qed.

(* ===================================================================== *)
(** * Grammar A: unterminated expressions *)
(* ===================================================================== *)

Import KiCadSchematicPreprocessor.

Section UnterminatedFacts.

Lemma skip_spaces_run (w rest : str) :
  spaces w ->
  match rest with [] => true | d :: _ => negb (is_space d) end = true ->
  skip_spaces (w ++ rest) = rest.
Proof.
  intros Hw Hr. induction Hw as [|c w Hc _ IH]; simpl.
  - destruct rest as [|d rest]; [reflexivity|].
    simpl. apply negb_true_iff in Hr. now rewrite Hr.
  - simpl in Hc. now rewrite Hc.
Qed.

Lemma has_closing_cons (c : char) (s : str) :
  has_closing (c :: s)
  = (char_eqb c 41%N && startswith (skip_spaces s) (txt "}}"))
    || has_closing s.
Proof. reflexivity. Qed.

Lemma has_closing_intro (w post : str) : forall pre,
  spaces w -> has_closing (pre ++ txt ")" ++ w ++ txt "}}" ++ post) = true.
Proof.
  intros pre Hw. induction pre as [|c pre IH].
  - change ([] ++ txt ")" ++ w ++ txt "}}" ++ post)
      with (41%N :: (w ++ txt "}}" ++ post)).
    rewrite has_closing_cons.
    rewrite skip_spaces_run by (assumption || reflexivity).
    now rewrite startswith_app.
  - change ((c :: pre) ++ txt ")" ++ w ++ txt "}}" ++ post)
      with (c :: (pre ++ txt ")" ++ w ++ txt "}}" ++ post)).
    rewrite has_closing_cons, IH. apply orb_true_r.
Qed.

(** Every text that [PATTERN] matches ends with the closing tokens. *)
Lemma PATTERN_closing (x : str) :
  matches true PATTERN x ->
  exists y w, x = y ++ txt ")" ++ w ++ txt "}}" /\ spaces w.
Proof.
  intro H. unfold PATTERN in H. simpl in H.
  destruct H as (a1 & t1 & -> & _ & a2 & t2 & -> & _ & a3 & t3 & -> & _
                 & a4 & t4 & -> & _ & a5 & t5 & -> & _ & a6 & t6 & -> & _
                 & a7 & t7 & -> & _ & a8 & t8 & -> & _ & a9 & t9 & -> & _
                 & a10 & t10 & -> & _ & a11 & t11 & -> & _
                 & a12 & t12 & -> & H12 & w & a14 & -> & [Hw _] & H14).
  apply (lit_text_exact true (txt "}}") eq_refl) in H14.
  apply (lit_text_exact true (txt ")") eq_refl) in H12. subst.
  exists (a1 ++ a2 ++ a3 ++ a4 ++ a5 ++ a6 ++ a7 ++ a8 ++ a9 ++ a10 ++ a11), w.
  split; [|exact Hw].
  repeat rewrite <- app_assoc. reflexivity.
Qed.

Lemma no_closing_no_call (line : str) :
  has_closing line = false -> ~ holds_call line.
Proof.
  intros Hc (pre & call & post & -> & Hm).
  destruct (PATTERN_closing _ Hm) as (y & w & -> & Hw).
  rewrite <- !app_assoc, app_assoc in Hc.
  rewrite (has_closing_intro w post (pre ++ y) Hw) in Hc. discriminate.
Qed.

Lemma PATTERN_no_match (line : str) :
  ~ holds_call line ->
  forall total pre t, line = pre ++ t -> match_here true total PATTERN t = None.
Proof.
  intros Hc total pre t ->.
  destruct (match_here true total PATTERN t) as [[mo rest]|] eqn:E;
    [|reflexivity].
  destruct (match_here_sound _ _ _ _ _ _ E) as [-> Hm].
  exfalso. apply Hc. now exists pre, (group0 mo), rest.
Qed.

Lemma PATTERN_no_bos : no_bos PATTERN = true.
Proof. reflexivity. Qed.

Lemma PATTERN_nonempty : ~ matches true PATTERN [].
Proof.
  intro H. destruct (PATTERN_closing _ H) as (y & w & E & _).
  apply (f_equal (@length char)) in E.
  rewrite !length_app in E. simpl in E. lia.
Qed.

(** No call ends inside, or at the end of, a candidate that opens with
    two braces and holds no closing tokens. *)
Lemma PATTERN_ends_before (pre cand : str) :
  startswith cand (txt "{{") = true ->
  has_closing cand = false ->
  forall p1 x l,
    pre ++ cand = p1 ++ x ++ l -> matches true PATTERN x ->
    length cand <= length l.
Proof.
  intros Hs Hc p1 x l E Hm.
  destruct (PATTERN_closing _ Hm) as (y & w & -> & Hw).
  destruct (Nat.le_gt_cases (length cand) (length l)) as [|Hlt];
    [assumption | exfalso].
  rewrite app_assoc in E. apply app_eq_app in E.
  destruct E as (mid & [[_ E2] | [E1 E2]]).
  { subst l. rewrite length_app in Hlt. lia. }
  rewrite app_assoc in E1. apply app_eq_app in E1.
  destruct E1 as (n & [[_ E3] | [_ E3]]).
  - subst mid. subst cand. rewrite <- !app_assoc in Hc.
    rewrite (has_closing_intro w l n Hw) in Hc. discriminate.
  - destruct mid as [|d mid'].
    { subst cand. simpl in Hlt. lia. }
    assert (Hd : In d (txt ")" ++ w ++ txt "}}")).
    { rewrite E3. apply in_or_app. right. now left. }
    subst cand.
    change (char_eqb 123%N d && startswith (mid' ++ l) (txt "{") = true) in Hs.
    apply andb_true_iff in Hs.
    destruct Hs as [Hs _]. apply char_eqb_eq in Hs. subst d.
    simpl in Hd. destruct Hd as [Hd | Hd]; [discriminate|].
    apply in_app_or in Hd. destruct Hd as [Hd | Hd].
    + unfold spaces, run_of in Hw. rewrite Forall_forall in Hw.
      specialize (Hw _ Hd). discriminate.
    + simpl in Hd. destruct Hd as [Hd | [Hd | []]]; discriminate.
Qed.

(** An unterminated candidate at the end of a line stays as it is,
    whatever [run] does with the text in front of it. *)
Lemma run_unterminated_tail (pre cand : str) :
  startswith cand (txt "{{") = true ->
  has_closing cand = false ->
  run [pre ++ cand] = map (fun out => out ++ cand) (run [pre]).
Proof.
  intros Hs Hc. unfold run, re_sub. simpl map. f_equal.
  apply (sub_from_append true PATTERN PATTERN_no_bos PATTERN_nonempty).
  - exact (PATTERN_ends_before pre cand Hs Hc).
  - lia.
Qed.

End UnterminatedFacts.

(** C4, as amended. Every input line that holds no complete Grammar-A
    call is returned by [run] unchanged; such is every line in which the
    closing tokens do not occur (no closing parenthesis followed, after
    optional white space, by two closing braces). On any line, a
    candidate that opens with two braces, holds no closing tokens and
    runs to the end of the line is left as it is, whatever the text in
    front of it becomes. And [run], which is total, returns one line for
    every input line. *)
Theorem unterminated_left_unchanged (lines : list str) :
  Forall (fun line => ~ holds_call line) lines ->
  (run lines = lines /\ length (run lines) = length lines) /\
  (forall line, has_closing line = false -> ~ holds_call line) /\
  (forall pre cand,
     startswith cand (txt "{{") = true -> has_closing cand = false ->
     run [pre ++ cand] = map (fun out => out ++ cand) (run [pre])).
Proof.
  intro H.
  split; [|split; [exact no_closing_no_call | exact run_unterminated_tail]].
  split; [|apply length_map].
  unfold run. induction H as [|line lines Hc _ IH]; [reflexivity|].
  simpl map. rewrite IH. f_equal.
  unfold re_sub. apply sub_from_no_match.
  intros pre t E. now apply (PATTERN_no_match line Hc _ pre t).
Qed.

Lemma unterminated_left_unchanged_witness :
  let line := txt "{{ kicad_schematic(" ++ DQ ++ txt "x.kicad_sch" ++ DQ in
  run [line] = [line] /\ length (run [line]) = 1.
Proof.
  refine (proj1 (unterminated_left_unchanged
                   [txt "{{ kicad_schematic(" ++ DQ ++ txt "x.kicad_sch" ++ DQ]
                   _)).
  constructor; [|constructor].
  apply (proj1 (proj2 (unterminated_left_unchanged [] (Forall_nil _)))).
  vm_compute. reflexivity.
Defined.

(** C4, as stated, fails: a line that holds a candidate without closing
    tokens may also hold a complete call, which [run] replaces; only the
    unterminated candidate is left as it is. *)
Lemma complete_call_beside_unterminated :
  let complete := txt "{{ kicad_schematic(" ++ DQ ++ txt "a.kicad_sch" ++ DQ
                    ++ txt ") }}" in
  let candidate := txt "{{ kicad_schematic(" ++ DQ ++ txt "x.kicad_sch" ++ DQ in
  let line := complete ++ txt " and " ++ candidate in
  has_closing candidate = false /\
  re_match true PATTERN candidate = None /\
  run [line]
  = [txt "<kicanvas-embed src=" ++ DQ ++ txt "/static/schematics/a.kicad_sch"
       ++ DQ ++ txt "></kicanvas-embed>" ++ txt " and " ++ candidate] /\
  run [line] <> [line].
Proof.
  cbv zeta. repeat (split; [vm_compute; reflexivity|]).
  vm_compute. discriminate.
Qed.

(* ===================================================================== *)
(** * Properties of the path resolver *)
(* ===================================================================== *)

(** C6, as amended. For every filename that does not start with [/] or
    [http], and every context in which the document URL and the document
    source path are both present and non-empty: if the file
    outputRoot/documentUrl/filename exists, the resolver returns [/],
    the URL without its trailing slashes, [/] and the filename, whatever
    else exists on disk. *)
Theorem article_output_takes_priority
    (st : option Settings) (exists_ : Path -> bool)
    (resolved_relative_to : Path -> Path -> option str)
    (filename source url_ : str) :
  is_absolute_url filename = false ->
  source <> [] ->
  url_ <> [] ->
  exists_ (Div (Div (PathOf (output_path st)) (rstrip_slash url_)) filename)
  = true ->
  resolve_schematic_path st exists_ resolved_relative_to filename
    (Some source) (Some url_)
  = txt "/" ++ rstrip_slash url_ ++ txt "/" ++ filename.
Proof.
  intros Ha Hs Hu He. unfold resolve_schematic_path, strategy_article_url.
  rewrite Ha. destruct source as [|c1 source]; [congruence|].
  destruct url_ as [|c2 url_]; [congruence|].
  cbn [truthy andb get]. now rewrite He.
Qed.

Lemma article_output_takes_priority_witness :
  resolve_schematic_path None
    (files [Div (Div (PathOf (txt "output")) (txt "blog/amp")) (txt "amp.kicad_sch");
            Div (Parent (PathOf (txt "/site/content/blog/amp.md"))) (txt "amp.kicad_sch")])
    (fun _ _ => Some (txt "blog/amp.kicad_sch"))
    (txt "amp.kicad_sch") (Some (txt "/site/content/blog/amp.md"))
    (Some (txt "blog/amp/"))
  = txt "/blog/amp/amp.kicad_sch".
Proof.
  apply (article_output_takes_priority None _ _ (txt "amp.kicad_sch")
           (txt "/site/content/blog/amp.md") (txt "blog/amp/"));
    try discriminate; vm_compute; reflexivity.
Defined.

(** C6, as stated, fails for a filename that starts with [http] (or with
    [/]): the resolver returns it unchanged before it looks at the output
    directory, although the file is there. It also fails for a document
    URL that is present but empty, which the article-URL strategy treats
    as absent. *)
Lemma url_like_filename_returned_unchanged :
  let exists_ :=
    files [Div (Div (PathOf (txt "output")) (txt "blog/amp")) (txt "httpd.kicad_sch");
           Div (Div (PathOf (txt "output")) []) (txt "amp.kicad_sch")] in
  let source := Some (txt "/site/content/blog/amp.md") in
  let url_ := Some (txt "blog/amp/") in
  truthy source = true /\ truthy url_ = true /\
  exists_ (Div (Div (PathOf (output_path None)) (rstrip_slash (txt "blog/amp/")))
             (txt "httpd.kicad_sch")) = true /\
  resolve_schematic_path None exists_ (fun _ _ => None)
    (txt "httpd.kicad_sch") source url_
  = txt "httpd.kicad_sch" /\
  resolve_schematic_path None exists_ (fun _ _ => None)
    (txt "httpd.kicad_sch") source url_
  <> txt "/" ++ rstrip_slash (txt "blog/amp/") ++ txt "/" ++ txt "httpd.kicad_sch" /\
  exists_ (Div (Div (PathOf (output_path None)) (rstrip_slash []))
             (txt "amp.kicad_sch")) = true /\
  resolve_schematic_path None exists_ (fun _ _ => None)
    (txt "amp.kicad_sch") source (Some [])
  = txt "amp.kicad_sch".
Proof.
  cbv zeta. repeat (split; [vm_compute; reflexivity|]).
  split; [vm_compute; discriminate|].
  split; vm_compute; reflexivity.
Qed.

(** C7, as amended. For every filename and context such that
    parentDir(documentSourcePath)/filename exists but its resolved path
    is not under the content root, the content-root-relative strategy
    yields no result. When resolution reaches that strategy (the
    filename does not start with [/] or [http], and the document URL is
    absent or empty) it falls through to the configured schematics path
    and then to the filename itself. In every case the result is the
    filename itself, a path under the document URL or a path under the
    configured schematics path, never one relative to the content root. *)
Theorem outside_content_root_falls_through
    (st : option Settings) (exists_ : Path -> bool)
    (resolved_relative_to : Path -> Path -> option str)
    (filename source : str) (article_url : option str) :
  source <> [] ->
  exists_ (Div (Parent (PathOf source)) filename) = true ->
  resolved_relative_to (Div (Parent (PathOf source)) filename)
    (PathOf (content_path st)) = None ->
  let result :=
    resolve_schematic_path st exists_ resolved_relative_to filename
      (Some source) article_url in
  strategy_content_relative st exists_ resolved_relative_to filename (Some source)
  = None /\
  (is_absolute_url filename = false -> truthy article_url = false ->
   result = strategy_schematics_path st exists_ filename) /\
  (result = filename \/
   result = txt "/" ++ rstrip_slash (get article_url []) ++ txt "/" ++ filename \/
   result = txt "/" ++ get (KICAD_SCHEMATICS_PATH (settings st)) []
              ++ txt "/" ++ filename).
Proof.
  intros Hs He Hr. cbv zeta.
  assert (E2 : strategy_content_relative st exists_ resolved_relative_to
                 filename (Some source) = None).
  { unfold strategy_content_relative. destruct source; [congruence|].
    cbn [truthy get]. now rewrite He, Hr. }
  assert (E3 : strategy_schematics_path st exists_ filename = filename \/
               strategy_schematics_path st exists_ filename
               = txt "/" ++ get (KICAD_SCHEMATICS_PATH (settings st)) []
                   ++ txt "/" ++ filename).
  { unfold strategy_schematics_path.
    destruct (truthy _); [|now left].
    destruct (exists_ (Div (Div _ _) _)); [now right | now left]. }
  split; [exact E2|]. unfold resolve_schematic_path. rewrite E2. split.
  - intros Ha Hu. rewrite Ha. unfold strategy_article_url. now rewrite Hu.
  - destruct (is_absolute_url filename); [now left|].
    unfold strategy_article_url.
    destruct (truthy article_url && truthy (Some source)).
    + cbn [get].
      destruct (exists_ (Div (Div _ _) _)); [now right; left|].
      destruct (exists_ (Div (Parent _) _)); [now right; left|].
      destruct E3 as [-> | ->]; [now left | now right; right].
    + destruct E3 as [-> | ->]; [now left | now right; right].
Qed.

Lemma outside_content_root_falls_through_witness :
  resolve_schematic_path None
    (files [Div (Parent (PathOf (txt "/elsewhere/post.md"))) (txt "amp.kicad_sch")])
    (fun _ _ => None) (txt "amp.kicad_sch") (Some (txt "/elsewhere/post.md")) None
  = txt "amp.kicad_sch".
Proof.
  destruct (outside_content_root_falls_through None
              (files [Div (Parent (PathOf (txt "/elsewhere/post.md")))
                        (txt "amp.kicad_sch")])
              (fun _ _ => None) (txt "amp.kicad_sch") (txt "/elsewhere/post.md") None)
    as (_ & H & _).
  - discriminate.
  - vm_compute. reflexivity.
  - reflexivity.
  - rewrite (H eq_refl eq_refl). vm_compute. reflexivity.
Defined.

(** C7, as stated, fails when the document URL is present: the file next
    to the document, outside the content root, is resolved by the
    article-URL strategy, so resolution does not fall through to the
    later strategies, whose answer would be the bare filename. *)
Lemma article_url_shadows_fall_through :
  let exists_ :=
    files [Div (Parent (PathOf (txt "/elsewhere/post.md"))) (txt "amp.kicad_sch")] in
  let outside : Path -> Path -> option str := fun _ _ => None in
  exists_ (Div (Parent (PathOf (txt "/elsewhere/post.md"))) (txt "amp.kicad_sch"))
  = true /\
  outside (Div (Parent (PathOf (txt "/elsewhere/post.md"))) (txt "amp.kicad_sch"))
    (PathOf (content_path None)) = None /\
  resolve_schematic_path None exists_ outside (txt "amp.kicad_sch")
    (Some (txt "/elsewhere/post.md")) (Some (txt "blog/post/"))
  = txt "/blog/post/amp.kicad_sch" /\
  strategy_schematics_path None exists_ (txt "amp.kicad_sch")
  = txt "amp.kicad_sch" /\
  resolve_schematic_path None exists_ outside (txt "amp.kicad_sch")
    (Some (txt "/elsewhere/post.md")) (Some (txt "blog/post/"))
  <> strategy_schematics_path None exists_ (txt "amp.kicad_sch").
Proof.
  cbv zeta. repeat (split; [vm_compute; reflexivity|]).
  vm_compute. discriminate.
Qed.

(* ===================================================================== *)
(** * Running the matcher along a text of known shape *)
(* ===================================================================== *)

Section EvalFacts.

Variable ic : bool.
Variable total : nat.
Variable A : Type.

Implicit Types (s x : str) (g : groups) (k : str -> groups -> option A).

Lemma eval_Seq a b s g k r :
  m ic total a s g (fun s' g' => m ic total b s' g' k) = Some r ->
  m ic total (Seq a b) s g k = Some r.
Proof. exact (fun H => H). Qed.

Lemma eval_Str p x s g k r :
  lit_text ic p x -> k s g = Some r -> m ic total (Str p) (x ++ s) g k = Some r.
Proof. intros Hx Hk. simpl. now rewrite (strip_complete _ _ _ _ Hx). Qed.

Lemma eval_Any c d s g k r :
  cls_match c d = true -> k s g = Some r ->
  m ic total (Any c) (d :: s) g k = Some r.
Proof. intros Hd Hk. simpl. now rewrite Hd. Qed.

Lemma eval_Rep c min x s g k r :
  run_of c x -> min <= length x -> ends_run c s = true -> k s g = Some r ->
  m ic total (Rep c min) (x ++ s) g k = Some r.
Proof. intros Hx Hm Hs Hk. simpl. now apply rep_greedy. Qed.

Lemma eval_Grp_Rep i c min x s g k r :
  run_of c x -> min <= length x -> ends_run c s = true ->
  k s ((i, x) :: g) = Some r ->
  m ic total (Grp i (Rep c min)) (x ++ s) g k = Some r.
Proof.
  intros Hx Hm Hs Hk. simpl. apply rep_greedy; auto.
  now rewrite firstn_consumed.
Qed.

Lemma eval_Alt_l a b s g k r :
  m ic total a s g k = Some r -> m ic total (Alt a b) s g k = Some r.
Proof. intro H. simpl. now rewrite H. Qed.

Lemma eval_Opt_some a s g k r :
  m ic total a s g k = Some r -> m ic total (Opt a) s g k = Some r.
Proof. intro H. simpl. now rewrite H. Qed.

Lemma eval_Opt_none a s g k r :
  m ic total a s g k = None -> k s g = Some r ->
  m ic total (Opt a) s g k = Some r.
Proof. intros H Hk. simpl. now rewrite H. Qed.

Lemma eval_Bos s g k r :
  length s = total -> k s g = Some r -> m ic total Bos s g k = Some r.
Proof. intros H Hk. simpl. now rewrite H, Nat.eqb_refl. Qed.

End EvalFacts.

Section SubFacts.

Variable ic : bool.
Variable total : nat.
Variable r : re.
Variable repl : Match -> str.

Lemma sub_from_skip : forall x s,
  sub_from ic total r repl (x ++ s) (length x) = sub_from ic total r repl s 0.
Proof.
  induction x as [|c x IH]; intro s; [reflexivity|].
  simpl. apply IH.
Qed.

(** A non-empty match at the front is replaced and the scan goes on
    behind it. *)
Lemma sub_from_match mo rest :
  match_here ic total r (group0 mo ++ rest) = Some (mo, rest) ->
  group0 mo <> [] ->
  sub_from ic total r repl (group0 mo ++ rest) 0
  = repl mo ++ sub_from ic total r repl rest 0.
Proof.
  intros H Hne. destruct (group0 mo) as [|c x] eqn:E; [congruence|].
  simpl app in *. simpl sub_from. rewrite H, E. f_equal.
  simpl length. cbv iota. apply sub_from_skip.
Qed.

End SubFacts.

Section ClassFacts.

(** A character that a literal of a pattern matches is white space only
    if the literal is. *)
Lemma lit_match_space ic c d :
  lit_match ic c d = true -> is_space c = false -> is_space d = false.
Proof.
  unfold lit_match. intros H Hc.
  destruct (ic && is_ascii_letter c) eqn:E.
  - apply andb_true_iff in E as [_ El]. clear Hc.
    assert (Hd : (65 <= d <= 90 \/ 97 <= d <= 122 \/ d = 304 \/ d = 8490
                  \/ d = 305 \/ d = 383)%N).
    { assert (Hlo : (97 <= ascii_lower c <= 122)%N).
      { unfold is_ascii_letter, ascii_lower in *.
        destruct (N.leb_spec 65 c), (N.leb_spec c 90); simpl in *; try lia;
          destruct (N.leb_spec 97 c), (N.leb_spec c 122); simpl in *;
          try discriminate; lia. }
      apply orb_true_iff in H as [H | H].
      - apply N.eqb_eq in H. rewrite <- H in Hlo. unfold sre_lower in Hlo.
        destruct (N.leb_spec 65 d), (N.leb_spec d 90); simpl in Hlo; try lia;
          destruct (N.eqb_spec d 304); try lia;
          destruct (N.eqb_spec d 8490); lia.
      - unfold casefix in H.
        destruct (N.eqb_spec d 305); [lia|].
        destruct (N.eqb_spec d 383); [lia|].
        rewrite !andb_false_r in H. discriminate. }
    unfold is_space.
    repeat match goal with
           | |- context [(?a <=? ?b)%N] => destruct (N.leb_spec a b)
           | |- context [(?a =? ?b)%N] => destruct (N.eqb_spec a b)
           end; simpl; try reflexivity; lia.
  - apply N.eqb_eq in H. now subst d.
Qed.

Lemma lit_text_ends_run ic p x s :
  lit_text ic p x ->
  match p with [] => false | c :: _ => negb (is_space c) end = true ->
  ends_run Space (x ++ s) = true.
Proof.
  intros H Hp. destruct H as [|c d p x Hcd _]; [discriminate|].
  simpl. apply negb_true_iff in Hp. apply negb_true_iff.
  now apply (lit_match_space ic c d).
Qed.

Lemma is_quote_ends_run q s :
  is_quote q = true -> ends_run (NoneOf (DQ ++ SQ)) (q :: s) = true.
Proof. intro H. simpl. unfold is_quote in H. simpl in H. now rewrite H. Qed.

Lemma is_quote_not_space q : is_quote q = true -> is_space q = false.
Proof.
  unfold is_quote. simpl. unfold char_eqb. intro H.
  destruct (N.eqb_spec q 34); [now subst|].
  destruct (N.eqb_spec q 39); [now subst|]. discriminate.
Qed.

End ClassFacts.

(* ===================================================================== *)
(** * Grammar A: quoted filenames *)
(* ===================================================================== *)

Section QuotedFacts.

Variables (w1 name w2 w3 : str) (q1 : char) (f : str) (q2 : char) (w4 w5 : str).

Hypothesis Hw1 : spaces w1.
Hypothesis Hname : same_ignoring_case (txt "kicad_schematic") name.
Hypothesis Hw2 : spaces w2.
Hypothesis Hw3 : spaces w3.
Hypothesis Hq1 : is_quote q1 = true.
Hypothesis Hf : run_of (NoneOf (DQ ++ SQ)) f.
Hypothesis Hne : f <> [].
Hypothesis Hq2 : is_quote q2 = true.
Hypothesis Hw4 : spaces w4.
Hypothesis Hw5 : spaces w5.

Lemma quoted_call_app rest :
  quoted_call w1 name w2 w3 q1 f q2 w4 w5 [] ++ rest
  = quoted_call w1 name w2 w3 q1 f q2 w4 w5 rest.
Proof.
  unfold quoted_call. repeat rewrite <- app_assoc. simpl.
  repeat (rewrite <- app_assoc; simpl). reflexivity.
Qed.

Lemma PATTERN_quoted_call (A : Type) total rest
    (k : str -> groups -> option A) r :
  k rest [(quoted_filename, f)] = Some r ->
  m true total PATTERN (quoted_call w1 name w2 w3 q1 f q2 w4 w5 rest) [] k
  = Some r.
Proof.
  intro Hk. unfold PATTERN, quoted_call, ws0, quote, unquoted0, unquoted1.
  cbn [seq].
  apply eval_Seq, eval_Str; [repeat constructor | cbv beta].
  apply eval_Seq, eval_Rep;
    [exact Hw1 | lia | now apply (lit_text_ends_run true (txt "kicad_schematic"))
    | cbv beta].
  apply eval_Seq, eval_Str; [exact Hname | cbv beta].
  apply eval_Seq, eval_Rep; [exact Hw2 | lia | reflexivity | cbv beta].
  apply eval_Seq, eval_Str; [repeat constructor | cbv beta].
  apply eval_Seq, eval_Rep;
    [exact Hw3 | lia
    | simpl; now rewrite (is_quote_not_space _ Hq1) | cbv beta].
  apply eval_Seq, eval_Alt_l.
  apply eval_Seq, eval_Any; [exact Hq1 | cbv beta].
  apply eval_Seq, eval_Grp_Rep;
    [exact Hf | now apply length_pos_nonnil | now apply is_quote_ends_run
    | cbv beta].
  apply eval_Any; [exact Hq2 | cbv beta].
  apply eval_Seq, eval_Rep; [exact Hw4 | lia | reflexivity | cbv beta].
  apply eval_Seq, eval_Opt_none; [reflexivity | cbv beta].
  apply eval_Seq, eval_Opt_none; [reflexivity | cbv beta].
  apply eval_Seq. apply eval_Rep with (x := []);
    [constructor | simpl; lia | reflexivity | cbv beta].
  apply eval_Seq. apply eval_Str with (x := txt ")");
    [repeat constructor | cbv beta].
  apply eval_Seq, eval_Rep; [exact Hw5 | lia | reflexivity | cbv beta].
  apply eval_Str; [repeat constructor | exact Hk].
Qed.

Lemma match_here_quoted_call total rest :
  match_here true total PATTERN
    (quoted_call w1 name w2 w3 q1 f q2 w4 w5 [] ++ rest)
  = Some ({| group0 := quoted_call w1 name w2 w3 q1 f q2 w4 w5 [];
             captures := [(quoted_filename, f)] |}, rest).
Proof.
  unfold match_here. rewrite quoted_call_app at 1.
  apply PATTERN_quoted_call.
  now rewrite <- quoted_call_app, firstn_consumed.
Qed.

End QuotedFacts.

(** Whenever a match of [PATTERN] carries a quoted filename, that text is
    not empty, holds no quote character and stands between two quote
    characters of the matched text. *)
Lemma PATTERN_quoted_group (x : str) (g : groups) (f : str) :
  captures_of true PATTERN x [] g ->
  group g quoted_filename = Some f ->
  f <> [] /\ count_quotes f = 0 /\
  exists before q1 q2 after,
    x = before ++ q1 :: f ++ q2 :: after /\
    is_quote q1 = true /\ is_quote q2 = true.
Proof.
  unfold PATTERN, ws0, quote, unquoted0, unquoted1. cbn [seq captures_of].
  intros (a1 & t1 & g1 & -> & [_ ->] & a2 & t2 & g2 & -> & [_ ->]
          & a3 & t3 & g3 & -> & [_ ->] & a4 & t4 & g4 & -> & [_ ->]
          & a5 & t5 & g5 & -> & [_ ->] & a6 & t6 & g6 & -> & [_ ->]
          & a7 & t7 & g7 & -> & Hfile & a8 & t8 & g8 & -> & [_ ->]
          & a9 & t9 & g9 & -> & Hstyle & a10 & t10 & g10 & -> & Hcontrols
          & a11 & t11 & g11 & -> & [_ ->] & a12 & t12 & g12 & -> & [_ ->]
          & a13 & a14 & g13 & -> & [_ ->] & [_ ->]) Hg.
  assert (H9 : group g9 quoted_filename = group g7 quoted_filename).
  { destruct Hstyle as [H | [_ ->]]; [|reflexivity].
    destruct H as (? & ? & ? & _ & [_ ->] & ? & ? & ? & _ & [_ ->]
                   & ? & ? & ? & _ & [_ ->] & ? & ? & ? & _ & [_ ->]
                   & ? & ? & ? & _ & [_ ->] & ? & ? & ? & _ & [_ ->]
                   & ? & ? & ? & _ & [_ ->] & ? & ? & ? & _
                   & (? & [_ ->] & ->) & [_ ->]).
    reflexivity. }
  assert (H10 : group g10 quoted_filename = group g9 quoted_filename).
  { destruct Hcontrols as [H | [_ ->]]; [|reflexivity].
    destruct H as (? & ? & ? & _ & [_ ->] & ? & ? & ? & _ & [_ ->]
                   & ? & ? & ? & _ & [_ ->] & ? & ? & ? & _ & [_ ->]
                   & ? & ? & ? & _ & [_ ->] & ? & ? & ? & _ & [_ ->]
                   & ? & ? & ? & _ & [_ ->] & ? & ? & ? & _
                   & (? & [_ ->] & ->) & [_ ->]).
    reflexivity. }
  rewrite H10, H9 in Hg. clear H9 H10 Hstyle Hcontrols.
  destruct Hfile as [H | (? & [_ ->] & ->)]; [|discriminate].
  destruct H as (y1 & z1 & ? & -> & [(q1 & -> & Hq1) ->]
                 & v & z2 & ? & -> & (? & [[Hv Hl] ->] & ->)
                 & [(q2 & -> & Hq2) ->]).
  simpl in Hg. injection Hg as <-.
  split; [now apply length_pos_nonnil|]. split.
  - unfold count_quotes. clear - Hv.
    induction Hv as [|d v Hd _ IH]; [reflexivity|].
    simpl in Hd. apply negb_true_iff in Hd.
    unfold is_quote in IH |- *. simpl in Hd |- *. now rewrite Hd.
  - exists (a1 ++ a2 ++ a3 ++ a4 ++ a5 ++ a6), q1, q2,
      (a8 ++ a9 ++ a10 ++ a11 ++ a12 ++ a13 ++ a14).
    split; [|split; assumption].
    repeat (rewrite <- app_assoc; simpl). reflexivity.
Qed.

(* ===================================================================== *)
(** * Empty options: the template function and Grammar A *)
(* ===================================================================== *)

Section EmptyOptionsFacts.

Variable f : str.
Hypothesis Hf : run_of (NoneOf (DQ ++ SQ)) f.
Hypothesis Hne : f <> [].

Lemma PATTERN_empty_options (A : Type) total rest
    (k : str -> groups -> option A) r :
  k rest [(controls, []); (style, []); (quoted_filename, f)] = Some r ->
  m true total PATTERN (empty_options_call f ++ rest) [] k = Some r.
Proof.
  intro Hk.
  replace (empty_options_call f ++ rest)
    with (txt "{{" ++ txt " " ++ txt "kicad_schematic" ++ [] ++ txt "(" ++ []
            ++ 34%N :: f ++ 34%N :: [] ++ txt "," ++ txt " " ++ txt "style"
            ++ [] ++ txt "=" ++ [] ++ 34%N :: [] ++ 34%N :: txt ","
            ++ txt " " ++ txt "controls" ++ [] ++ txt "=" ++ []
            ++ 34%N :: [] ++ 34%N :: [] ++ txt ")" ++ txt " " ++ txt "}}"
            ++ rest)
    by (unfold empty_options_call; repeat (rewrite <- app_assoc; simpl);
        reflexivity).
  unfold PATTERN, ws0, quote, unquoted0, unquoted1. cbn [seq].
  apply eval_Seq, eval_Str; [repeat constructor | cbv beta].
  apply eval_Seq, eval_Rep; [repeat constructor | simpl; lia | reflexivity | cbv beta].
  apply eval_Seq, eval_Str; [repeat constructor | cbv beta].
  apply eval_Seq, eval_Rep; [constructor | simpl; lia | reflexivity | cbv beta].
  apply eval_Seq, eval_Str; [repeat constructor | cbv beta].
  apply eval_Seq, eval_Rep; [constructor | simpl; lia | reflexivity | cbv beta].
  apply eval_Seq, eval_Alt_l.
  apply eval_Seq, eval_Any; [reflexivity | cbv beta].
  apply eval_Seq, eval_Grp_Rep;
    [exact Hf | now apply length_pos_nonnil | reflexivity | cbv beta].
  apply eval_Any; [reflexivity | cbv beta].
  apply eval_Seq, eval_Rep; [constructor | simpl; lia | reflexivity | cbv beta].
  apply eval_Seq, eval_Opt_some.
  apply eval_Seq, eval_Str; [repeat constructor | cbv beta].
  apply eval_Seq, eval_Rep; [repeat constructor | simpl; lia | reflexivity | cbv beta].
  apply eval_Seq, eval_Str; [repeat constructor | cbv beta].
  apply eval_Seq, eval_Rep; [constructor | simpl; lia | reflexivity | cbv beta].
  apply eval_Seq, eval_Str; [repeat constructor | cbv beta].
  apply eval_Seq, eval_Rep; [constructor | simpl; lia | reflexivity | cbv beta].
  apply eval_Seq, eval_Any; [reflexivity | cbv beta].
  apply eval_Seq, eval_Grp_Rep; [constructor | simpl; lia | reflexivity | cbv beta].
  apply eval_Any; [reflexivity | cbv beta].
  apply eval_Seq, eval_Opt_some.
  apply eval_Seq, eval_Str; [repeat constructor | cbv beta].
  apply eval_Seq, eval_Rep; [repeat constructor | simpl; lia | reflexivity | cbv beta].
  apply eval_Seq, eval_Str; [repeat constructor | cbv beta].
  apply eval_Seq, eval_Rep; [constructor | simpl; lia | reflexivity | cbv beta].
  apply eval_Seq, eval_Str; [repeat constructor | cbv beta].
  apply eval_Seq, eval_Rep; [constructor | simpl; lia | reflexivity | cbv beta].
  apply eval_Seq, eval_Any; [reflexivity | cbv beta].
  apply eval_Seq, eval_Grp_Rep; [constructor | simpl; lia | reflexivity | cbv beta].
  apply eval_Any; [reflexivity | cbv beta].
  apply eval_Seq, eval_Rep; [constructor | simpl; lia | reflexivity | cbv beta].
  apply eval_Seq, eval_Str; [repeat constructor | cbv beta].
  apply eval_Seq, eval_Rep; [repeat constructor | simpl; lia | reflexivity | cbv beta].
  apply eval_Str; [repeat constructor | exact Hk].
Qed.

Lemma match_here_empty_options total rest :
  match_here true total PATTERN (empty_options_call f ++ rest)
  = Some ({| group0 := empty_options_call f;
             captures := [(controls, []); (style, []); (quoted_filename, f)] |},
          rest).
Proof.
  unfold match_here. apply PATTERN_empty_options.
  now rewrite firstn_consumed.
Qed.

End EmptyOptionsFacts.

(* ===================================================================== *)
(** * Grammar C: markup without a filename, unterminated quotes *)
(* ===================================================================== *)

Section LiquidFacts.

Lemma count_quotes_app a b : count_quotes (a ++ b) = count_quotes a + count_quotes b.
Proof. unfold count_quotes. now rewrite filter_app, length_app. Qed.

Lemma LIQUID_FILENAME_none (markup : str) :
  spaces markup -> re_match false LIQUID_FILENAME markup = None.
Proof.
  intro Hs. unfold re_match.
  destruct (match_here false (length markup) LIQUID_FILENAME markup)
    as [[mo rest]|] eqn:E; [|reflexivity].
  exfalso. destruct (match_here_sound _ _ _ _ _ _ E) as [-> Hm].
  simpl in Hm.
  destruct Hm as (y & z & Ey & _ & w & fn & -> & _ & Hfn & Hl).
  rewrite Ey in Hs. unfold spaces, run_of in Hs.
  apply Forall_app in Hs as [Hs _]. apply Forall_app in Hs as [_ Hs].
  apply Forall_app in Hs as [_ Hs].
  destruct fn as [|d fn]; [simpl in Hl; lia|].
  inversion Hs as [|? ? Hd _]; subst. inversion Hfn as [|? ? Hd' _]; subst.
  simpl in Hd, Hd'. rewrite Hd in Hd'. discriminate.
Qed.

Lemma LIQUID_FILENAME_some (w fn rest : str) :
  spaces w -> run_of NotSpace fn -> fn <> [] -> ends_run NotSpace rest = true ->
  exists mo,
    re_match false LIQUID_FILENAME (w ++ fn ++ rest) = Some mo /\
    mgroup mo 1 = Some fn.
Proof.
  intros Hw Hfn Hne Hr.
  assert (H : forall (A : Type) (k : str -> groups -> option A) r,
             k rest [(1, fn)] = Some r ->
             m false (length (w ++ fn ++ rest)) LIQUID_FILENAME
               (w ++ fn ++ rest) [] k = Some r).
  { intros A k r Hk. unfold LIQUID_FILENAME, ws0. cbn [seq].
    apply eval_Seq, eval_Bos; [reflexivity | cbv beta].
    apply eval_Seq, eval_Rep; [exact Hw | lia | | cbv beta].
    { destruct fn as [|d fn']; [congruence|].
      inversion Hfn; subst. simpl in *. assumption. }
    apply eval_Grp_Rep;
      [exact Hfn | now apply length_pos_nonnil | exact Hr | exact Hk]. }
  unfold re_match, match_here. rewrite (H _ _ _ eq_refl).
  eexists. split; reflexivity.
Qed.

(** A text that the parameter pattern matches holds two quotes. *)
Lemma LIQUID_PARAM_quotes (key x : str) :
  matches true (LIQUID_PARAM key) x -> 2 <= count_quotes x.
Proof.
  unfold LIQUID_PARAM. simpl.
  intros (a1 & t1 & -> & _ & a2 & t2 & -> & _ & a3 & t3 & -> & _
          & a4 & t4 & -> & _ & a5 & t5 & -> & (d1 & -> & Hd1)
          & a6 & a7 & -> & _ & (d2 & -> & Hd2)).
  rewrite !count_quotes_app.
  assert (H1 : count_quotes [d1] = 1).
  { unfold count_quotes, is_quote. simpl filter. simpl in Hd1. now rewrite Hd1. }
  assert (H2 : count_quotes [d2] = 1).
  { unfold count_quotes, is_quote. simpl filter. simpl in Hd2. now rewrite Hd2. }
  lia.
Qed.

(** The value of a parameter match stands between two quotes. *)
Lemma LIQUID_PARAM_value (key x : str) (g : groups) :
  captures_of true (LIQUID_PARAM key) x [] g ->
  exists before q1 v q2,
    x = before ++ q1 :: v ++ [q2] /\
    is_quote q1 = true /\ is_quote q2 = true /\
    run_of (NoneOf (DQ ++ SQ)) v /\ group g 1 = Some v.
Proof.
  unfold LIQUID_PARAM. simpl.
  intros (a1 & t1 & g1 & -> & [_ ->] & a2 & t2 & g2 & -> & [_ ->]
          & a3 & t3 & g3 & -> & [_ ->] & a4 & t4 & g4 & -> & [_ ->]
          & a5 & t5 & g5 & -> & [(q1 & -> & Hq1) ->]
          & v & a7 & g6 & -> & (g7 & [[Hv _] ->] & ->)
          & [(q2 & -> & Hq2) ->]).
  exists (a1 ++ a2 ++ a3 ++ a4), q1, v, q2.
  split; [now repeat rewrite <- app_assoc|].
  repeat split; assumption || reflexivity.
Qed.

Lemma LIQUID_PARAM_none (key markup : str) :
  count_quotes markup <= 1 -> re_search true (LIQUID_PARAM key) markup = None.
Proof.
  intro Hc. unfold re_search.
  destruct (search_from true (length markup) (LIQUID_PARAM key) markup)
    as [mo|] eqn:E; [|reflexivity].
  destruct (search_from_sound _ _ _ _ _ E) as (pre & x & post & -> & Hx).
  apply LIQUID_PARAM_quotes in Hx. rewrite !count_quotes_app in Hc. lia.
Qed.

End LiquidFacts.


(* ===================================================================== *)
(** * Detection, injection and the generator hook *)
(* ===================================================================== *)

Section DetectionFacts.

Lemma KICAD_PATTERN_search_opener (s : str) :
  KICAD_PATTERN_search s <> None <-> has_opener s.
Proof.
  unfold KICAD_PATTERN_search, re_search. split.
  - intro H.
    destruct (search_from true (length s) KICAD_PATTERN s) as [mo|] eqn:E;
      [|congruence].
    destruct (search_from_sound _ _ _ _ _ E) as (pre & x & post & -> & Hx).
    exists pre, x, post. split; [reflexivity|].
    now apply KICAD_PATTERN_language.
  - intros (pre & t & post & -> & Ht).
    apply search_from_complete; [reflexivity|].
    now apply KICAD_PATTERN_language.
Qed.

Lemma has_opener_nonempty (s : str) : has_opener s -> s <> [].
Proof.
  intros (pre & t & post & -> & Ht) E.
  apply app_eq_nil in E as [_ E]. apply app_eq_nil in E as [E _]. subst t.
  destruct Ht as [(w1 & n & w2 & E & _) | [(w & n & E & _) | (w1 & n & w2 & E & _)]];
    discriminate.
Qed.

Lemma inject_kicanvas_script_detected (c : Content) (raw : str) :
  _content c = Some raw -> has_opener raw ->
  inject_kicanvas_script c
  = {| kicanvas_embed := Some true; status := status c;
       _kicanvas_script_injected := _kicanvas_script_injected c;
       _content := Some raw |}.
Proof.
  intros E H. unfold inject_kicanvas_script. rewrite E.
  apply KICAD_PATTERN_search_opener in H.
  destruct (KICAD_PATTERN_search raw); [reflexivity | congruence].
Qed.

End DetectionFacts.

(** The detector [inject_kicanvas_script] only ever sets the embed flag:
    status, body and the guard's flag stay as they are. After the call
    the embed flag is set exactly when it was set before or the body
    holds an opening token of one of the three grammars; a document with
    no body, or with a body without an opener, is returned as it is. *)
Theorem detector_flags_documents (c : Content) :
  let c' := inject_kicanvas_script c in
  status c' = status c /\ _content c' = _content c /\
  _kicanvas_script_injected c' = _kicanvas_script_injected c /\
  (kicanvas_embed c' = Some true <->
     kicanvas_embed c = Some true \/
     exists raw, _content c = Some raw /\ has_opener raw) /\
  ((forall raw, _content c = Some raw -> ~ has_opener raw) -> c' = c).
Proof.
  cbv zeta. unfold inject_kicanvas_script.
  destruct (_content c) as [raw|] eqn:Ec.
  - destruct (KICAD_PATTERN_search raw) as [mo|] eqn:E.
    + assert (Ho : has_opener raw)
        by (apply KICAD_PATTERN_search_opener; congruence).
      cbn [status _content _kicanvas_script_injected kicanvas_embed].
      split; [reflexivity|]. split; [reflexivity|].
      split; [reflexivity|]. split.
      * split; [intros _; right; now exists raw | reflexivity].
      * intro H. now destruct (H raw eq_refl).
    + split; [reflexivity|]. split; [exact Ec|].
      split; [reflexivity|]. split; [|reflexivity]. split.
      * intro H. now left.
      * intros [H | (raw' & Er & Ho)]; [exact H|].
        injection Er as <-. apply KICAD_PATTERN_search_opener in Ho.
        congruence.
  - split; [reflexivity|]. split; [exact Ec|].
    split; [reflexivity|]. split; [|reflexivity]. split.
    + intro H. now left.
    + intros [H | (raw' & Er & _)]; [exact H | discriminate].
Qed.

Lemma detector_flags_documents_witness :
  let c := {| kicanvas_embed := None; status := txt "published";
              _kicanvas_script_injected := None;
              _content := Some (txt "Just normal text.") |} in
  inject_kicanvas_script c = c.
Proof.
  cbv zeta.
  refine (proj2 (proj2 (proj2 (proj2 (detector_flags_documents _)))) _).
  intros raw E Ho. injection E as <-.
  apply KICAD_PATTERN_search_opener in Ho. apply Ho.
  vm_compute. reflexivity.
Defined.

(** The detector followed by the guard, on a published document on which
    the guard has not run and whose body holds an opening token: the
    guard's flag is set, and the body is left as it is when it already
    holds the loader URL, and otherwise gets the loader tag (with or
    without a newline in front) between two of its parts, which makes
    one occurrence of the loader URL. *)
Theorem detected_document_gets_loader
    (st : option Settings) (c : Content) (html : str) :
  _content c = Some html -> has_opener html ->
  status c = txt "published" -> _kicanvas_script_injected c = None ->
  let c' := inject_kicanvas_script_into_html st (inject_kicanvas_script c) in
  _kicanvas_script_injected c' = Some true /\
  exists out,
    _content c' = Some out /\
    (contains (kicanvas_url st) html = true -> out = html) /\
    (contains (kicanvas_url st) html = false ->
     occurrences (kicanvas_url st) out = 1 /\
     contains (script_tag st) out = true /\
     exists a b,
       html = a ++ b /\
       (out = a ++ script_tag st ++ b \/ out = a ++ NL ++ script_tag st ++ b)).
Proof.
  intros Ec Ho Hs Hi. cbv zeta.
  rewrite (inject_kicanvas_script_detected c html Ec Ho).
  rewrite inject_fresh by (try reflexivity; assumption).
  cbn [_content]. pose proof (has_opener_nonempty _ Ho) as Hne.
  destruct html as [|ch html]; [congruence|].
  destruct (contains (kicanvas_url st) (ch :: html)) eqn:Eu.
  - split; [reflexivity|]. exists (ch :: html).
    split; [reflexivity|]. split; [reflexivity | discriminate].
  - split; [reflexivity|]. exists (insert_script st (ch :: html)).
    split; [reflexivity|]. split; [discriminate|]. intros _.
    split; [|split].
    + apply insert_script_occurrences. now apply contains_occurrences.
    + apply insert_script_contains.
    + destruct (insert_script_shape st (ch :: html))
        as (a & b & ins & E1 & E2 & Hins).
      exists a, b. split; [exact E1|]. rewrite E2.
      destruct Hins as [-> | ->]; [now left | right].
      now rewrite <- app_assoc.
Qed.

Lemma detected_document_gets_loader_witness :
  let html := txt "<p>{% kicad_schematic amp.kicad_sch %}</p>" in
  let c := {| kicanvas_embed := None; status := txt "published";
              _kicanvas_script_injected := None; _content := Some html |} in
  exists out,
    _content (inject_kicanvas_script_into_html None (inject_kicanvas_script c))
    = Some out /\
    occurrences (kicanvas_url None) out = 1.
Proof.
  cbv zeta.
  destruct (detected_document_gets_loader None
              {| kicanvas_embed := None; status := txt "published";
                 _kicanvas_script_injected := None;
                 _content := Some (txt "<p>{% kicad_schematic amp.kicad_sch %}</p>") |}
              (txt "<p>{% kicad_schematic amp.kicad_sch %}</p>"))
    as (_ & out & E & _ & H); try reflexivity.
  - exists (txt "<p>"), (txt "{% kicad_schematic "), (txt "amp.kicad_sch %}</p>").
    split; [reflexivity|]. right; right.
    exists (txt " "), (txt "kicad_schematic"), (txt " ").
    split; [reflexivity|]. repeat split; try discriminate; repeat constructor.
  - exists out. split; [exact E|]. apply H. vm_compute. reflexivity.
Defined.

Section HookFacts.

Variable st : option Settings.

Lemma length_store_set (c : Content) : forall h ref,
  length (store_set h ref c) = length h.
Proof.
  induction h as [|x h IH]; intros [|n]; simpl; try reflexivity.
  now rewrite IH.
Qed.

Lemma nth_error_store_set (c : Content) : forall h ref ref',
  nth_error (store_set h ref c) ref'
  = if Nat.eqb ref' ref
    then option_map (fun _ => c) (nth_error h ref')
    else nth_error h ref'.
Proof.
  induction h as [|x h IH]; intros [|n] [|n']; simpl; try reflexivity.
  - now destruct (Nat.eqb n' n).
  - apply IH.
Qed.

Lemma length_inject_at (h : Store) (ref : nat) :
  length (inject_at st h ref) = length h.
Proof.
  unfold inject_at. destruct (nth_error h ref); [|reflexivity].
  apply length_store_set.
Qed.

Lemma nth_error_inject_at (h : Store) (ref ref' : nat) :
  nth_error (inject_at st h ref) ref'
  = if Nat.eqb ref' ref
    then option_map (inject_kicanvas_script_into_html st) (nth_error h ref')
    else nth_error h ref'.
Proof.
  unfold inject_at. destruct (nth_error h ref) as [c|] eqn:E.
  - rewrite nth_error_store_set.
    destruct (Nat.eqb_spec ref' ref) as [-> |]; [|reflexivity].
    now rewrite E.
  - destruct (Nat.eqb_spec ref' ref) as [-> |]; [|reflexivity].
    now rewrite E.
Qed.

(** Guard calls along a list of references: an object that the list
    names, however often, ends as after one call. *)
Lemma nth_error_fold_inject_at (ref' : nat) : forall l h,
  nth_error (fold_left (inject_at st) l h) ref'
  = if existsb (Nat.eqb ref') l
    then option_map (inject_kicanvas_script_into_html st) (nth_error h ref')
    else nth_error h ref'.
Proof.
  induction l as [|a l IH]; intro h; [reflexivity|].
  simpl fold_left. rewrite IH, nth_error_inject_at. simpl existsb.
  destruct (Nat.eqb ref' a), (existsb (Nat.eqb ref') l); try reflexivity.
  destruct (nth_error h ref') as [c|]; [|reflexivity].
  simpl. now rewrite inject_idempotent.
Qed.

Lemma length_fold_inject_at : forall l h,
  length (fold_left (inject_at st) l h) = length h.
Proof.
  induction l as [|a l IH]; intro h; [reflexivity|].
  simpl. now rewrite IH, length_inject_at.
Qed.

Lemma inject_unpublished (c : Content) :
  status c <> txt "published" -> inject_kicanvas_script_into_html st c = c.
Proof.
  intro H. unfold inject_kicanvas_script_into_html.
  destruct (negb (get (kicanvas_embed c) false)); [reflexivity|].
  destruct (str_eqb (status c) (txt "published")) eqn:E; [|reflexivity].
  apply str_eqb_eq in E. contradiction.
Qed.

End HookFacts.

(** The hook [inject_scripts_before_write] keeps the store's size, and
    leaves every object in the state of one guard call if one of the two
    lists names it, however often and in whichever list, and untouched
    otherwise. An object whose status is not "published", as a draft's,
    is never changed. *)
Theorem hook_runs_guard_once_per_object
    (st : option Settings) (g : ArticlesGenerator) (h : Store) :
  let h' := inject_scripts_before_write st g h in
  length h' = length h /\
  (forall ref,
     nth_error h' ref
     = option_map
         (fun c => if listed g ref
                   then inject_kicanvas_script_into_html st c else c)
         (nth_error h ref)) /\
  (forall ref c,
     nth_error h ref = Some c -> status c <> txt "published" ->
     nth_error h' ref = Some c).
Proof.
  cbv zeta. unfold inject_scripts_before_write.
  assert (H : forall ref,
             nth_error
               (fold_left (inject_at st) (drafts g)
                  (fold_left (inject_at st) (articles g) h)) ref
             = option_map
                 (fun c => if listed g ref
                           then inject_kicanvas_script_into_html st c else c)
                 (nth_error h ref)).
  { intro ref. rewrite !nth_error_fold_inject_at. unfold listed.
    rewrite existsb_app.
    destruct (existsb (Nat.eqb ref) (drafts g)),
             (existsb (Nat.eqb ref) (articles g)),
             (nth_error h ref) as [c|]; simpl; try reflexivity.
    now rewrite inject_idempotent. }
  split; [now rewrite !length_fold_inject_at|]. split; [exact H|].
  intros ref c E Hs. rewrite H, E. simpl.
  destruct (listed g ref); [|reflexivity].
  now rewrite inject_unpublished.
Qed.

Lemma hook_runs_guard_once_per_object_witness :
  let draft := {| kicanvas_embed := Some true; status := txt "draft";
                  _kicanvas_script_injected := None;
                  _content := Some (txt "<p>x</p>") |} in
  let g := {| articles := [0; 0]; drafts := [1; 0] |} in
  let h := [fresh_document (Some (txt "<p>x</p>")); draft] in
  nth_error (inject_scripts_before_write None g h) 1 = Some draft /\
  nth_error (inject_scripts_before_write None g h) 0
  = Some (inject_kicanvas_script_into_html None
            (fresh_document (Some (txt "<p>x</p>")))).
Proof.
  cbv zeta. split.
  - apply (proj2 (proj2 (hook_runs_guard_once_per_object None
                           {| articles := [0; 0]; drafts := [1; 0] |} _)) 1);
      [reflexivity | vm_compute; discriminate].
  - exact (proj1 (proj2 (hook_runs_guard_once_per_object None
                           {| articles := [0; 0]; drafts := [1; 0] |} _)) 0).
Defined.

(* ===================================================================== *)
(** * The injection guard: a body tag that is not closed *)
(* ===================================================================== *)

Section UnclosedBodyFacts.

Lemma find_aux_absent (x : char) : forall s i,
  mem x s = false -> find_aux [x] s i = (-1)%Z.
Proof.
  induction s as [|d s IH]; intros i H; [reflexivity|].
  simpl in H. apply orb_false_iff in H as [Hd Hs].
  simpl. rewrite Hd. simpl. now apply IH.
Qed.

Lemma mem_app (x : char) (a b : str) : mem x (a ++ b) = mem x a || mem x b.
Proof.
  induction a as [|d a IH]; [reflexivity|].
  simpl. now rewrite IH, orb_assoc.
Qed.

Lemma find_absent (x : char) (a b : str) :
  mem x b = false ->
  find (a ++ b) [x] (Z.of_nat (length a)) = (-1)%Z.
Proof.
  intro H. unfold find.
  replace (Z.of_nat (length a) <? 0)%Z with false
    by (symmetry; apply Z.ltb_ge; lia).
  replace (Z.of_nat (length (a ++ b)) <? Z.of_nat (length a))%Z
    with false by (symmetry; apply Z.ltb_ge; rewrite length_app; lia).
  rewrite Nat2Z.id, skipn_app, Nat.sub_diag, skipn_all. simpl app.
  now apply find_aux_absent.
Qed.

End UnclosedBodyFacts.

(** When the body has no [</head>], and nothing closes its first [<body]
    (no [>] behind it), [find] returns -1 and the guard puts a newline
    and the loader tag in front of the whole body. *)
Theorem unclosed_body_tag_gets_loader_in_front
    (st : option Settings) (a b : str) :
  let html := a ++ txt "<body" ++ b in
  first_occurrence (txt "<body") a b ->
  mem 62%N b = false ->
  contains (txt "</head>") html = false ->
  contains (kicanvas_url st) html = false ->
  _content (inject_kicanvas_script_into_html st (fresh_document (Some html)))
  = Some (NL ++ script_tag st ++ html).
Proof.
  intros html Hf Hb Hh Hu.
  rewrite inject_fresh by reflexivity. cbn [_content fresh_document].
  assert (Hc : contains (txt "<body") html = true) by apply contains_app.
  destruct html as [|ch rest] eqn:E.
  { destruct a; discriminate. }
  rewrite Hu. cbn [_content set_content]. f_equal.
  unfold insert_script. rewrite Hh, Hc. rewrite <- E. unfold html.
  replace (find (a ++ txt "<body" ++ b) (txt "<body") 0)
    with (Z.of_nat (length a))
    by (symmetry; exact (find_from (txt "<body") [] a b Hf)).
  replace (find (a ++ txt "<body" ++ b) (txt ">") (Z.of_nat (length a)))
    with (-1)%Z
    by (symmetry; apply (find_absent 62%N); rewrite mem_app; now rewrite Hb).
  unfold slice_to, slice_from, clamp. change (-1 + 1)%Z with 0%Z.
  change (0 <? 0)%Z with false. cbv iota.
  replace (Z.to_nat (Z.min 0 (Z.of_nat (length (a ++ txt "<body" ++ b)))))
    with 0 by lia.
  reflexivity.
Qed.

Lemma unclosed_body_tag_gets_loader_in_front_witness :
  _content (inject_kicanvas_script_into_html None
              (fresh_document (Some (txt "text <body class=" ++ DQ ++ txt "x"))))
  = Some (NL ++ script_tag None ++ txt "text <body class=" ++ DQ ++ txt "x").
Proof.
  apply (unclosed_body_tag_gets_loader_in_front None (txt "text ")
           (txt " class=" ++ DQ ++ txt "x")).
  - apply no_start_inside_sound. reflexivity.
  - reflexivity.
  - reflexivity.
  - reflexivity.
Defined.

(* ===================================================================== *)
(** * The path resolver: what the result depends on *)
(* ===================================================================== *)

Section ResolverFacts.

Variable st : option Settings.
Variable exists_ : Path -> bool.

Lemma strategy_schematics_path_forms (filename : str) :
  strategy_schematics_path st exists_ filename = filename \/
  strategy_schematics_path st exists_ filename
  = txt "/" ++ get (KICAD_SCHEMATICS_PATH (settings st)) []
      ++ txt "/" ++ filename.
Proof.
  unfold strategy_schematics_path.
  destruct (truthy _); [|now left].
  destruct (exists_ (Div (Div _ _) _)); [now right | now left].
Qed.

(** With a document URL, a file next to the document source is already
    answered by the first strategy, so the second one finds nothing. *)
Lemma strategy_content_relative_shadowed
    (rel : Path -> Path -> option str) (filename : str)
    (content_source_path article_url : option str) :
  truthy article_url = true ->
  strategy_article_url st exists_ filename content_source_path article_url
  = None ->
  strategy_content_relative st exists_ rel filename content_source_path = None.
Proof.
  intros Hu H. unfold strategy_article_url in H.
  unfold strategy_content_relative. rewrite Hu in H. simpl andb in H.
  destruct (truthy content_source_path); [|reflexivity].
  destruct (exists_ (Div (Div _ _) _)); [discriminate|].
  destruct (exists_ (Div (Parent _) _)); [discriminate | reflexivity].
Qed.

Lemma rstrip_slash_slashes (k : nat) : rstrip_slash (repeat 47%N k) = [].
Proof. induction k as [|k IH]; [reflexivity|]. simpl. now rewrite IH. Qed.

Lemma rstrip_slash_app (s : str) (k : nat) :
  rstrip_slash (s ++ repeat 47%N k) = rstrip_slash s.
Proof.
  induction s as [|c s IH]; [apply rstrip_slash_slashes|].
  simpl. now rewrite IH.
Qed.

(** [rstrip_slash] removes the slashes at the end, all of them and
    nothing else. *)
Lemma rstrip_slash_spec (s : str) :
  exists k, s = rstrip_slash s ++ repeat 47%N k /\
            last (rstrip_slash s) 0%N <> 47%N.
Proof.
  induction s as [|c s (k & E & Hl)].
  - exists 0. split; [reflexivity | discriminate].
  - simpl. destruct (rstrip_slash s) as [|d r].
    + simpl in E. destruct (N.eqb_spec c 47) as [-> | Hc].
      * exists (S k). unfold char_eqb. rewrite N.eqb_refl.
        split; [simpl; now rewrite <- E | discriminate].
      * exists k. unfold char_eqb.
        replace (c =? 47)%N with false by (symmetry; now apply N.eqb_neq).
        split; [simpl; now rewrite <- E | exact Hc].
    + exists k. split; [now rewrite E at 1 | exact Hl].
Qed.

Lemma mem_slashes (s : str) : mem 92%N (slashes s) = false.
Proof.
  induction s as [|c s IH]; [reflexivity|].
  unfold slashes in *. cbn [map mem]. rewrite IH, orb_false_r.
  unfold char_eqb. destruct (N.eqb_spec c 92) as [-> | Hc]; [reflexivity|].
  now apply N.eqb_neq, not_eq_sym.
Qed.

Lemma slashes_without_backslash (s : str) : mem 92%N s = false -> slashes s = s.
Proof.
  induction s as [|c s IH]; intro H; [reflexivity|].
  cbn [mem] in H. apply orb_false_iff in H as [Hc Hs].
  unfold slashes in *. cbn [map]. rewrite (IH Hs). unfold char_eqb in *.
  rewrite N.eqb_sym in Hc. now rewrite Hc.
Qed.

End ResolverFacts.

(** Without a document source path (absent, [None] or empty) the document
    URL, the file next to the source and the content root play no role:
    the result is the same for every document URL and whatever
    [relative_to] would answer. With no schematics path configured
    either, the filename is returned as it is, whatever the file system
    holds. *)
Theorem source_path_needed_for_url_strategies
    (st : option Settings) (exists_ : Path -> bool) (filename : str)
    (content_source_path : option str) :
  truthy content_source_path = false ->
  (forall (url1 url2 : option str) (rel1 rel2 : Path -> Path -> option str),
     resolve_schematic_path st exists_ rel1 filename content_source_path url1
     = resolve_schematic_path st exists_ rel2 filename content_source_path url2) /\
  (truthy (KICAD_SCHEMATICS_PATH (settings st)) = false ->
   forall (url_ : option str) (rel : Path -> Path -> option str),
     resolve_schematic_path st exists_ rel filename content_source_path url_
     = filename).
Proof.
  intro Hs.
  assert (H : forall url_ rel,
             resolve_schematic_path st exists_ rel filename
               content_source_path url_
             = if is_absolute_url filename then filename
               else strategy_schematics_path st exists_ filename).
  { intros url_ rel.
    unfold resolve_schematic_path, strategy_article_url,
      strategy_content_relative.
    rewrite Hs, andb_false_r. reflexivity. }
  split.
  - intros. now rewrite !H.
  - intros Hk url_ rel. rewrite H. unfold strategy_schematics_path.
    rewrite Hk. now destruct (is_absolute_url filename).
Qed.

Lemma source_path_needed_for_url_strategies_witness :
  resolve_schematic_path None (fun _ => true) (fun _ _ => Some (txt "x"))
    (txt "amp.kicad_sch") None (Some (txt "blog/amp/"))
  = txt "amp.kicad_sch".
Proof.
  apply (proj2 (source_path_needed_for_url_strategies None (fun _ => true)
                  (txt "amp.kicad_sch") None eq_refl)).
  reflexivity.
Defined.

(** With a non-empty document URL the content-root-relative strategy is
    never the one that answers: the result does not depend on what
    [relative_to] returns, and it is the filename itself, the filename
    under the document URL or the filename under the configured
    schematics path. *)
Theorem article_url_rules_out_content_root
    (st : option Settings) (exists_ : Path -> bool) (filename : str)
    (content_source_path article_url : option str) :
  truthy article_url = true ->
  (forall rel1 rel2 : Path -> Path -> option str,
     resolve_schematic_path st exists_ rel1 filename content_source_path
       article_url
     = resolve_schematic_path st exists_ rel2 filename content_source_path
         article_url) /\
  (forall rel : Path -> Path -> option str,
     let result :=
       resolve_schematic_path st exists_ rel filename content_source_path
         article_url in
     result = filename \/
     result = txt "/" ++ rstrip_slash (get article_url []) ++ txt "/" ++ filename \/
     result = txt "/" ++ get (KICAD_SCHEMATICS_PATH (settings st)) []
                ++ txt "/" ++ filename).
Proof.
  intro Hu.
  assert (H : forall rel,
             resolve_schematic_path st exists_ rel filename
               content_source_path article_url
             = if is_absolute_url filename then filename
               else match strategy_article_url st exists_ filename
                            content_source_path article_url with
                    | Some u => u
                    | None => strategy_schematics_path st exists_ filename
                    end).
  { intro rel. unfold resolve_schematic_path.
    destruct (is_absolute_url filename); [reflexivity|].
    destruct (strategy_article_url st exists_ filename content_source_path
                article_url) eqn:E; [reflexivity|].
    now rewrite (strategy_content_relative_shadowed st exists_ rel _ _ _ Hu E). }
  split.
  - intros. now rewrite !H.
  - intro rel. cbv zeta. rewrite H.
    destruct (is_absolute_url filename); [now left|].
    unfold strategy_article_url.
    destruct (truthy article_url && truthy content_source_path).
    + destruct (exists_ (Div (Div _ _) _)); [now right; left|].
      destruct (exists_ (Div (Parent _) _)); [now right; left|].
      destruct (strategy_schematics_path_forms st exists_ filename) as [-> | ->];
        [now left | now right; right].
    + destruct (strategy_schematics_path_forms st exists_ filename) as [-> | ->];
        [now left | now right; right].
Qed.

Lemma article_url_rules_out_content_root_witness :
  resolve_schematic_path None
    (files [Div (Parent (PathOf (txt "content/blog/amp.md"))) (txt "amp.kicad_sch")])
    (fun _ _ => Some (txt "blog/amp.kicad_sch"))
    (txt "amp.kicad_sch") (Some (txt "content/blog/amp.md"))
    (Some (txt "posts/amp/"))
  = resolve_schematic_path None
      (files [Div (Parent (PathOf (txt "content/blog/amp.md"))) (txt "amp.kicad_sch")])
      (fun _ _ => None)
      (txt "amp.kicad_sch") (Some (txt "content/blog/amp.md"))
      (Some (txt "posts/amp/")).
Proof.
  apply (proj1 (article_url_rules_out_content_root None _ (txt "amp.kicad_sch")
                  (Some (txt "content/blog/amp.md")) (Some (txt "posts/amp/"))
                  eq_refl)).
Defined.

(** When the content-root-relative strategy answers (no document URL, a
    file next to the document source that resolves under the content
    root), the result is [/] followed by the relative path in which every
    backslash has become a slash: it holds no backslash, and it is [/]
    and the relative path itself when that has none. *)
Theorem content_relative_url_has_forward_slashes
    (st : option Settings) (exists_ : Path -> bool)
    (rel : Path -> Path -> option str)
    (filename source rel_path : str) (article_url : option str) :
  is_absolute_url filename = false ->
  truthy article_url = false ->
  source <> [] ->
  exists_ (Div (Parent (PathOf source)) filename) = true ->
  rel (Div (Parent (PathOf source)) filename) (PathOf (content_path st))
  = Some rel_path ->
  let result :=
    resolve_schematic_path st exists_ rel filename (Some source) article_url in
  result = txt "/" ++ slashes rel_path /\
  mem 92%N result = false /\
  length result = S (length rel_path) /\
  (mem 92%N rel_path = false -> result = txt "/" ++ rel_path).
Proof.
  intros Ha Hu Hs He Hr. cbv zeta.
  assert (E : resolve_schematic_path st exists_ rel filename (Some source)
                article_url
              = txt "/" ++ slashes rel_path).
  { unfold resolve_schematic_path, strategy_article_url,
      strategy_content_relative.
    rewrite Ha, Hu. destruct source as [|c source]; [congruence|].
    cbn [andb truthy get]. now rewrite He, Hr. }
  rewrite E. split; [reflexivity|]. split; [|split].
  - cbn [txt list_ascii_of_string map app mem]. now rewrite mem_slashes.
  - unfold slashes. simpl. now rewrite length_map.
  - intro H. now rewrite slashes_without_backslash.
Qed.

Lemma content_relative_url_has_forward_slashes_witness :
  resolve_schematic_path None
    (files [Div (Parent (PathOf (txt "content/blog/amp.md"))) (txt "amp.kicad_sch")])
    (fun _ _ => Some (txt "blog" ++ [92%N] ++ txt "amp.kicad_sch"))
    (txt "amp.kicad_sch") (Some (txt "content/blog/amp.md")) None
  = txt "/blog/amp.kicad_sch".
Proof.
  apply (proj1 (content_relative_url_has_forward_slashes None
                  (files [Div (Parent (PathOf (txt "content/blog/amp.md")))
                            (txt "amp.kicad_sch")])
                  (fun _ _ => Some (txt "blog" ++ [92%N] ++ txt "amp.kicad_sch"))
                  (txt "amp.kicad_sch") (txt "content/blog/amp.md")
                  (txt "blog" ++ [92%N] ++ txt "amp.kicad_sch") None
                  eq_refl eq_refl ltac:(discriminate) eq_refl eq_refl)).
Defined.

(** Slashes at the end of the document URL do not matter: a non-empty
    document URL and the same URL followed by any number of slashes
    resolve alike. The URL part of the result is the document URL
    without the slashes at its end, all of them and nothing else. *)
Theorem trailing_slashes_of_article_url_ignored
    (st : option Settings) (exists_ : Path -> bool)
    (rel : Path -> Path -> option str)
    (filename article_url : str) (content_source_path : option str) (k : nat) :
  article_url <> [] ->
  resolve_schematic_path st exists_ rel filename content_source_path
    (Some (article_url ++ repeat 47%N k))
  = resolve_schematic_path st exists_ rel filename content_source_path
      (Some article_url) /\
  exists j,
    article_url = rstrip_slash article_url ++ repeat 47%N j /\
    last (rstrip_slash article_url) 0%N <> 47%N.
Proof.
  intro Hne. split; [|apply rstrip_slash_spec].
  unfold resolve_schematic_path, strategy_article_url.
  destruct article_url as [|c u]; [congruence|].
  cbn [app truthy get]. change (c :: u ++ repeat 47%N k)
    with ((c :: u) ++ repeat 47%N k).
  now rewrite rstrip_slash_app.
Qed.

Lemma trailing_slashes_of_article_url_ignored_witness :
  resolve_schematic_path None
    (files [Div (Div (PathOf (txt "output")) (txt "blog/amp"))
              (txt "amp.kicad_sch")])
    (fun _ _ => None) (txt "amp.kicad_sch") (Some (txt "content/amp.md"))
    (Some (txt "blog/amp//"))
  = txt "/blog/amp/amp.kicad_sch".
Proof.
  refine (eq_trans
            (proj1 (trailing_slashes_of_article_url_ignored None
                      (files [Div (Div (PathOf (txt "output")) (txt "blog/amp"))
                                (txt "amp.kicad_sch")])
                      (fun _ _ => None) (txt "amp.kicad_sch") (txt "blog/amp")
                      (Some (txt "content/amp.md")) 2 _)) _).
  - discriminate.
  - reflexivity.
Defined.

(* ===================================================================== *)
(** * The template function: where the paths come from *)
(* ===================================================================== *)

(** The source path and document URL that the rendering patch puts into
    the context are used whenever they are non-empty, whatever article
    or page the context also holds. An article in the context hides the
    page; and a page without a [source_path] attribute is not consulted
    at all, not even for its URL. *)
Theorem context_path_priority
    (st : option Settings) (exists_ : Path -> bool)
    (rel : Path -> Path -> option str)
    (context : Context) (filename style_ controls_ : str) :
  (truthy (__source_path__ context) = true ->
   truthy (__article_url__ context) = true ->
   context_paths context = (__source_path__ context, __article_url__ context) /\
   kicad_schematic st exists_ rel context filename style_ controls_
   = kicad_schematic st exists_ rel
       {| __source_path__ := __source_path__ context;
          __article_url__ := __article_url__ context;
          article := None; page := None |}
       filename style_ controls_) /\
  (article context <> None ->
   kicad_schematic st exists_ rel context filename style_ controls_
   = kicad_schematic st exists_ rel
       {| __source_path__ := __source_path__ context;
          __article_url__ := __article_url__ context;
          article := article context; page := None |}
       filename style_ controls_) /\
  (forall pg,
     article context = None -> page context = Some pg ->
     source_path pg = None ->
     context_paths context
     = (__source_path__ context, __article_url__ context)).
Proof.
  split; [|split].
  - intros Hs Hu.
    assert (E : context_paths context
                = (__source_path__ context, __article_url__ context)).
    { unfold context_paths. rewrite Hs, Hu.
      destruct (article context) as [a|]; [now rewrite !andb_false_r|].
      destruct (page context) as [pg|]; [|reflexivity].
      destruct (is_some (source_path pg)); [|reflexivity].
      now rewrite andb_false_r. }
    split; [exact E|]. unfold kicad_schematic. now rewrite E.
  - intro Ha. unfold kicad_schematic, context_paths. cbn [article page
      __source_path__ __article_url__].
    destruct (article context); [reflexivity | congruence].
  - intros pg Ha Hp Hs. unfold context_paths. now rewrite Ha, Hp, Hs.
Qed.

Lemma context_path_priority_witness :
  context_paths
    {| __source_path__ := Some (txt "content/a.md");
       __article_url__ := Some (txt "blog/a/");
       article := Some {| source_path := Some (txt "content/b.md");
                          url := Some (txt "blog/b/") |};
       page := None |}
  = (Some (txt "content/a.md"), Some (txt "blog/a/")).
Proof.
  apply (proj1 (context_path_priority None (fun _ => false) (fun _ _ => None)
                  {| __source_path__ := Some (txt "content/a.md");
                     __article_url__ := Some (txt "blog/a/");
                     article := Some {| source_path := Some (txt "content/b.md");
                                        url := Some (txt "blog/b/") |};
                     page := None |} [] [] [])); reflexivity.
Defined.

(* ===================================================================== *)
(** * Grammar A: substitution in a line *)
(* ===================================================================== *)

Section SubstitutionFacts.

Variable ic : bool.
Variable r : re.
Variable repl : Match -> str.

(** A changed text holds a match. *)
Lemma sub_from_changed total : forall s,
  sub_from ic total r repl s 0 = s \/
  exists pre t mo rest, s = pre ++ t /\ match_here ic total r t = Some (mo, rest).
Proof.
  induction s as [|c s IH].
  - simpl. destruct (match_here ic total r []) as [[mo rest]|] eqn:E.
    + right. now exists [], [], mo, rest.
    + now left.
  - simpl. destruct (match_here ic total r (c :: s)) as [[mo rest]|] eqn:E.
    + right. now exists [], (c :: s), mo, rest.
    + destruct IH as [-> | (pre & t & mo & rest & -> & Hm)]; [now left|].
      right. now exists (c :: pre), t, mo, rest.
Qed.

(** The text in front of the first match stays as it is. *)
Lemma sub_from_prefix total (s : str) : forall pre,
  (forall p1 t, pre = p1 ++ t -> t <> [] ->
                match_here ic total r (t ++ s) = None) ->
  sub_from ic total r repl (pre ++ s) 0
  = pre ++ sub_from ic total r repl s 0.
Proof.
  induction pre as [|c pre IH]; intro H; [reflexivity|].
  simpl app. simpl sub_from.
  pose proof (H [] (c :: pre) eq_refl) as H0. simpl app in H0.
  rewrite H0 by discriminate. f_equal. apply IH.
  intros p1 t -> Ht. now apply (H (c :: p1) t).
Qed.

Hypothesis Hbos : no_bos r = true.
Hypothesis Hempty : ~ matches ic r [].

(** The length of the whole subject only matters to [^]. *)
Lemma sub_from_total t1 t2 (s : str) :
  sub_from ic t1 r repl s 0 = sub_from ic t2 r repl s 0.
Proof.
  pose proof (sub_from_append ic r Hbos Hempty t1 t2 repl [] s 0) as H.
  rewrite !app_nil_r in H. apply H; [|lia].
  intros. simpl. lia.
Qed.

Lemma match_here_total t1 t2 (s : str) :
  match_here ic t1 r s = match_here ic t2 r s.
Proof.
  pose proof (match_here_append ic r Hbos t1 t2 s []) as H.
  rewrite app_nil_r in H. rewrite H by (intros; simpl; lia).
  destruct (match_here ic t2 r s) as [[mo rest]|]; [|reflexivity].
  unfold with_rest. simpl. now rewrite app_nil_r.
Qed.

End SubstitutionFacts.

Section OpeningFacts.

Lemma PATTERN_opening (x : str) :
  matches true PATTERN x ->
  exists t rest, x = t ++ rest /\ opener_markdown t.
Proof.
  intro H. unfold PATTERN in H. simpl in H.
  destruct H as (a1 & t1 & -> & H1 & a2 & t2 & -> & [H2 _] & a3 & t3 & -> & H3
                 & a4 & t4 & -> & [H4 _] & a5 & t5 & -> & H5 & _).
  apply (lit_text_exact true (txt "{{") eq_refl) in H1.
  apply (lit_text_exact true (txt "(") eq_refl) in H5. subst a1 a5.
  exists (txt "{{" ++ a2 ++ a3 ++ a4 ++ txt "("), t5.
  split; [now repeat rewrite <- app_assoc|].
  now exists a2, a3, a4.
Qed.

Lemma match_here_PATTERN_braces total (u : str) mo rest :
  match_here true total PATTERN u = Some (mo, rest) ->
  startswith u (txt "{{") = true.
Proof.
  intro H. destruct (match_here_sound _ _ _ _ _ _ H) as [-> Hm].
  destruct (PATTERN_opening _ Hm) as (t & r' & -> & w1 & n & w2 & -> & _).
  reflexivity.
Qed.

Lemma contains_tail (p : str) (c : char) (s : str) :
  contains p (c :: s) = false -> contains p s = false.
Proof.
  simpl. intro H. apply orb_false_iff in H as [_ H]. exact H.
Qed.

Lemma contains_head (p s : str) :
  contains p s = false -> startswith s p = false.
Proof.
  destruct s; simpl; intro H; apply orb_false_iff in H as [H _]; exact H.
Qed.

Lemma startswith_two (a b : char) (t z : str) :
  t <> [] ->
  startswith (t ++ 123%N :: z) [a; b] = startswith (t ++ [123%N]) [a; b].
Proof. destruct t as [|c [|d t]]; [congruence | reflexivity | reflexivity]. Qed.

(** In front of an opening brace, no call begins inside [pre]. *)
Lemma no_braces_open_no_match total (pre z : str) :
  no_braces_open pre = true ->
  forall p1 t, pre = p1 ++ t -> t <> [] ->
    match_here true total PATTERN (t ++ 123%N :: z) = None.
Proof.
  unfold no_braces_open. intro H. apply negb_true_iff in H.
  intros p1 t -> Ht.
  assert (Hc : contains (txt "{{") (t ++ txt "{") = false).
  { clear Ht. induction p1 as [|c p1 IH]; [exact H|].
    apply IH. simpl app in H. now apply contains_tail in H. }
  destruct (match_here true total PATTERN (t ++ 123%N :: z))
    as [[mo rest]|] eqn:E; [|reflexivity].
  apply match_here_PATTERN_braces in E.
  apply contains_head in Hc.
  change (txt "{{") with [123%N; 123%N] in E, Hc.
  rewrite (startswith_two _ _ _ _ Ht) in E.
  change (txt "{") with [123%N] in Hc. unfold str, char in *.
  rewrite E in Hc. discriminate.
Qed.

End OpeningFacts.

(** Whatever the Markdown preprocessor replaces, the detector sees: a
    line that holds a complete Grammar-A call, and so every line that
    [run] changes, has a match of [KICAD_PATTERN]. *)
Theorem changed_line_is_detected :
  (forall line, holds_call line -> KICAD_PATTERN_search line <> None) /\
  (forall line, run [line] <> [line] -> KICAD_PATTERN_search line <> None).
Proof.
  assert (H : forall line, holds_call line -> KICAD_PATTERN_search line <> None).
  { intros line (pre & call & post & -> & Hm).
    destruct (PATTERN_opening _ Hm) as (t & rest & -> & Ht).
    apply KICAD_PATTERN_search_opener.
    exists pre, t, (rest ++ post). split; [now rewrite <- app_assoc | now left]. }
  split; [exact H|].
  intros line Hr. apply H. unfold run, re_sub in Hr. cbn [map] in Hr.
  destruct (sub_from_changed true PATTERN _replace_match (length line) line)
    as [E | (pre & t & mo & rest & -> & Hm)]; [congruence|].
  destruct (match_here_sound _ _ _ _ _ _ Hm) as [-> Hx].
  now exists pre, (group0 mo), rest.
Qed.

Lemma changed_line_is_detected_witness :
  KICAD_PATTERN_search (txt "see {{ kicad_schematic(amp.kicad_sch) }}") <> None.
Proof.
  apply (proj2 changed_line_is_detected). vm_compute. discriminate.
Defined.

(* ===================================================================== *)
(** * Grammar A: options and unquoted filenames *)
(* ===================================================================== *)

Section TailFacts.

Variable total : nat.
Variable A : Type.
Variable k : str -> groups -> option A.
Variable r : A.

Lemma PATTERN_tail_closing (w4 w5 rest : str) (g : groups) :
  spaces w4 -> spaces w5 -> k rest g = Some r ->
  m true total PATTERN_tail (w4 ++ txt ")" ++ w5 ++ txt "}}" ++ rest) g k
  = Some r.
Proof.
  intros Hw4 Hw5 Hk. unfold PATTERN_tail, ws0, quote, unquoted0. cbn [seq].
  apply eval_Seq, eval_Rep; [exact Hw4 | lia | reflexivity | cbv beta].
  apply eval_Seq, eval_Opt_none; [reflexivity | cbv beta].
  apply eval_Seq, eval_Opt_none; [reflexivity | cbv beta].
  apply eval_Seq. apply eval_Rep with (x := []);
    [constructor | simpl; lia | reflexivity | cbv beta].
  apply eval_Seq. apply eval_Str with (x := txt ")");
    [repeat constructor | cbv beta].
  apply eval_Seq, eval_Rep; [exact Hw5 | lia | reflexivity | cbv beta].
  apply eval_Str; [repeat constructor | exact Hk].
Qed.

Lemma PATTERN_tail_options (style_ controls_ : option str) (rest f : str) :
  run_of (NoneOf (DQ ++ SQ)) (get style_ []) ->
  run_of (NoneOf (DQ ++ SQ)) (get controls_ []) ->
  k rest (options_groups f style_ controls_) = Some r ->
  m true total PATTERN_tail
    (style_option style_ ++ controls_option controls_ ++ txt ") }}" ++ rest)
    [(quoted_filename, f)] k
  = Some r.
Proof.
  intros Hs Hc Hk. destruct style_ as [s|], controls_ as [c|];
    cbn [get] in Hs, Hc; unfold options_groups in Hk; cbn [app] in Hk.
  - replace (style_option (Some s) ++ controls_option (Some c)
               ++ txt ") }}" ++ rest)
      with ([] ++ txt "," ++ txt " " ++ txt "style" ++ [] ++ txt "=" ++ []
              ++ 34%N :: s ++ 34%N :: txt "," ++ txt " " ++ txt "controls"
              ++ [] ++ txt "=" ++ [] ++ 34%N :: c ++ 34%N :: [] ++ txt ")"
              ++ txt " " ++ txt "}}" ++ rest)
      by (unfold style_option, controls_option;
          repeat (rewrite <- app_assoc; simpl); reflexivity).
    unfold PATTERN_tail, ws0, quote, unquoted0. cbn [seq].
    apply eval_Seq, eval_Rep; [constructor | simpl; lia | reflexivity | cbv beta].
    apply eval_Seq, eval_Opt_some.
    apply eval_Seq, eval_Str; [repeat constructor | cbv beta].
    apply eval_Seq, eval_Rep; [repeat constructor | simpl; lia | reflexivity | cbv beta].
    apply eval_Seq, eval_Str; [repeat constructor | cbv beta].
    apply eval_Seq, eval_Rep; [constructor | simpl; lia | reflexivity | cbv beta].
    apply eval_Seq, eval_Str; [repeat constructor | cbv beta].
    apply eval_Seq, eval_Rep; [constructor | simpl; lia | reflexivity | cbv beta].
    apply eval_Seq, eval_Any; [reflexivity | cbv beta].
    apply eval_Seq, eval_Grp_Rep; [exact Hs | lia | reflexivity | cbv beta].
    apply eval_Any; [reflexivity | cbv beta].
    apply eval_Seq, eval_Opt_some.
    apply eval_Seq, eval_Str; [repeat constructor | cbv beta].
    apply eval_Seq, eval_Rep; [repeat constructor | simpl; lia | reflexivity | cbv beta].
    apply eval_Seq, eval_Str; [repeat constructor | cbv beta].
    apply eval_Seq, eval_Rep; [constructor | simpl; lia | reflexivity | cbv beta].
    apply eval_Seq, eval_Str; [repeat constructor | cbv beta].
    apply eval_Seq, eval_Rep; [constructor | simpl; lia | reflexivity | cbv beta].
    apply eval_Seq, eval_Any; [reflexivity | cbv beta].
    apply eval_Seq, eval_Grp_Rep; [exact Hc | lia | reflexivity | cbv beta].
    apply eval_Any; [reflexivity | cbv beta].
    apply eval_Seq, eval_Rep; [constructor | simpl; lia | reflexivity | cbv beta].
    apply eval_Seq, eval_Str; [repeat constructor | cbv beta].
    apply eval_Seq, eval_Rep; [repeat constructor | simpl; lia | reflexivity | cbv beta].
    apply eval_Str; [repeat constructor | exact Hk].
  - replace (style_option (Some s) ++ controls_option None
               ++ txt ") }}" ++ rest)
      with ([] ++ txt "," ++ txt " " ++ txt "style" ++ [] ++ txt "=" ++ []
              ++ 34%N :: s ++ 34%N :: [] ++ txt ")" ++ txt " " ++ txt "}}"
              ++ rest)
      by (unfold style_option, controls_option;
          repeat (rewrite <- app_assoc; simpl); reflexivity).
    unfold PATTERN_tail, ws0, quote, unquoted0. cbn [seq].
    apply eval_Seq, eval_Rep; [constructor | simpl; lia | reflexivity | cbv beta].
    apply eval_Seq, eval_Opt_some.
    apply eval_Seq, eval_Str; [repeat constructor | cbv beta].
    apply eval_Seq, eval_Rep; [repeat constructor | simpl; lia | reflexivity | cbv beta].
    apply eval_Seq, eval_Str; [repeat constructor | cbv beta].
    apply eval_Seq, eval_Rep; [constructor | simpl; lia | reflexivity | cbv beta].
    apply eval_Seq, eval_Str; [repeat constructor | cbv beta].
    apply eval_Seq, eval_Rep; [constructor | simpl; lia | reflexivity | cbv beta].
    apply eval_Seq, eval_Any; [reflexivity | cbv beta].
    apply eval_Seq, eval_Grp_Rep; [exact Hs | lia | reflexivity | cbv beta].
    apply eval_Any; [reflexivity | cbv beta].
    apply eval_Seq, eval_Opt_none; [reflexivity | cbv beta].
    apply eval_Seq, eval_Rep; [constructor | simpl; lia | reflexivity | cbv beta].
    apply eval_Seq, eval_Str; [repeat constructor | cbv beta].
    apply eval_Seq, eval_Rep; [repeat constructor | simpl; lia | reflexivity | cbv beta].
    apply eval_Str; [repeat constructor | exact Hk].
  - replace (style_option None ++ controls_option (Some c)
               ++ txt ") }}" ++ rest)
      with ([] ++ txt "," ++ txt " " ++ txt "controls" ++ [] ++ txt "=" ++ []
              ++ 34%N :: c ++ 34%N :: [] ++ txt ")" ++ txt " " ++ txt "}}"
              ++ rest)
      by (unfold style_option, controls_option;
          repeat (rewrite <- app_assoc; simpl); reflexivity).
    unfold PATTERN_tail, ws0, quote, unquoted0. cbn [seq].
    apply eval_Seq, eval_Rep; [constructor | simpl; lia | reflexivity | cbv beta].
    apply eval_Seq, eval_Opt_none; [reflexivity | cbv beta].
    apply eval_Seq, eval_Opt_some.
    apply eval_Seq, eval_Str; [repeat constructor | cbv beta].
    apply eval_Seq, eval_Rep; [repeat constructor | simpl; lia | reflexivity | cbv beta].
    apply eval_Seq, eval_Str; [repeat constructor | cbv beta].
    apply eval_Seq, eval_Rep; [constructor | simpl; lia | reflexivity | cbv beta].
    apply eval_Seq, eval_Str; [repeat constructor | cbv beta].
    apply eval_Seq, eval_Rep; [constructor | simpl; lia | reflexivity | cbv beta].
    apply eval_Seq, eval_Any; [reflexivity | cbv beta].
    apply eval_Seq, eval_Grp_Rep; [exact Hc | lia | reflexivity | cbv beta].
    apply eval_Any; [reflexivity | cbv beta].
    apply eval_Seq, eval_Rep; [constructor | simpl; lia | reflexivity | cbv beta].
    apply eval_Seq, eval_Str; [repeat constructor | cbv beta].
    apply eval_Seq, eval_Rep; [repeat constructor | simpl; lia | reflexivity | cbv beta].
    apply eval_Str; [repeat constructor | exact Hk].
  - exact (PATTERN_tail_closing [] (txt " ") rest _
             (Forall_nil _) ltac:(repeat constructor) Hk).
Qed.

Lemma PATTERN_quoted_head (f s : str) :
  run_of (NoneOf (DQ ++ SQ)) f -> f <> [] ->
  m true total PATTERN_tail s [(quoted_filename, f)] k = Some r ->
  m true total PATTERN (txt "{{ kicad_schematic(" ++ DQ ++ f ++ DQ ++ s) [] k
  = Some r.
Proof.
  intros Hf Hne H.
  replace (txt "{{ kicad_schematic(" ++ DQ ++ f ++ DQ ++ s)
    with (txt "{{" ++ txt " " ++ txt "kicad_schematic" ++ [] ++ txt "(" ++ []
            ++ 34%N :: f ++ 34%N :: s)
    by (repeat (rewrite <- app_assoc; simpl); reflexivity).
  unfold PATTERN, ws0, quote, unquoted0, unquoted1. cbn [seq].
  apply eval_Seq, eval_Str; [repeat constructor | cbv beta].
  apply eval_Seq, eval_Rep; [repeat constructor | simpl; lia | reflexivity | cbv beta].
  apply eval_Seq, eval_Str; [repeat constructor | cbv beta].
  apply eval_Seq, eval_Rep; [constructor | simpl; lia | reflexivity | cbv beta].
  apply eval_Seq, eval_Str; [repeat constructor | cbv beta].
  apply eval_Seq, eval_Rep; [constructor | simpl; lia | reflexivity | cbv beta].
  apply eval_Seq, eval_Alt_l.
  apply eval_Seq, eval_Any; [reflexivity | cbv beta].
  apply eval_Seq, eval_Grp_Rep;
    [exact Hf | now apply length_pos_nonnil | reflexivity | cbv beta].
  apply eval_Any; [reflexivity | cbv beta].
  exact H.
Qed.

End TailFacts.

Section OptionsFacts.

Variables (f : str) (style_ controls_ : option str).
Hypothesis Hf : run_of (NoneOf (DQ ++ SQ)) f.
Hypothesis Hne : f <> [].
Hypothesis Hs : run_of (NoneOf (DQ ++ SQ)) (get style_ []).
Hypothesis Hc : run_of (NoneOf (DQ ++ SQ)) (get controls_ []).

Lemma match_here_options_call total rest :
  match_here true total PATTERN (options_call f style_ controls_ ++ rest)
  = Some ({| group0 := options_call f style_ controls_;
             captures := options_groups f style_ controls_ |}, rest).
Proof.
  unfold match_here.
  replace (options_call f style_ controls_ ++ rest)
    with (txt "{{ kicad_schematic(" ++ DQ ++ f ++ DQ
            ++ style_option style_ ++ controls_option controls_
            ++ txt ") }}" ++ rest) at 1
    by (unfold options_call; repeat (rewrite <- app_assoc; simpl); reflexivity).
  apply PATTERN_quoted_head; [exact Hf | exact Hne|].
  apply PATTERN_tail_options; [exact Hs | exact Hc|].
  now rewrite firstn_consumed.
Qed.

Lemma replace_match_options (text : str) :
  _replace_match {| group0 := text;
                    captures := options_groups f style_ controls_ |}
  = element f (get style_ []) (get controls_ []).
Proof.
  unfold _replace_match, match_filename, mgroup, options_groups.
  destruct f as [|d f']; [congruence|].
  destruct style_ as [[|? ?]|], controls_ as [[|? ?]|]; reflexivity.
Qed.

End OptionsFacts.

(** A call that nothing precedes but text in which no two braces open is
    replaced where it stands; the text in front of it is kept, and the
    text behind it is processed in the same way. *)
Lemma run_call_in_place (pre rest : str) (mo : Match) :
  no_braces_open pre = true ->
  startswith (group0 mo) (txt "{") = true ->
  (forall total,
     match_here true total PATTERN (group0 mo ++ rest) = Some (mo, rest)) ->
  run [pre ++ group0 mo ++ rest]
  = map (fun out => pre ++ _replace_match mo ++ out) (run [rest]).
Proof.
  intros Hp Hb Hm. unfold run, re_sub. cbn [map]. f_equal.
  destruct (group0 mo) as [|b z] eqn:Eg; [discriminate|].
  change (char_eqb 123%N b && true = true) in Hb.
  rewrite andb_true_r in Hb. apply char_eqb_eq in Hb. subst b.
  simpl app at 2.
  rewrite sub_from_prefix
    by (intros p1 t E Ht;
        now apply (no_braces_open_no_match _ pre (z ++ rest) Hp p1 t)).
  f_equal.
  pose proof (fun total =>
                sub_from_match true total PATTERN _replace_match mo rest) as H.
  rewrite Eg in H. rewrite H.
  - f_equal. apply sub_from_total; [reflexivity | exact PATTERN_nonempty].
  - apply Hm.
  - discriminate.
Qed.

Lemma run_options_call_in_place
    (f : str) (style_ controls_ : option str) (pre rest : str) :
  f <> [] ->
  run_of (NoneOf (DQ ++ SQ)) f ->
  run_of (NoneOf (DQ ++ SQ)) (get style_ []) ->
  run_of (NoneOf (DQ ++ SQ)) (get controls_ []) ->
  no_braces_open pre = true ->
  run [pre ++ options_call f style_ controls_ ++ rest]
  = map (fun out =>
           pre ++ element f (get style_ []) (get controls_ []) ++ out)
      (run [rest]).
Proof.
  intros Hne Hf Hs Hc Hp.
  pose proof (run_call_in_place pre rest
                {| group0 := options_call f style_ controls_;
                   captures := options_groups f style_ controls_ |} Hp)
    as H.
  cbn [group0] in H. rewrite replace_match_options in H by assumption.
  apply H; [reflexivity|].
  intro total. now apply match_here_options_call.
Qed.

Lemma run_options_call
    (f : str) (style_ controls_ : option str) :
  f <> [] ->
  run_of (NoneOf (DQ ++ SQ)) f ->
  run_of (NoneOf (DQ ++ SQ)) (get style_ []) ->
  run_of (NoneOf (DQ ++ SQ)) (get controls_ []) ->
  run [options_call f style_ controls_]
  = [element f (get style_ []) (get controls_ [])].
Proof.
  intros Hne Hf Hs Hc.
  pose proof (run_options_call_in_place f style_ controls_ [] []
                Hne Hf Hs Hc eq_refl) as H.
  change ([] ++ options_call f style_ controls_ ++ [])
    with (options_call f style_ controls_ ++ []) in H.
  rewrite app_nil_r in H. etransitivity; [exact H|].
  change (run [[]]) with [@nil char]. cbn [map app]. now rewrite app_nil_r.
Qed.

(** A call with a double-quoted filename and any of the two options,
    [style] first, as the documentation writes it: the filename and the
    values that are given may be any texts without a quote character (the
    filename not empty). Such a call is replaced by the element with
    exactly these values, where it stands: text in front of it in which
    no two braces open stays as it is, and the text behind it is
    processed in the same way. *)
Theorem options_call_replaced_in_place
    (f : str) (style_ controls_ : option str) (pre rest : str) :
  f <> [] ->
  run_of (NoneOf (DQ ++ SQ)) f ->
  run_of (NoneOf (DQ ++ SQ)) (get style_ []) ->
  run_of (NoneOf (DQ ++ SQ)) (get controls_ []) ->
  no_braces_open pre = true ->
  run [options_call f style_ controls_]
  = [element f (get style_ []) (get controls_ [])] /\
  run [pre ++ options_call f style_ controls_ ++ rest]
  = map (fun out =>
           pre ++ element f (get style_ []) (get controls_ []) ++ out)
      (run [rest]).
Proof.
  intros Hne Hf Hs Hc Hp. split.
  - now apply run_options_call.
  - now apply run_options_call_in_place.
Qed.

Lemma options_call_replaced_in_place_witness :
  run [txt "See " ++ options_call (txt "amp.kicad_sch")
         (Some (txt "width: 800px;")) (Some (txt "full")) ++ txt " here."]
  = [txt "See " ++ element (txt "amp.kicad_sch") (txt "width: 800px;")
       (txt "full") ++ txt " here."].
Proof.
  refine (eq_trans
            (proj2 (options_call_replaced_in_place (txt "amp.kicad_sch")
                      (Some (txt "width: 800px;")) (Some (txt "full"))
                      (txt "See ") (txt " here.") _ _ _ _ _)) _);
    try discriminate; try reflexivity; repeat constructor.
Defined.

(* ===================================================================== *)
(** * Grammar A: unquoted filenames *)
(* ===================================================================== *)

Section BareFacts.

Variable total : nat.
Variable A : Type.

Lemma skip_spaces_app (w s : str) :
  spaces w -> skip_spaces (w ++ s) = skip_spaces s.
Proof.
  induction 1 as [|c w Hc _ IH]; [reflexivity|].
  simpl in Hc. simpl. now rewrite Hc.
Qed.

(** The rest of the pattern only matches a text that goes on, behind
    optional white space, with a comma or the closing parenthesis. *)
Lemma PATTERN_tail_start (s : str) (g : groups)
    (k : str -> groups -> option A) (a : A) :
  m true total PATTERN_tail s g k = Some a -> tail_start s = true.
Proof.
  intro H. destruct (m_sound _ _ _ _ _ _ _ _ H) as (x & s' & _ & -> & Hx & _).
  clear H. unfold PATTERN_tail in Hx. simpl in Hx.
  destruct Hx as (a1 & t1 & -> & [Ha1 _] & o1 & t2 & -> & Ho1
                  & o2 & t3 & -> & Ho2 & a2 & t4 & -> & [Ha2 _]
                  & p & t5 & -> & Hp & _).
  unfold tail_start. rewrite <- app_assoc, skip_spaces_app by exact Ha1.
  destruct Ho1 as [(c1 & u1 & -> & Hc1 & _) | ->].
  { apply (lit_text_exact true (txt ",") eq_refl) in Hc1. now subst c1. }
  simpl app.
  destruct Ho2 as [(c2 & u2 & -> & Hc2 & _) | ->].
  { apply (lit_text_exact true (txt ",") eq_refl) in Hc2. now subst c2. }
  simpl app. rewrite <- app_assoc, skip_spaces_app by exact Ha2.
  apply (lit_text_exact true (txt ")") eq_refl) in Hp. now subst p.
Qed.

(** Greedy repetition gives back one character when the continuation
    refuses the longest run and accepts the run without its last
    character. *)
Lemma rep_back (c : cls) (cont : str -> option A) (d : char) (s : str) (r : A) :
  forall x min,
    run_of c x -> min <= length x -> cls_match c d = true ->
    ends_run c s = true -> cont s = None -> cont (d :: s) = Some r ->
    rep c min (x ++ d :: s) cont = Some r.
Proof.
  induction x as [|c0 x IH]; intros min Hx Hm Hd Hs Hn Hk.
  - destruct min; [|simpl in Hm; lia]. simpl. rewrite Hd.
    replace (rep c 0 s cont) with (@None A); [exact Hk|].
    symmetry. destruct s as [|e s]; simpl; [exact Hn|].
    simpl in Hs. apply negb_true_iff in Hs. now rewrite Hs.
  - inversion Hx as [|? ? Hc0 Hxx]; subst. simpl. rewrite Hc0.
    rewrite (IH (pred min)); [reflexivity | assumption | simpl in Hm; lia
                              | assumption..].
Qed.

Lemma eval_Grp_Rep_back i c min (x : str) (d : char) (s : str) (g : groups)
    (k : str -> groups -> option A) (r : A) :
  run_of c x -> min <= length x -> cls_match c d = true ->
  ends_run c s = true ->
  k s ((i, x ++ [d]) :: g) = None ->
  k (d :: s) ((i, x) :: g) = Some r ->
  m true total (Grp i (Rep c min)) (x ++ d :: s) g k = Some r.
Proof.
  intros Hx Hm Hd Hs Hn Hk. simpl. apply rep_back; auto.
  - replace (x ++ d :: s) with ((x ++ [d]) ++ s)
      by (now rewrite <- app_assoc).
    now rewrite firstn_consumed.
  - change (d :: s) with ([d] ++ s) at 2. rewrite firstn_consumed.
    exact Hk.
Qed.

Lemma eval_Alt_r a b (s : str) (g : groups) (k : str -> groups -> option A)
    (r : A) :
  m true total a s g k = None -> m true total b s g k = Some r ->
  m true total (Alt a b) s g k = Some r.
Proof. intros Ha Hb. simpl. now rewrite Ha. Qed.

Lemma quoted_alternative_fails (b : re) (f s : str) (g : groups)
    (k : str -> groups -> option A) :
  f <> [] -> is_quote (hd 0%N f) = false ->
  m true total (Seq quote b) (f ++ s) g k = None.
Proof.
  intros Hne Hq. destruct f as [|d f]; [congruence|].
  simpl in Hq. simpl. unfold is_quote in Hq. simpl in Hq. now rewrite Hq.
Qed.

Variables (w1 name w2 w3 f w4 w5 : str).

Hypothesis Hw1 : spaces w1.
Hypothesis Hname : same_ignoring_case (txt "kicad_schematic") name.
Hypothesis Hw2 : spaces w2.
Hypothesis Hw3 : spaces w3.
Hypothesis Hf : run_of NotSpace f.
Hypothesis Hne : f <> [].
Hypothesis Hq : is_quote (hd 0%N f) = false.
Hypothesis Hw4 : spaces w4.
Hypothesis Hw5 : spaces w5.
Hypothesis Hsep : w4 ++ w5 <> [].

Lemma PATTERN_bare_call (rest : str) (k : str -> groups -> option A) (r : A) :
  k rest [(unquoted_filename, f)] = Some r ->
  m true total PATTERN (bare_call w1 name w2 w3 f w4 w5 ++ rest) [] k = Some r.
Proof.
  intro Hk.
  replace (bare_call w1 name w2 w3 f w4 w5 ++ rest)
    with (txt "{{" ++ w1 ++ name ++ w2 ++ txt "(" ++ w3 ++ f ++ w4 ++ txt ")"
            ++ w5 ++ txt "}}" ++ rest)
    by (unfold bare_call; repeat (rewrite <- app_assoc; simpl); reflexivity).
  assert (Hf1 : ends_run Space (f ++ w4 ++ txt ")" ++ w5 ++ txt "}}" ++ rest)
                = true).
  { destruct f as [|d f']; [congruence|].
    inversion Hf as [|? ? Hd _]; subst. simpl in Hd |- *.
    now rewrite Hd. }
  unfold PATTERN, ws0, quote, unquoted0, unquoted1. cbn [seq].
  apply eval_Seq, eval_Str; [repeat constructor | cbv beta].
  apply eval_Seq, eval_Rep;
    [exact Hw1 | lia | now apply (lit_text_ends_run true (txt "kicad_schematic"))
    | cbv beta].
  apply eval_Seq, eval_Str; [exact Hname | cbv beta].
  apply eval_Seq, eval_Rep; [exact Hw2 | lia | reflexivity | cbv beta].
  apply eval_Seq, eval_Str; [repeat constructor | cbv beta].
  apply eval_Seq, eval_Rep; [exact Hw3 | lia | exact Hf1 | cbv beta].
  apply eval_Seq, eval_Alt_r.
  { now apply quoted_alternative_fails. }
  destruct w4 as [|sp w4'].
  - destruct w5 as [|sp w5']; [now simpl in Hsep|].
    change (f ++ [] ++ txt ")" ++ (sp :: w5') ++ txt "}}" ++ rest)
      with (f ++ 41%N :: (sp :: w5') ++ txt "}}" ++ rest).
    inversion Hw5 as [|? ? Hsp _]; subst. simpl in Hsp.
    apply eval_Grp_Rep_back;
      [exact Hf | now apply length_pos_nonnil | reflexivity
      | simpl; now rewrite Hsp | | ].
    + match goal with
      | |- ?lhs = None => destruct lhs as [a|] eqn:E; [|reflexivity]
      end.
      apply (PATTERN_tail_start _ _ _ _) in E. unfold tail_start in E.
      rewrite skip_spaces_app in E by exact Hw5. discriminate.
    + exact (PATTERN_tail_closing total A k r [] (sp :: w5') rest _
               (Forall_nil _) Hw5 Hk).
  - inversion Hw4 as [|? ? Hsp _]; subst. simpl in Hsp.
    apply eval_Grp_Rep;
      [exact Hf | now apply length_pos_nonnil | simpl; now rewrite Hsp | ].
    exact (PATTERN_tail_closing total A k r (sp :: w4') w5 rest _ Hw4 Hw5 Hk).
Qed.

End BareFacts.

Lemma match_here_bare_call (w1 name w2 w3 f w4 w5 : str) total rest :
  spaces w1 -> same_ignoring_case (txt "kicad_schematic") name ->
  spaces w2 -> spaces w3 ->
  run_of NotSpace f -> f <> [] -> is_quote (hd 0%N f) = false ->
  spaces w4 -> spaces w5 -> w4 ++ w5 <> [] ->
  match_here true total PATTERN (bare_call w1 name w2 w3 f w4 w5 ++ rest)
  = Some ({| group0 := bare_call w1 name w2 w3 f w4 w5;
             captures := [(unquoted_filename, f)] |}, rest).
Proof.
  intros. unfold match_here. apply PATTERN_bare_call; try assumption.
  now rewrite firstn_consumed.
Qed.



(* ===================================================================== *)
(** * Grammar C: the parameters of a tag *)
(* ===================================================================== *)

Section QuotePositionFacts.

Lemma quote_free_cons (c : char) (s : str) :
  quote_free (c :: s) -> is_quote c = false /\ quote_free s.
Proof.
  intro H. inversion H as [|? ? Hc Hs]; subst. split; [|exact Hs].
  simpl in Hc. now apply negb_true_iff in Hc.
Qed.

Lemma quote_free_app (a b : str) :
  quote_free (a ++ b) <-> quote_free a /\ quote_free b.
Proof. apply Forall_app. Qed.

Lemma quote_free_no_quote (x : str) (q : char) (y : str) :
  quote_free (x ++ q :: y) -> is_quote q = true -> False.
Proof.
  intros H Hq. apply quote_free_app in H as [_ H].
  apply quote_free_cons in H as [H _]. congruence.
Qed.

(** Where two texts agree, a quote character of the one stands at or
    behind the first quote character of the other. *)
Lemma first_quote_split : forall c a q b q' d,
  quote_free c -> is_quote q = true ->
  a ++ q :: b = c ++ q' :: d ->
  (a = c /\ q = q' /\ b = d) \/
  (exists a', a = c ++ q' :: a' /\ d = a' ++ q :: b).
Proof.
  induction c as [|x c IH]; intros a q b q' d Hc Hq E.
  - destruct a as [|y a]; simpl in E.
    + injection E as -> ->. now left.
    + injection E as -> <-. right. now exists a.
  - apply quote_free_cons in Hc as [Hx Hc].
    destruct a as [|y a]; simpl in E.
    + injection E as -> _. congruence.
    + injection E as -> E.
      destruct (IH _ _ _ _ _ Hc Hq E) as [(-> & -> & ->) | (a' & -> & ->)].
      * now left.
      * right. now exists a'.
Qed.

(** A quoted text in a text with four quote characters is one of the
    three texts between two neighbouring ones. *)
Lemma four_quotes_positions (t0 t1 t2 t3 p : str) (q1 : char) (v : str)
    (q2 : char) (post : str) :
  quote_free t0 -> quote_free t1 -> quote_free t2 -> quote_free t3 ->
  quote_free v -> is_quote q1 = true -> is_quote q2 = true ->
  t0 ++ 34%N :: t1 ++ 34%N :: t2 ++ 34%N :: t3 ++ [34%N]
  = p ++ q1 :: v ++ q2 :: post ->
  (p = t0 /\ v = t1) \/
  (p = t0 ++ 34%N :: t1 /\ v = t2) \/
  (p = t0 ++ 34%N :: t1 ++ 34%N :: t2 /\ v = t3).
Proof.
  intros H0 H1 H2 H3 Hv Hq1 Hq2 E. symmetry in E.
  assert (Hval : forall t d,
             quote_free t -> v ++ q2 :: post = t ++ 34%N :: d -> v = t).
  { intros t d Ht Ev.
    destruct (first_quote_split _ _ _ _ _ _ Ht Hq2 Ev)
      as [(-> & _) | (a' & -> & _)]; [reflexivity|].
    exfalso. now apply (quote_free_no_quote _ _ _ Hv). }
  destruct (first_quote_split _ _ _ _ _ _ H0 Hq1 E)
    as [(-> & _ & Ev) | (a1 & -> & E1)].
  { left. split; [reflexivity|]. exact (Hval _ _ H1 Ev). }
  symmetry in E1.
  destruct (first_quote_split _ _ _ _ _ _ H1 Hq1 E1)
    as [(-> & _ & Ev) | (a2 & -> & E2)].
  { right; left. split; [reflexivity|]. exact (Hval _ _ H2 Ev). }
  symmetry in E2.
  destruct (first_quote_split _ _ _ _ _ _ H2 Hq1 E2)
    as [(-> & _ & Ev) | (a3 & -> & E3)].
  { right; right. split; [reflexivity|]. exact (Hval _ _ H3 Ev). }
  exfalso. symmetry in E3.
  destruct (first_quote_split _ _ _ _ _ _ H3 Hq1 E3)
    as [(_ & _ & Ev) | (a4 & _ & E4)].
  - now destruct v.
  - now destruct a4.
Qed.

(** The first marked character of a text is where it is. *)
Lemma first_marked_split (mark : char -> bool) : forall c a q b q' d,
  Forall (fun x => mark x = false) c -> Forall (fun x => mark x = false) a ->
  mark q = true -> mark q' = true ->
  a ++ q :: b = c ++ q' :: d -> q = q'.
Proof.
  induction c as [|x c IH]; intros a q b q' d Hc Ha Hq Hq' E.
  - destruct a as [|y a]; simpl in E.
    + now injection E.
    + injection E as -> _. inversion Ha; subst. congruence.
  - inversion Hc; subst. destruct a as [|y a]; simpl in E.
    + injection E as -> _. congruence.
    + injection E as _ E. inversion Ha; subst. eapply IH; eauto.
Qed.

Lemma is_space_not_marked (d : char) :
  is_space d = true -> quote_or_equals d = false.
Proof.
  intro H. unfold quote_or_equals, is_quote, char_eqb. simpl mem.
  unfold char_eqb.
  destruct (N.eqb_spec d 34) as [-> |]; [discriminate H|].
  destruct (N.eqb_spec d 39) as [-> |]; [discriminate H|].
  destruct (N.eqb_spec d 61) as [-> |]; [discriminate H | reflexivity].
Qed.

End QuotePositionFacts.

Section ParameterFacts.

(** A match of the parameter pattern: the key, [=] with white space
    around it, and the value between two quote characters. *)
Lemma LIQUID_PARAM_structure (key x : str) (g : groups) :
  captures_of true (LIQUID_PARAM key) x [] g ->
  exists kt ws1 ws2 q1 v q2,
    x = (kt ++ ws1 ++ 61%N :: ws2) ++ q1 :: v ++ [q2] /\
    lit_text true key kt /\ spaces ws1 /\ spaces ws2 /\
    is_quote q1 = true /\ is_quote q2 = true /\
    quote_free v /\ group g 1 = Some v.
Proof.
  unfold LIQUID_PARAM. simpl.
  intros (a1 & t1 & g1 & -> & [Hk ->] & a2 & t2 & g2 & -> & [[Hw1 _] ->]
          & a3 & t3 & g3 & -> & [He ->] & a4 & t4 & g4 & -> & [[Hw2 _] ->]
          & a5 & t5 & g5 & -> & [(q1 & -> & Hq1) ->]
          & v & a7 & g6 & -> & (g7 & [[Hv _] ->] & ->)
          & [(q2 & -> & Hq2) ->]).
  apply (lit_text_exact true (txt "=") eq_refl) in He. subst a3.
  exists a1, a2, a4, q1, v, q2.
  split; [now repeat (rewrite <- app_assoc; simpl)|].
  repeat split; assumption || reflexivity.
Qed.

(** A value without an equals sign does not end like a parameter
    opening. *)
Lemma value_without_equals (m0 ws2 n0 t1 : str) :
  spaces ws2 -> quote_free t1 -> mem 61%N t1 = false ->
  m0 ++ 61%N :: ws2 = n0 ++ 34%N :: t1 -> False.
Proof.
  intros Hw Ht He E. apply (f_equal (@rev char)) in E.
  rewrite !rev_app_distr in E. simpl in E. rewrite <- !app_assoc in E.
  simpl in E.
  assert (H : 61%N = 34%N); [|discriminate].
  apply (first_marked_split quote_or_equals _ _ _ _ _ _) with (5 := E);
    try reflexivity.
  - apply Forall_rev. clear - Ht He.
    induction t1 as [|d t1 IH]; constructor.
    + apply quote_free_cons in Ht as [Hd _]. simpl in He.
      apply orb_false_iff in He as [He _]. unfold quote_or_equals.
      rewrite Hd. unfold char_eqb in *. now rewrite N.eqb_sym.
    + apply quote_free_cons in Ht as [_ Ht]. simpl in He.
      apply orb_false_iff in He as [_ He]. auto.
  - apply Forall_rev. unfold spaces, run_of in Hw.
    eapply Forall_impl; [|exact Hw]. intros d Hd.
    now apply is_space_not_marked.
Qed.

(** A parameter opening for one key does not end with another key whose
    last letter differs. *)
Lemma key_mismatch (p : str) (c c' : char) (kt ws1 ws2 pre m0 : str) :
  lit_text true (p ++ [c]) kt -> spaces ws1 -> spaces ws2 ->
  lit_match true c c' = false -> is_space c' = false ->
  pre ++ kt ++ ws1 ++ 61%N :: ws2 = m0 ++ [c'; 61%N] -> False.
Proof.
  intros Hk Hw1 Hw2 Hc Hs E.
  apply Forall2_app_inv_l in Hk as (k1 & k2 & _ & Hk2 & ->).
  inversion Hk2 as [|? d ? ? Hd Hnil]; subst. inversion Hnil; subst.
  apply (f_equal (@rev char)) in E.
  rewrite !rev_app_distr in E. simpl in E. rewrite <- !app_assoc in E.
  simpl in E.
  apply Forall_rev in Hw1, Hw2.
  destruct (rev ws2) as [|a l].
  - simpl in E. injection E as E.
    destruct (rev ws1) as [|a l].
    + simpl in E. injection E as -> _. congruence.
    + simpl in E. injection E as -> _. inversion Hw1; subst.
      simpl in *. congruence.
  - simpl in E. injection E as -> _. inversion Hw2 as [|? ? Ha _]; subst.
    discriminate Ha.
Qed.

End ParameterFacts.

Section TwoParameters.

Variables (w f p1 : str) (c1 : char) (p2 : str) (c2 : char) (v1 v2 : str).

Hypothesis Hw : spaces w.
Hypothesis Hf : quote_free f.
Hypothesis Hk1 : quote_free (p1 ++ [c1]).
Hypothesis Hk2 : quote_free (p2 ++ [c2]).
Hypothesis H12 : lit_match true c1 c2 = false.
Hypothesis H21 : lit_match true c2 c1 = false.
Hypothesis Hs1 : is_space c1 = false.
Hypothesis Hs2 : is_space c2 = false.
Hypothesis Hv1 : quote_free v1.
Hypothesis Hv2 : quote_free v2.
Hypothesis He1 : mem 61%N v1 = false.

Lemma spaces_quote_free (s : str) : spaces s -> quote_free s.
Proof.
  intro H. eapply Forall_impl; [|exact H]. intros d Hd.
  change (is_space d = true) in Hd.
  change (negb (is_quote d) = true).
  apply is_space_not_marked in Hd. unfold quote_or_equals in Hd.
  apply orb_false_iff in Hd as [Hd _]. now rewrite Hd.
Qed.

Lemma two_params_quotes :
  w ++ f ++ liquid_param (p1 ++ [c1]) v1 ++ liquid_param (p2 ++ [c2]) v2
  = (w ++ f ++ txt " " ++ p1 ++ [c1; 61%N]) ++ 34%N :: v1
      ++ 34%N :: (txt " " ++ p2 ++ [c2; 61%N]) ++ 34%N :: v2 ++ [34%N].
Proof.
  unfold liquid_param, DQ. repeat (rewrite <- app_assoc; simpl). reflexivity.
Qed.

Lemma two_params_positions (key : str) (mo : Match) :
  re_search true (LIQUID_PARAM key)
    (w ++ f ++ liquid_param (p1 ++ [c1]) v1 ++ liquid_param (p2 ++ [c2]) v2)
  = Some mo ->
  exists pre kt ws1 ws2 v,
    lit_text true key kt /\ spaces ws1 /\ spaces ws2 /\
    mgroup mo 1 = Some v /\
    let p := pre ++ kt ++ ws1 ++ 61%N :: ws2 in
    (p = w ++ f ++ txt " " ++ p1 ++ [c1; 61%N] /\ v = v1) \/
    (p = (w ++ f ++ txt " " ++ p1 ++ [c1; 61%N]) ++ 34%N :: v1 /\
     v = txt " " ++ p2 ++ [c2; 61%N]) \/
    (p = (w ++ f ++ txt " " ++ p1 ++ [c1; 61%N]) ++ 34%N :: v1
           ++ 34%N :: txt " " ++ p2 ++ [c2; 61%N] /\ v = v2).
Proof.
  intro H. unfold re_search in H.
  destruct (search_from_captures _ _ _ _ _ H) as (pre & post & E & Hc).
  destruct (LIQUID_PARAM_structure _ _ _ Hc)
    as (kt & ws1 & ws2 & q1 & v & q2 & Ex & Hkt & Hws1 & Hws2 & Hq1 & Hq2
        & Hv & Hg).
  exists pre, kt, ws1, ws2, v.
  split; [exact Hkt|]. split; [exact Hws1|]. split; [exact Hws2|].
  split; [exact Hg|]. cbv zeta.
  rewrite two_params_quotes, Ex in E.
  assert (E' : (w ++ f ++ txt " " ++ p1 ++ [c1; 61%N]) ++ 34%N :: v1
                 ++ 34%N :: (txt " " ++ p2 ++ [c2; 61%N]) ++ 34%N :: v2
                 ++ [34%N]
               = (pre ++ kt ++ ws1 ++ 61%N :: ws2) ++ q1 :: v ++ q2 :: post).
  { rewrite E. repeat (rewrite <- app_assoc; simpl). reflexivity. }
  clear E.
  assert (H0 : quote_free (w ++ f ++ txt " " ++ p1 ++ [c1; 61%N])).
  { apply quote_free_app. split; [now apply spaces_quote_free|].
    apply quote_free_app. split; [exact Hf|].
    apply quote_free_app. split; [repeat constructor|].
    replace (p1 ++ [c1; 61%N]) with ((p1 ++ [c1]) ++ [61%N])
      by (now rewrite <- app_assoc).
    apply quote_free_app. split; [exact Hk1 | repeat constructor]. }
  assert (H2 : quote_free (txt " " ++ p2 ++ [c2; 61%N])).
  { apply quote_free_app. split; [repeat constructor|].
    replace (p2 ++ [c2; 61%N]) with ((p2 ++ [c2]) ++ [61%N])
      by (now rewrite <- app_assoc).
    apply quote_free_app. split; [exact Hk2 | repeat constructor]. }
  exact (four_quotes_positions _ _ _ _ _ _ _ _ _ H0 Hv1 H2 Hv2 Hv Hq1 Hq2 E').
Qed.

Lemma first_param_value (mo : Match) :
  re_search true (LIQUID_PARAM (p1 ++ [c1]))
    (w ++ f ++ liquid_param (p1 ++ [c1]) v1 ++ liquid_param (p2 ++ [c2]) v2)
  = Some mo ->
  mgroup mo 1 = Some v1.
Proof.
  intro H. destruct (two_params_positions _ _ H)
    as (pre & kt & ws1 & ws2 & v & Hkt & Hws1 & Hws2 & Hg & Hp).
  cbv zeta in Hp. destruct Hp as [[_ ->] | [[E _] | [E _]]]; [exact Hg | |];
    exfalso.
  - replace (pre ++ kt ++ ws1 ++ 61%N :: ws2)
      with ((pre ++ kt ++ ws1) ++ 61%N :: ws2) in E
      by (now repeat rewrite <- app_assoc).
    exact (value_without_equals _ _ _ _ Hws2 Hv1 He1 E).
  - apply (key_mismatch p1 c1 c2 kt ws1 ws2 pre
             ((w ++ f ++ txt " " ++ p1 ++ [c1; 61%N]) ++ 34%N :: v1
                ++ 34%N :: txt " " ++ p2) Hkt Hws1 Hws2 H12 Hs2).
    rewrite E. repeat (rewrite <- app_assoc; simpl). reflexivity.
Qed.

Lemma second_param_value (mo : Match) :
  re_search true (LIQUID_PARAM (p2 ++ [c2]))
    (w ++ f ++ liquid_param (p1 ++ [c1]) v1 ++ liquid_param (p2 ++ [c2]) v2)
  = Some mo ->
  mgroup mo 1 = Some v2.
Proof.
  intro H. destruct (two_params_positions _ _ H)
    as (pre & kt & ws1 & ws2 & v & Hkt & Hws1 & Hws2 & Hg & Hp).
  cbv zeta in Hp. destruct Hp as [[E _] | [[E _] | [_ ->]]]; [| |exact Hg];
    exfalso.
  - apply (key_mismatch p2 c2 c1 kt ws1 ws2 pre (w ++ f ++ txt " " ++ p1)
             Hkt Hws1 Hws2 H21 Hs1).
    rewrite E. repeat (rewrite <- app_assoc; simpl). reflexivity.
  - replace (pre ++ kt ++ ws1 ++ 61%N :: ws2)
      with ((pre ++ kt ++ ws1) ++ 61%N :: ws2) in E
      by (now repeat rewrite <- app_assoc).
    exact (value_without_equals _ _ _ _ Hws2 Hv1 He1 E).
Qed.

End TwoParameters.

Lemma liquid_param_found (key v pre post : str) :
  lit_text true key key -> quote_free v ->
  re_search true (LIQUID_PARAM key) (pre ++ liquid_param key v ++ post) <> None.
Proof.
  intros Hk Hv. unfold re_search.
  replace (pre ++ liquid_param key v ++ post)
    with ((pre ++ txt " ") ++ (key ++ txt "=" ++ DQ ++ v ++ DQ) ++ post)
    by (unfold liquid_param; repeat (rewrite <- app_assoc; simpl); reflexivity).
  apply search_from_complete; [reflexivity|].
  unfold LIQUID_PARAM, ws0, quote, unquoted0. simpl.
  exists key, (txt "=" ++ DQ ++ v ++ DQ). split; [reflexivity|].
  split; [exact Hk|].
  exists [], (txt "=" ++ DQ ++ v ++ DQ). split; [reflexivity|].
  split; [split; [constructor | simpl; lia]|].
  exists (txt "="), (DQ ++ v ++ DQ). split; [reflexivity|].
  split; [repeat constructor|].
  exists [], (DQ ++ v ++ DQ). split; [reflexivity|].
  split; [split; [constructor | simpl; lia]|].
  exists DQ, (v ++ DQ). split; [reflexivity|].
  split; [now exists 34%N|].
  exists v, DQ. split; [reflexivity|].
  split; [split; [exact Hv | lia] | now exists 34%N].
Qed.

Lemma search_value (key markup v : str) :
  re_search true (LIQUID_PARAM key) markup <> None ->
  (forall mo, re_search true (LIQUID_PARAM key) markup = Some mo ->
              mgroup mo 1 = Some v) ->
  match re_search true (LIQUID_PARAM key) markup with
  | Some mo => get (mgroup mo 1) []
  | None => []
  end = v.
Proof.
  intros Hn Hv. destruct (re_search true (LIQUID_PARAM key) markup) as [mo|];
    [|congruence].
  now rewrite (Hv mo eq_refl).
Qed.

Lemma kicad_schematic_tag_two_params (w f s c : str) :
  spaces w -> run_of NotSpace f -> f <> [] -> quote_free f ->
  quote_free s -> quote_free c -> mem 61%N s = false -> mem 61%N c = false ->
  kicad_schematic_tag
    (w ++ f ++ liquid_param (txt "style") s ++ liquid_param (txt "controls") c)
  = element f s c /\
  kicad_schematic_tag
    (w ++ f ++ liquid_param (txt "controls") c ++ liquid_param (txt "style") s)
  = element f s c.
Proof.
  intros Hw Hf Hne Hqf Hs Hc Hes Hec.
  assert (Hks : quote_free (txt "style")) by repeat constructor.
  assert (Hkc : quote_free (txt "controls")) by repeat constructor.
  assert (Hls : lit_text true (txt "style") (txt "style"))
    by repeat constructor.
  assert (Hlc : lit_text true (txt "controls") (txt "controls"))
    by repeat constructor.
  split.
  - unfold kicad_schematic_tag.
    destruct (LIQUID_FILENAME_some w f
                (liquid_param (txt "style") s ++ liquid_param (txt "controls") c)
                Hw Hf Hne eq_refl) as (fm & -> & ->).
    cbn [get].
    rewrite (search_value (txt "style") _ s).
    + rewrite (search_value (txt "controls") _ c); [reflexivity | |].
      * replace (w ++ f ++ liquid_param (txt "style") s
                   ++ liquid_param (txt "controls") c)
          with ((w ++ f ++ liquid_param (txt "style") s)
                  ++ liquid_param (txt "controls") c ++ [])
          by (rewrite app_nil_r; now repeat rewrite <- app_assoc).
        now apply liquid_param_found.
      * exact (second_param_value w f (txt "styl") 101%N (txt "control") 115%N
                 s c Hw Hqf Hks Hkc eq_refl eq_refl
                 Hs Hc Hes).
    + replace (w ++ f ++ liquid_param (txt "style") s
                 ++ liquid_param (txt "controls") c)
        with ((w ++ f) ++ liquid_param (txt "style") s
                ++ liquid_param (txt "controls") c)
        by (now rewrite <- app_assoc).
      now apply liquid_param_found.
    + exact (first_param_value w f (txt "styl") 101%N (txt "control") 115%N
               s c Hw Hqf Hks Hkc eq_refl eq_refl Hs Hc Hes).
  - unfold kicad_schematic_tag.
    destruct (LIQUID_FILENAME_some w f
                (liquid_param (txt "controls") c ++ liquid_param (txt "style") s)
                Hw Hf Hne eq_refl) as (fm & -> & ->).
    cbn [get].
    rewrite (search_value (txt "style") _ s).
    + rewrite (search_value (txt "controls") _ c); [reflexivity | |].
      * replace (w ++ f ++ liquid_param (txt "controls") c
                   ++ liquid_param (txt "style") s)
          with ((w ++ f) ++ liquid_param (txt "controls") c
                  ++ liquid_param (txt "style") s)
          by (now rewrite <- app_assoc).
        now apply liquid_param_found.
      * exact (first_param_value w f (txt "control") 115%N (txt "styl") 101%N
                 c s Hw Hqf Hkc Hks eq_refl eq_refl
                 Hc Hs Hec).
    + replace (w ++ f ++ liquid_param (txt "controls") c
                 ++ liquid_param (txt "style") s)
        with ((w ++ f ++ liquid_param (txt "controls") c)
                ++ liquid_param (txt "style") s ++ [])
        by (rewrite app_nil_r; now repeat rewrite <- app_assoc).
      now apply liquid_param_found.
    + exact (second_param_value w f (txt "control") 115%N (txt "styl") 101%N
               c s Hw Hqf Hkc Hks eq_refl eq_refl Hc Hs Hec).
Qed.

(** The Liquid tag with both parameters, in either order: for a filename
    without white space and quote characters, and values without quote
    characters and equals signs, the handler returns the element with
    exactly that filename and these values, [controls] before [style],
    whichever parameter the markup gives first. *)
Theorem liquid_parameters_in_either_order (w f s c : str) :
  spaces w -> run_of NotSpace f -> f <> [] -> quote_free f ->
  quote_free s -> quote_free c -> mem 61%N s = false -> mem 61%N c = false ->
  kicad_schematic_tag
    (w ++ f ++ liquid_param (txt "style") s ++ liquid_param (txt "controls") c)
  = element f s c /\
  kicad_schematic_tag
    (w ++ f ++ liquid_param (txt "controls") c ++ liquid_param (txt "style") s)
  = element f s c.
Proof. exact (kicad_schematic_tag_two_params w f s c). Qed.

Lemma liquid_parameters_in_either_order_witness :
  kicad_schematic_tag
    (txt "amp.kicad_sch controls=" ++ DQ ++ txt "full" ++ DQ ++ txt " style="
       ++ DQ ++ txt "width: 800px;" ++ DQ)
  = element (txt "amp.kicad_sch") (txt "width: 800px;") (txt "full").
Proof.
  refine (proj2 (liquid_parameters_in_either_order [] (txt "amp.kicad_sch")
                   (txt "width: 800px;") (txt "full") _ _ _ _ _ _ _ _));
    try discriminate; try reflexivity; repeat constructor.
Defined.

(* ===================================================================== *)
(** * The three grammars agree *)
(* ===================================================================== *)

(** The directive returns one raw HTML node, whose text is the element
    for its first argument and the two options, an option that is empty
    counting as one that is not given. For a filename without white
    space and quote characters, and values without quote characters (the
    style without an equals sign), the Markdown call, the Liquid tag and
    the directive yield the same element. *)
Theorem three_grammars_one_element (f s c : str) :
  (forall more options,
     KiCadSchematicDirective.run (f :: more) options
     = Some [{| KiCadSchematicDirective.rawsource := [];
                KiCadSchematicDirective.text :=
                  element f
                    (get (KiCadSchematicDirective.style options) [])
                    (get (KiCadSchematicDirective.controls options) []);
                KiCadSchematicDirective.format := txt "html" |}]) /\
  KiCadSchematicDirective.run [f]
    {| KiCadSchematicDirective.style := Some [];
       KiCadSchematicDirective.controls := Some [] |}
  = KiCadSchematicDirective.run [f]
      {| KiCadSchematicDirective.style := None;
         KiCadSchematicDirective.controls := None |} /\
  (f <> [] -> run_of NotSpace f -> quote_free f ->
   quote_free s -> quote_free c -> mem 61%N s = false ->
   run [options_call f (Some s) (Some c)] = [element f s c] /\
   kicad_schematic_tag
     (f ++ liquid_param (txt "style") s ++ liquid_param (txt "controls") c)
   = element f s c /\
   option_map (map KiCadSchematicDirective.text)
     (KiCadSchematicDirective.run [f]
        {| KiCadSchematicDirective.style := Some s;
           KiCadSchematicDirective.controls := Some c |})
   = Some [element f s c]).
Proof.
  split; [reflexivity|]. split; [reflexivity|].
  intros Hne Hf Hqf Hs Hc Hes. split; [|split].
  - now apply (run_options_call f (Some s) (Some c)).
  - unfold kicad_schematic_tag.
    destruct (LIQUID_FILENAME_some [] f
                (liquid_param (txt "style") s ++ liquid_param (txt "controls") c)
                (Forall_nil _) Hf Hne eq_refl) as (fm & E & Eg).
    cbn [app] in E. rewrite E, Eg. cbn [get].
    rewrite (search_value (txt "style") _ s).
    + rewrite (search_value (txt "controls") _ c); [reflexivity | |].
      * replace (f ++ liquid_param (txt "style") s
                   ++ liquid_param (txt "controls") c)
          with ((f ++ liquid_param (txt "style") s)
                  ++ liquid_param (txt "controls") c ++ [])
          by (rewrite app_nil_r; now repeat rewrite <- app_assoc).
        apply liquid_param_found; [repeat constructor | exact Hc].
      * exact (second_param_value [] f (txt "styl") 101%N (txt "control")
                 115%N s c (Forall_nil _) Hqf ltac:(repeat constructor)
                 ltac:(repeat constructor) eq_refl eq_refl Hs Hc Hes).
    + apply (liquid_param_found (txt "style") s f);
        [repeat constructor | exact Hs].
    + exact (first_param_value [] f (txt "styl") 101%N (txt "control")
               115%N s c (Forall_nil _) Hqf ltac:(repeat constructor)
               ltac:(repeat constructor) eq_refl eq_refl Hs Hc Hes).
  - reflexivity.
Qed.

Lemma three_grammars_one_element_witness :
  let e := element (txt "amp.kicad_sch") (txt "height: 400px;") (txt "basic") in
  run [txt "{{ kicad_schematic(" ++ DQ ++ txt "amp.kicad_sch" ++ DQ
         ++ txt ", style=" ++ DQ ++ txt "height: 400px;" ++ DQ
         ++ txt ", controls=" ++ DQ ++ txt "basic" ++ DQ ++ txt ") }}"]
  = [e] /\
  kicad_schematic_tag
    (txt "amp.kicad_sch style=" ++ DQ ++ txt "height: 400px;" ++ DQ
       ++ txt " controls=" ++ DQ ++ txt "basic" ++ DQ)
  = e.
Proof.
  cbv zeta.
  assert (Hf : run_of NotSpace (txt "amp.kicad_sch")) by repeat constructor.
  assert (Hqf : quote_free (txt "amp.kicad_sch")) by repeat constructor.
  assert (Hs : quote_free (txt "height: 400px;")) by repeat constructor.
  assert (Hc : quote_free (txt "basic")) by repeat constructor.
  destruct (proj2 (proj2 (three_grammars_one_element (txt "amp.kicad_sch")
                            (txt "height: 400px;") (txt "basic")))
              ltac:(discriminate) Hf Hqf Hs Hc eq_refl)
    as (H1 & H2 & _).
  split; [exact H1 | exact H2].
Defined.

(* ===================================================================== *)
(** * Registration with Pelican *)
(* ===================================================================== *)

Section DictFacts.

Variable V : Type.

Implicit Types (d : Registration.Dict V) (key : str) (v : V).

Lemma str_eqb_refl (a : str) : str_eqb a a = true.
Proof. now apply str_eqb_eq. Qed.

Lemma str_eqb_neq (a b : str) : a <> b -> str_eqb a b = false.
Proof.
  intro H. destruct (str_eqb a b) eqn:E; [|reflexivity].
  apply str_eqb_eq in E. contradiction.
Qed.

Lemma dict_get_set_same d key v :
  Registration.dict_get (Registration.dict_set d key v) key = Some v.
Proof.
  induction d as [|[k x] d IH]; simpl.
  - now rewrite str_eqb_refl.
  - destruct (str_eqb key k) eqn:E; simpl; rewrite E; [reflexivity | exact IH].
Qed.

Lemma dict_get_set_other d key key' v :
  key' <> key ->
  Registration.dict_get (Registration.dict_set d key v) key'
  = Registration.dict_get d key'.
Proof.
  intro H. induction d as [|[k x] d IH]; simpl.
  - now rewrite str_eqb_neq.
  - destruct (str_eqb key k) eqn:E; simpl.
    + apply str_eqb_eq in E. subst k. now rewrite str_eqb_neq.
    + destruct (str_eqb key' k); [reflexivity | exact IH].
Qed.

Lemma dict_set_set d key v v' :
  Registration.dict_set (Registration.dict_set d key v) key v'
  = Registration.dict_set d key v'.
Proof.
  induction d as [|[k x] d IH]; simpl.
  - now rewrite str_eqb_refl.
  - destruct (str_eqb key k) eqn:E; simpl; rewrite E; [reflexivity|].
    now rewrite IH.
Qed.

(** Setting an entry keeps the keys in their order; a new key comes
    last. *)
Lemma dict_set_keys d key v :
  map fst (Registration.dict_set d key v)
  = match Registration.dict_get d key with
    | Some _ => map fst d
    | None => map fst d ++ [key]
    end.
Proof.
  induction d as [|[k x] d IH]; simpl; [reflexivity|].
  destruct (str_eqb key k) eqn:E; simpl; [reflexivity|].
  rewrite IH. now destruct (Registration.dict_get d key).
Qed.

End DictFacts.

(** [add_jinja2_globals] on an object with settings: afterwards the
    [JINJA_GLOBALS] dictionary maps [kicad_schematic] to the template
    function and every other name to what it held before; the other
    settings are unchanged, the module's [_pelican_settings] is the
    object's settings, and calling the function again changes nothing.
    The globals of an environment that is present get the same entry; an
    environment that is missing or [None] stays so. Without settings the
    module's [_pelican_settings] keeps its value. *)
Theorem add_jinja2_globals_registers
    (pelican_object : Registration.Pelican)
    (_pelican_settings : option Registration.PelicanSettings) :
  let res := Registration.add_jinja2_globals pelican_object _pelican_settings in
  (forall st,
     Registration.settings pelican_object = Some st ->
     exists st' jg,
       Registration.settings (fst res) = Some st' /\ snd res = Some st' /\
       Registration.plugin st' = Registration.plugin st /\
       Registration.MARKDOWN st' = Registration.MARKDOWN st /\
       Registration.JINJA_GLOBALS st' = Some jg /\
       Registration.dict_get jg (txt "kicad_schematic")
       = Some Registration.kicad_schematic_function /\
       (forall key,
          key <> txt "kicad_schematic" ->
          Registration.dict_get jg key
          = Registration.dict_get (get (Registration.JINJA_GLOBALS st) []) key)) /\
  (Registration.settings pelican_object = None ->
   Registration.settings (fst res) = None /\ snd res = _pelican_settings) /\
  (forall e,
     Registration.env pelican_object = Some (Some e) ->
     exists e',
       Registration.env (fst res) = Some (Some e') /\
       Registration.dict_get (Registration.globals e') (txt "kicad_schematic")
       = Some Registration.kicad_schematic_function /\
       (forall key,
          key <> txt "kicad_schematic" ->
          Registration.dict_get (Registration.globals e') key
          = Registration.dict_get (Registration.globals e) key)) /\
  (Registration.env pelican_object = None \/
   Registration.env pelican_object = Some None ->
   Registration.env (fst res) = Registration.env pelican_object) /\
  Registration.add_jinja2_globals (fst res) (snd res) = res.
Proof.
  cbv zeta. unfold Registration.add_jinja2_globals.
  destruct pelican_object as [[st|] en]; cbn [Registration.settings
    Registration.env fst snd].
  - split; [|split; [|split; [|split]]].
    + intros st0 E. injection E as <-. eexists _, _.
      split; [reflexivity|]. split; [reflexivity|].
      cbn [Registration.plugin Registration.MARKDOWN Registration.JINJA_GLOBALS].
      split; [reflexivity|]. split; [reflexivity|]. split; [reflexivity|].
      split; [apply dict_get_set_same|].
      intros key Hk. now apply dict_get_set_other.
    + discriminate.
    + intros e E. subst en. eexists. split; [reflexivity|].
      cbn [Registration.globals].
      split; [apply dict_get_set_same|].
      intros key Hk. now apply dict_get_set_other.
    + intros [E | E]; subst en; reflexivity.
    + cbn [Registration.plugin Registration.MARKDOWN
             Registration.JINJA_GLOBALS get].
      rewrite dict_set_set.
      destruct en as [[e|]|]; cbn [Registration.globals];
        rewrite ?dict_set_set; reflexivity.
  - split; [|split; [|split; [|split]]].
    + discriminate.
    + intros _. now split.
    + intros e E. subst en. eexists. split; [reflexivity|].
      cbn [Registration.globals].
      split; [apply dict_get_set_same|].
      intros key Hk. now apply dict_get_set_other.
    + intros [E | E]; subst en; reflexivity.
    + destruct en as [[e|]|]; cbn [Registration.globals];
        rewrite ?dict_set_set; reflexivity.
Qed.

Lemma add_jinja2_globals_registers_witness :
  let st := {| Registration.plugin := empty_settings;
               Registration.JINJA_GLOBALS :=
                 Some [(txt "site", Registration.other_global 1)];
               Registration.MARKDOWN := None |} in
  let obj := {| Registration.settings := Some st;
                Registration.env := Some None |} in
  exists st' jg,
    snd (Registration.add_jinja2_globals obj None) = Some st' /\
    Registration.JINJA_GLOBALS st' = Some jg /\
    Registration.dict_get jg (txt "kicad_schematic")
    = Some Registration.kicad_schematic_function /\
    Registration.dict_get jg (txt "site") = Some (Registration.other_global 1).
Proof.
  cbv zeta.
  destruct (proj1 (add_jinja2_globals_registers
                     {| Registration.settings :=
                          Some {| Registration.plugin := empty_settings;
                                  Registration.JINJA_GLOBALS :=
                                    Some [(txt "site",
                                           Registration.other_global 1)];
                                  Registration.MARKDOWN := None |};
                        Registration.env := Some None |} None) _ eq_refl)
    as (st' & jg & _ & E1 & _ & _ & E2 & E3 & E4).
  exists st', jg. split; [exact E1|]. split; [exact E2|].
  split; [exact E3|]. rewrite E4 by discriminate. reflexivity.
Defined.

Section MarkdownRegistrationFacts.

(** The Markdown configuration that [register_markdown_extension]
    leaves: other entries as they were, and under [extensions] the list
    that was configured, with the new object behind it unless the list
    holds it already. *)
Lemma register_markdown_extension_settings
    (pelican_object : Registration.Pelican) (ext_instance : nat)
    (st : Registration.PelicanSettings) :
  Registration.settings pelican_object = Some st ->
  let old := Registration.configured_extensions (Registration.MARKDOWN st) in
  exists md',
    Registration.register_markdown_extension pelican_object ext_instance
    = Some {| Registration.settings :=
                Some {| Registration.plugin := Registration.plugin st;
                        Registration.JINJA_GLOBALS :=
                          Registration.JINJA_GLOBALS st;
                        Registration.MARKDOWN := Some md' |};
              Registration.env := Registration.env pelican_object |} /\
    (forall key,
       key <> txt "extensions" ->
       Registration.dict_get md' key
       = Registration.dict_get (get (Registration.MARKDOWN st) []) key) /\
    Registration.dict_get md' (txt "extensions")
    = Some (Registration.ListOf
              (if Registration.entry_in (Registration.Object ext_instance) old
               then old
               else old ++ [Registration.Object ext_instance])).
Proof.
  intros Hs old. unfold Registration.register_markdown_extension.
  rewrite Hs. unfold old, Registration.configured_extensions.
  set (md := get (Registration.MARKDOWN st) []).
  destruct (Registration.dict_get md (txt "extensions")) as [[v|l]|] eqn:E.
  - rewrite dict_get_set_same.
    destruct (Registration.entry_in (Registration.Object ext_instance) [v]);
      eexists; (split; [reflexivity|]); rewrite ?dict_set_set;
      (split; [intros key Hk; now rewrite dict_get_set_other
              | apply dict_get_set_same]).
  - rewrite E.
    destruct (Registration.entry_in (Registration.Object ext_instance) l);
      eexists; (split; [reflexivity|]).
    + split; [reflexivity | exact E].
    + split; [intros key Hk; now rewrite dict_get_set_other
             | apply dict_get_set_same].
  - rewrite dict_get_set_same. cbn [Registration.entry_in existsb app].
    eexists. split; [reflexivity|]. rewrite dict_set_set.
    split; [intros key Hk; now rewrite dict_get_set_other
           | apply dict_get_set_same].
Qed.

Lemma entry_in_app (x : Registration.Entry) (a b : list Registration.Entry) :
  Registration.entry_in x (a ++ b)
  = Registration.entry_in x a || Registration.entry_in x b.
Proof. apply existsb_app. Qed.

End MarkdownRegistrationFacts.

(** [register_markdown_extension] keeps the extensions that were
    configured, in their order (a value that is not a list counts as a
    list of that one value, a missing entry as the empty list), and puts
    the new extension object behind them; the other entries of the
    Markdown configuration and the other settings stay as they are. The
    object it creates is a new one each time, so a second call adds a
    second extension object. *)
Theorem markdown_extension_appended
    (pelican_object : Registration.Pelican)
    (st : Registration.PelicanSettings) (ext_instance : nat) :
  Registration.settings pelican_object = Some st ->
  let old := Registration.configured_extensions (Registration.MARKDOWN st) in
  Registration.entry_in (Registration.Object ext_instance) old = false ->
  exists obj' st' md',
    Registration.register_markdown_extension pelican_object ext_instance
    = Some obj' /\
    Registration.settings obj' = Some st' /\
    Registration.env obj' = Registration.env pelican_object /\
    Registration.plugin st' = Registration.plugin st /\
    Registration.JINJA_GLOBALS st' = Registration.JINJA_GLOBALS st /\
    Registration.MARKDOWN st' = Some md' /\
    (forall key,
       key <> txt "extensions" ->
       Registration.dict_get md' key
       = Registration.dict_get (get (Registration.MARKDOWN st) []) key) /\
    Registration.dict_get md' (txt "extensions")
    = Some (Registration.ListOf (old ++ [Registration.Object ext_instance])) /\
    (forall second_instance,
       second_instance <> ext_instance ->
       Registration.entry_in (Registration.Object second_instance) old = false ->
       exists obj'' st'',
         Registration.register_markdown_extension obj' second_instance
         = Some obj'' /\
         Registration.settings obj'' = Some st'' /\
         Registration.configured_extensions (Registration.MARKDOWN st'')
         = old ++ [Registration.Object ext_instance;
                   Registration.Object second_instance]).
Proof.
  intros Hs old Hfresh.
  destruct (register_markdown_extension_settings pelican_object ext_instance
              st Hs) as (md' & E & Hother & Hext).
  fold old in Hext. rewrite Hfresh in Hext.
  eexists _, _, md'. split; [exact E|].
  cbn [Registration.settings Registration.env Registration.plugin
       Registration.JINJA_GLOBALS Registration.MARKDOWN].
  repeat (split; [reflexivity|]). split; [exact Hother|].
  split; [exact Hext|].
  intros second Hne Hfresh2.
  destruct (register_markdown_extension_settings
              {| Registration.settings :=
                   Some {| Registration.plugin := Registration.plugin st;
                           Registration.JINJA_GLOBALS :=
                             Registration.JINJA_GLOBALS st;
                           Registration.MARKDOWN := Some md' |};
                 Registration.env := Registration.env pelican_object |}
              second _ eq_refl) as (md'' & E2 & _ & Hext2).
  cbn [Registration.MARKDOWN Registration.plugin Registration.JINJA_GLOBALS
       Registration.env Registration.settings] in E2, Hext2.
  unfold Registration.configured_extensions in Hext2 at 1 2 3.
  cbn [get] in Hext2. rewrite Hext in Hext2.
  rewrite entry_in_app, Hfresh2 in Hext2.
  cbn [Registration.entry_in existsb Registration.entry_eqb orb] in Hext2.
  replace (Nat.eqb ext_instance second) with false in Hext2
    by (symmetry; apply Nat.eqb_neq; congruence).
  eexists _, _. split; [exact E2|].
  cbn [Registration.settings]. split; [reflexivity|].
  unfold Registration.configured_extensions.
  cbn [Registration.MARKDOWN get]. rewrite Hext2.
  now rewrite <- app_assoc.
Qed.

Lemma markdown_extension_appended_witness :
  let st := {| Registration.plugin := empty_settings;
               Registration.JINJA_GLOBALS := None;
               Registration.MARKDOWN :=
                 Some [(txt "extensions",
                        Registration.Single (Registration.Name (txt "extra")))]
            |} in
  let obj := {| Registration.settings := Some st;
                Registration.env := None |} in
  exists obj' st' md',
    Registration.register_markdown_extension obj 7 = Some obj' /\
    Registration.settings obj' = Some st' /\
    Registration.MARKDOWN st' = Some md' /\
    Registration.dict_get md' (txt "extensions")
    = Some (Registration.ListOf
              [Registration.Name (txt "extra"); Registration.Object 7]).
Proof.
  cbv zeta.
  destruct (markdown_extension_appended
              {| Registration.settings :=
                   Some {| Registration.plugin := empty_settings;
                           Registration.JINJA_GLOBALS := None;
                           Registration.MARKDOWN :=
                             Some [(txt "extensions",
                                    Registration.Single
                                      (Registration.Name (txt "extra")))] |};
                 Registration.env := None |} _ 7 eq_refl eq_refl)
    as (obj' & st' & md' & E1 & E2 & _ & _ & _ & E3 & _ & E4 & _).
  exists obj', st', md'. repeat split; assumption.
Defined.

(* ===================================================================== *)
(** * Searching a text that goes on without a match *)
(* ===================================================================== *)

Section SearchAppendFacts.

Variable ic : bool.
Variable r : re.
Hypothesis Hbos : no_bos r = true.
Hypothesis Hempty : ~ matches ic r [].

Lemma search_from_none total : forall s,
  (forall p t, s = p ++ t -> match_here ic total r t = None) ->
  search_from ic total r s = None.
Proof.
  induction s as [|c s IH]; intro H; simpl.
  - now rewrite (H [] [] eq_refl).
  - rewrite (H [] (c :: s) eq_refl). apply IH.
    intros p t ->. now apply (H (c :: p) t).
Qed.

(** When no match ends inside the last part [cand] of a text, or at its
    end, the search finds what it finds without [cand]. *)
Lemma search_from_append t1 t2 (cand : str) : forall pre,
  (forall p1 x l,
     pre ++ cand = p1 ++ x ++ l -> matches ic r x -> length cand <= length l) ->
  search_from ic t1 r (pre ++ cand) = search_from ic t2 r pre.
Proof.
  induction pre as [|c pre IH]; intro H.
  - simpl app.
    replace (search_from ic t2 r []) with (@None Match).
    + apply search_from_none. intros p t ->.
      destruct (match_here ic t1 r t) as [[mo rest]|] eqn:E; [|reflexivity].
      exfalso. destruct (match_here_sound _ _ _ _ _ _ E) as [E1 Hm].
      pose proof (match_here_nonempty ic r Hempty _ _ _ _ E) as Hne.
      assert (Hl := H p (group0 mo) rest).
      simpl app in Hl. rewrite <- E1 in Hl. specialize (Hl eq_refl Hm).
      rewrite length_app, E1, length_app in Hl.
      destruct (group0 mo); [congruence | simpl in Hl; lia].
    + simpl. destruct (match_here ic t2 r []) as [[mo rest]|] eqn:E;
        [|reflexivity].
      exfalso. apply (match_here_nonempty ic r Hempty _ _ _ _ E).
      destruct (match_here_sound _ _ _ _ _ _ E) as [E1 _].
      symmetry in E1. now apply app_eq_nil in E1.
  - simpl app. simpl search_from.
    pose proof (match_here_append ic r Hbos t1 t2 (c :: pre) cand (H [])) as Hm.
    simpl app in Hm. rewrite Hm.
    destruct (match_here ic t2 r (c :: pre)) as [[mo rest]|]; [reflexivity|].
    simpl. apply IH. intros p1 x l E. apply (H (c :: p1) x l).
    simpl. now rewrite E.
Qed.

End SearchAppendFacts.

(* ===================================================================== *)
(** * Grammar C: a parameter whose quote is not closed *)
(* ===================================================================== *)

Section UnclosedParameterFacts.

Lemma LIQUID_PARAM_matches_structure (key x : str) :
  matches true (LIQUID_PARAM key) x ->
  exists kt ws1 ws2 q1 v q2,
    x = (kt ++ ws1 ++ 61%N :: ws2) ++ q1 :: v ++ [q2] /\
    lit_text true key kt /\ spaces ws1 /\ spaces ws2 /\
    is_quote q1 = true /\ is_quote q2 = true /\ quote_free v.
Proof.
  unfold LIQUID_PARAM. simpl.
  intros (a1 & t1 & -> & Hk & a2 & t2 & -> & [Hw1 _]
          & a3 & t3 & -> & He & a4 & t4 & -> & [Hw2 _]
          & a5 & t5 & -> & (q1 & -> & Hq1)
          & v & a7 & -> & [Hv _] & (q2 & -> & Hq2)).
  apply (lit_text_exact true (txt "=") eq_refl) in He. subst a3.
  exists a1, a2, a4, q1, v, q2.
  split; [now repeat (rewrite <- app_assoc; simpl)|].
  repeat split; assumption.
Qed.

Lemma LIQUID_PARAM_nonempty (key : str) : ~ matches true (LIQUID_PARAM key) [].
Proof.
  intro H. apply LIQUID_PARAM_matches_structure in H
    as (kt & ws1 & ws2 & q1 & v & q2 & E & _).
  apply (f_equal (@length char)) in E. rewrite !length_app in E.
  simpl in E. lia.
Qed.

Lemma lit_text_rev ic (p x : str) :
  lit_text ic p x -> lit_text ic (rev p) (rev x).
Proof.
  induction 1 as [|c d p x Hcd _ IH]; [constructor|].
  simpl. apply Forall2_app; [exact IH | now repeat constructor].
Qed.

Lemma quote_free_rev (s : str) : quote_free s -> quote_free (rev s).
Proof. apply Forall_rev. Qed.

Lemma from_first_quote_app (l : str) (q : char) (r : str) :
  quote_free l -> is_quote q = true -> from_first_quote (l ++ q :: r) = q :: r.
Proof.
  intros Hl Hq. induction l as [|d l IH]; simpl.
  - now rewrite Hq.
  - apply quote_free_cons in Hl as [Hd Hl]. rewrite Hd. now apply IH.
Qed.

(** A text whose last quote character follows a parameter opening. *)
Lemma opens_parameter_intro (p : str) (c : char)
    (pre kt ws1 ws2 : str) (q1 : char) (h2 : str) :
  is_space c = false ->
  lit_text true (p ++ [c]) kt -> spaces ws1 -> spaces ws2 ->
  is_quote q1 = true -> quote_free h2 ->
  opens_parameter (p ++ [c])
    ((pre ++ kt ++ ws1 ++ 61%N :: ws2) ++ q1 :: h2) = true.
Proof.
  intros Hc Hk Hw1 Hw2 Hq Hh. unfold opens_parameter.
  rewrite rev_app_distr. simpl rev at 1. rewrite <- app_assoc. simpl app at 2.
  rewrite from_first_quote_app by (try apply quote_free_rev; assumption).
  replace (rev (pre ++ kt ++ ws1 ++ 61%N :: ws2))
    with (rev ws2 ++ 61%N :: rev ws1 ++ rev kt ++ rev pre)
    by (rewrite !rev_app_distr; simpl; repeat (rewrite <- app_assoc; simpl);
        reflexivity).
  rewrite skip_spaces_run by (try apply Forall_rev; auto).
  rewrite char_eqb_refl. simpl andb.
  assert (Hr0 := lit_text_rev true _ _ Hk).
  assert (Hr := Hr0). rewrite rev_app_distr in Hr. simpl in Hr.
  rewrite skip_spaces_run.
  - now rewrite (strip_complete true _ _ _ Hr0).
  - now apply Forall_rev.
  - destruct (rev kt) as [|d rk]; [inversion Hr|].
    inversion Hr as [|? ? ? ? Hd Hrest]; subst. simpl.
    apply negb_true_iff. now apply (lit_match_space true c d).
Qed.

(** A quote character in a text that ends with a quote and a text
    without one stands at or before that quote. *)
Lemma last_quote_split (a : str) (q2 : char) (l b : str) (q : char)
    (tail : str) :
  quote_free tail -> is_quote q2 = true ->
  a ++ q2 :: l = b ++ q :: tail ->
  (a = b /\ q2 = q /\ l = tail) \/
  (exists l', l = l' ++ q :: tail /\ b = a ++ q2 :: l').
Proof.
  intros Ht Hq E. apply (f_equal (@rev char)) in E.
  rewrite !rev_app_distr in E. simpl in E. rewrite <- !app_assoc in E.
  simpl in E.
  destruct (first_quote_split _ _ _ _ _ _ (quote_free_rev _ Ht) Hq E)
    as [(E1 & E2 & E3) | (a' & E1 & E2)].
  - left. apply (f_equal (@rev char)) in E1, E3.
    rewrite !rev_involutive in E1, E3. now subst.
  - right. exists (rev a'). apply (f_equal (@rev char)) in E1, E2.
    rewrite !rev_involutive in E1, E2. rewrite E1, E2.
    rewrite !rev_app_distr. simpl. rewrite !rev_involutive.
    split; now repeat (rewrite <- app_assoc; simpl).
Qed.

Variables (p : str) (c : char) (head o : str) (q : char) (tail : str).

Hypothesis Hc : is_space c = false.
Hypothesis Ho : quote_free o.
Hypothesis Hq : is_quote q = true.
Hypothesis Ht : quote_free tail.
Hypothesis Hopen : opens_parameter (p ++ [c]) head = false.

(** No match of the parameter pattern ends in the text behind [head]. *)
Lemma no_match_reaches_tail (p1 x l : str) :
  head ++ o ++ q :: tail = p1 ++ x ++ l ->
  matches true (LIQUID_PARAM (p ++ [c])) x ->
  length (o ++ q :: tail) <= length l.
Proof.
  intros E Hm.
  destruct (LIQUID_PARAM_matches_structure _ _ Hm)
    as (kt & ws1 & ws2 & q1 & v & q2 & -> & Hk & Hw1 & Hw2 & Hq1 & Hq2 & Hv).
  destruct (Nat.le_gt_cases (length (o ++ q :: tail)) (length l)) as [|Hlt];
    [assumption | exfalso].
  assert (E' : ((p1 ++ kt ++ ws1 ++ 61%N :: ws2) ++ q1 :: v) ++ q2 :: l
               = (head ++ o) ++ q :: tail).
  { transitivity (head ++ o ++ q :: tail); [|now rewrite <- app_assoc].
    rewrite E. repeat (rewrite <- app_assoc; simpl). reflexivity. }
  destruct (last_quote_split _ _ _ _ _ _ Ht Hq2 E')
    as [(E1 & _ & _) | (l' & -> & E1)].
  - apply app_eq_app in E1 as (z & [[_ E2] | [E1 E2]]).
    + rewrite E2 in Ho. now apply (quote_free_no_quote _ _ _ Ho).
    + destruct z as [|q1' z].
      * simpl in E2. rewrite <- E2 in Ho.
        now apply (quote_free_no_quote [] _ _ Ho).
      * simpl in E2. injection E2 as Eq E2. subst q1'.
        assert (Hz : quote_free z).
        { rewrite E2 in Hv. now apply quote_free_app in Hv as [Hv _]. }
        pose proof (opens_parameter_intro p c p1 kt ws1 ws2 q1 z Hc Hk Hw1
                      Hw2 Hq1 Hz) as Hin.
        assert (Hin' : opens_parameter (p ++ [c]) head = true)
          by (rewrite E1; exact Hin).
        congruence.
  - rewrite ?length_app in Hlt. simpl in Hlt. rewrite ?length_app in Hlt.
    simpl in Hlt.
    apply app_eq_app in E1 as (z & [[_ E2] | [_ E2]]).
    + destruct z as [|d z].
      * simpl in E2. rewrite <- E2 in Ho.
        now apply (quote_free_no_quote [] _ _ Ho).
      * apply (f_equal (@length char)) in E2.
        simpl in E2. rewrite length_app in E2. lia.
    + rewrite E2 in Ho. now apply (quote_free_no_quote _ _ _ Ho).
Qed.

Lemma re_search_without_tail :
  re_search true (LIQUID_PARAM (p ++ [c])) (head ++ o ++ q :: tail)
  = re_search true (LIQUID_PARAM (p ++ [c])) head.
Proof.
  unfold re_search.
  apply (search_from_append true (LIQUID_PARAM (p ++ [c])) eq_refl
           (LIQUID_PARAM_nonempty _)).
  exact no_match_reaches_tail.
Qed.

End UnclosedParameterFacts.

Section FoundParameterFacts.

(** A character that a literal of a pattern matches is a quote character
    only if the literal is. *)
Lemma lit_match_quote ic c d :
  lit_match ic c d = true -> is_quote c = false -> is_quote d = false.
Proof.
  unfold lit_match. intros H Hc.
  destruct (ic && is_ascii_letter c) eqn:E.
  - apply andb_true_iff in E as [_ El]. clear Hc.
    assert (Hd : (65 <= d <= 90 \/ 97 <= d <= 122 \/ d = 304 \/ d = 8490
                  \/ d = 305 \/ d = 383)%N).
    { assert (Hlo : (97 <= ascii_lower c <= 122)%N).
      { unfold is_ascii_letter, ascii_lower in *.
        destruct (N.leb_spec 65 c), (N.leb_spec c 90); simpl in *; try lia;
          destruct (N.leb_spec 97 c), (N.leb_spec c 122); simpl in *;
          try discriminate; lia. }
      apply orb_true_iff in H as [H | H].
      - apply N.eqb_eq in H. rewrite <- H in Hlo. unfold sre_lower in Hlo.
        destruct (N.leb_spec 65 d), (N.leb_spec d 90); simpl in Hlo; try lia;
          destruct (N.eqb_spec d 304); try lia;
          destruct (N.eqb_spec d 8490); lia.
      - unfold casefix in H.
        destruct (N.eqb_spec d 305); [lia|].
        destruct (N.eqb_spec d 383); [lia|].
        rewrite !andb_false_r in H. discriminate. }
    unfold is_quote. simpl. unfold char_eqb.
    destruct (N.eqb_spec d 34); [lia|].
    destruct (N.eqb_spec d 39); [lia|]. reflexivity.
  - apply N.eqb_eq in H. now subst d.
Qed.

Lemma lit_text_quote_free ic (p x : str) :
  lit_text ic p x -> quote_free p -> quote_free x.
Proof.
  induction 1 as [|c d p x Hcd _ IH]; intro Hp; [constructor|].
  apply quote_free_cons in Hp as [Hc Hp]. constructor; [|now apply IH].
  simpl. apply negb_true_iff.
  change (is_quote d = false). now apply (lit_match_quote ic c d).
Qed.

Variable key : str.
Hypothesis Hkey : quote_free key.

(** In a text with two quote characters and none between them, a match
    of the parameter pattern from the start ends at the second of them
    or before it. *)
Lemma LIQUID_PARAM_ends_by_second_quote (B : str) (q1 : char) (v : str)
    (q2 : char) (T x l : str) :
  is_quote q1 = true -> is_quote q2 = true -> quote_free v ->
  B ++ q1 :: v ++ q2 :: T = x ++ l ->
  matches true (LIQUID_PARAM key) x ->
  length T <= length l.
Proof.
  intros Hq1 Hq2 Hv E Hm.
  destruct (LIQUID_PARAM_matches_structure _ _ Hm)
    as (kt & ws1 & ws2 & p1 & u & p2 & -> & Hk & Hw1 & Hw2 & Hp1 & Hp2 & Hu).
  assert (HA : quote_free (kt ++ ws1 ++ 61%N :: ws2)).
  { apply quote_free_app. split; [now apply (lit_text_quote_free true key)|].
    apply quote_free_app. split; [now apply spaces_quote_free|].
    constructor; [reflexivity | now apply spaces_quote_free]. }
  assert (E' : B ++ q1 :: v ++ q2 :: T
               = (kt ++ ws1 ++ 61%N :: ws2) ++ p1 :: u ++ p2 :: l).
  { etransitivity; [exact E|]. repeat (rewrite <- app_assoc; simpl).
    reflexivity. }
  destruct (first_quote_split _ _ _ _ _ _ HA Hq1 E')
    as [(_ & _ & E2) | (a' & _ & E2)].
  - destruct (first_quote_split _ _ _ _ _ _ Hu Hq2 E2)
      as [(_ & _ & E3) | (a'' & E3 & _)].
    + rewrite E3. lia.
    + exfalso. rewrite E3 in Hv. now apply (quote_free_no_quote _ _ _ Hv).
  - symmetry in E2.
    destruct (first_quote_split _ _ _ _ _ _ Hu Hq1 E2)
      as [(_ & _ & E3) | (a'' & _ & E3)].
    + rewrite <- E3, length_app. simpl. lia.
    + rewrite E3, length_app. simpl. rewrite length_app. simpl. lia.
Qed.

(** A parameter that the search finds in a text is the one it finds
    in every text that goes on from it. *)
Lemma LIQUID_PARAM_found_append (ext : str) (t1 t2 : nat) : forall head mo,
  search_from true t2 (LIQUID_PARAM key) head = Some mo ->
  search_from true t1 (LIQUID_PARAM key) (head ++ ext) = Some mo.
Proof.
  induction head as [|c h IH]; intros mo H.
  - exfalso. simpl in H.
    destruct (match_here true t2 (LIQUID_PARAM key) []) as [[mo' rest]|] eqn:E;
      [|discriminate].
    apply (match_here_nonempty true _ (LIQUID_PARAM_nonempty key) _ _ _ _ E).
    destruct (match_here_sound _ _ _ _ _ _ E) as [E1 _].
    symmetry in E1. now apply app_eq_nil in E1.
  - destruct (search_from_sound _ _ _ _ _ H) as (pre & x0 & post & E0 & Hm0).
    destruct (LIQUID_PARAM_matches_structure _ _ Hm0)
      as (kt & ws1 & ws2 & q1 & v & q2 & -> & Hk & Hw1 & Hw2 & Hq1 & Hq2 & Hv).
    assert (Hloc : forall x l,
               (c :: h) ++ ext = x ++ l ->
               matches true (LIQUID_PARAM key) x ->
               length ext <= length l).
    { intros x l E Hm.
      assert (E' : (pre ++ kt ++ ws1 ++ 61%N :: ws2) ++ q1 :: v ++ q2
                     :: post ++ ext = x ++ l).
      { rewrite <- E, E0. repeat (rewrite <- app_assoc; simpl). reflexivity. }
      pose proof (LIQUID_PARAM_ends_by_second_quote _ _ _ _ _ _ _
                    Hq1 Hq2 Hv E' Hm) as Hl.
      rewrite length_app in Hl. lia. }
    pose proof (match_here_append true (LIQUID_PARAM key) eq_refl t1 t2
                  (c :: h) ext Hloc) as Ha.
    simpl in H. simpl app. simpl search_from. simpl app in Ha. rewrite Ha.
    destruct (match_here true t2 (LIQUID_PARAM key) (c :: h))
      as [[mo' rest]|]; simpl.
    + exact H.
    + now apply IH.
Qed.

Lemma re_search_found_append (head ext : str) (mo : Match) :
  re_search true (LIQUID_PARAM key) head = Some mo ->
  re_search true (LIQUID_PARAM key) (head ++ ext) = Some mo.
Proof. unfold re_search. apply LIQUID_PARAM_found_append. Qed.

End FoundParameterFacts.

Section OpenedParameterFacts.

Lemma from_first_quote_spec (s : str) :
  from_first_quote s = [] \/
  exists l q r,
    s = l ++ q :: r /\ quote_free l /\ is_quote q = true /\
    from_first_quote s = q :: r.
Proof.
  induction s as [|d s IH]; [now left|].
  simpl. destruct (is_quote d) eqn:Ed.
  - right. exists [], d, s. repeat split; [constructor | assumption].
  - destruct IH as [IH | (l & q & r & -> & Hl & Hq & E)]; [now left|].
    right. exists (d :: l), q, r. repeat split; try assumption.
    constructor; [|exact Hl]. simpl. apply negb_true_iff. exact Ed.
Qed.

Lemma skip_spaces_spec (s : str) :
  exists w, s = w ++ skip_spaces s /\ spaces w.
Proof.
  induction s as [|d s (w & E & Hw)]; [exists []; split; [reflexivity | constructor]|].
  simpl. destruct (is_space d) eqn:Ed.
  - exists (d :: w). split; [simpl; now rewrite <- E | now constructor].
  - exists []. split; [reflexivity | constructor].
Qed.

(** A text for which [opens_parameter] holds ends with the key, an equals
    sign, a quote character and text without one. *)
Lemma opens_parameter_elim (key head : str) :
  opens_parameter key head = true ->
  exists pre kt ws1 ws2 q1 h2,
    head = (pre ++ kt ++ ws1 ++ 61%N :: ws2) ++ q1 :: h2 /\
    lit_text true key kt /\ spaces ws1 /\ spaces ws2 /\
    is_quote q1 = true /\ quote_free h2.
Proof.
  unfold opens_parameter. intro H.
  destruct (from_first_quote_spec (rev head))
    as [E | (l & q1 & r1 & Er & Hl & Hq & E)]; rewrite E in H;
    [discriminate|].
  destruct (skip_spaces_spec r1) as (w2 & E2 & Hw2).
  destruct (skip_spaces r1) as [|e r2]; [discriminate|].
  apply andb_true_iff in H as [He Hs].
  apply N.eqb_eq in He. subst e.
  destruct (skip_spaces_spec r2) as (w1 & E1 & Hw1).
  destruct (strip true (rev key) (skip_spaces r2)) as [r3|] eqn:Es;
    [|discriminate].
  destruct (strip_sound true _ _ _ Es) as (kr & Ek & Hk).
  exists (rev r3), (rev kr), (rev w1), (rev w2), q1, (rev l).
  split; [|repeat split].
  - rewrite <- (rev_involutive head), Er, E2, E1, Ek.
    repeat (rewrite rev_app_distr; simpl).
    repeat (rewrite <- app_assoc; simpl). reflexivity.
  - rewrite <- (rev_involutive key). now apply lit_text_rev.
  - now apply Forall_rev.
  - now apply Forall_rev.
  - exact Hq.
  - now apply quote_free_rev.
Qed.

(** The first quote character behind an opened parameter closes it. *)
Lemma opened_parameter_closed (key head o : str) (q : char) (tail : str) :
  opens_parameter key head = true -> quote_free o -> is_quote q = true ->
  re_search true (LIQUID_PARAM key) (head ++ o ++ q :: tail) <> None.
Proof.
  intros H Ho Hq.
  destruct (opens_parameter_elim _ _ H)
    as (pre & kt & ws1 & ws2 & q1 & h2 & -> & Hk & Hw1 & Hw2 & Hq1 & Hh).
  unfold re_search, str, char in *.
  replace (((pre ++ kt ++ ws1 ++ 61%N :: ws2) ++ q1 :: h2) ++ o ++ q :: tail)
    with (pre ++ (kt ++ ws1 ++ 61%N :: ws2 ++ q1 :: (h2 ++ o) ++ [q]) ++ tail)
    by (repeat (rewrite <- ?app_assoc; simpl; rewrite <- ?app_assoc); reflexivity).
  apply (search_from_complete true _ (LIQUID_PARAM key)
           (kt ++ ws1 ++ 61%N :: ws2 ++ q1 :: (h2 ++ o) ++ [q]) tail pre);
    [reflexivity|].
  unfold LIQUID_PARAM, ws0, quote, unquoted0. simpl.
  eexists kt, _. split; [reflexivity|]. split; [exact Hk|].
  eexists ws1, _. split; [reflexivity|].
  split; [split; [exact Hw1 | lia]|].
  eexists [61%N], _. split; [reflexivity|].
  split; [repeat constructor|].
  eexists ws2, _. split; [reflexivity|].
  split; [split; [exact Hw2 | lia]|].
  eexists [q1], _. split; [reflexivity|].
  split; [now exists q1|].
  exists (h2 ++ o), [q]. split; [reflexivity|].
  split; [split; [now apply quote_free_app | lia] | now exists q].
Qed.

End OpenedParameterFacts.

(** The value of one parameter is not disturbed by a quote character
    behind which no other follows, unless the quote in front of it opens
    that parameter and the parameter has no complete value before. *)
Lemma re_search_unclosed (key head o : str) (q : char) (tail : str) :
  key = txt "style" \/ key = txt "controls" ->
  quote_free o -> quote_free tail ->
  opens_parameter key head = false \/
  re_search true (LIQUID_PARAM key) head <> None ->
  re_search true (LIQUID_PARAM key) (head ++ o ++ q :: tail)
  = re_search true (LIQUID_PARAM key) head.
Proof.
  intros Hkey Ho Ht [Hopen | Hfound].
  - destruct Hkey as [-> | ->].
    + exact (re_search_without_tail (txt "styl") 101%N head o q tail
               eq_refl Ho Ht Hopen).
    + exact (re_search_without_tail (txt "control") 115%N head o q tail
               eq_refl Ho Ht Hopen).
  - destruct (re_search true (LIQUID_PARAM key) head) as [mo|] eqn:E;
      [|congruence].
    apply re_search_found_append; [|exact E].
    destruct Hkey as [-> | ->]; repeat constructor.
Qed.

(* ===================================================================== *)
(** * Grammar C: malformed markup *)
(* ===================================================================== *)




(* ===================================================================== *)
(** * Grammar A: a quoted call with its options *)
(* ===================================================================== *)

Section GivenOptionFacts.

Variable total : nat.
Variable A : Type.

Implicit Types (k : str -> groups -> option A) (g : groups).

(** No character is matched by both [s] and [c]. *)
Lemma lit_match_s_not_c (d : char) :
  lit_match true 115%N d = true -> lit_match true 99%N d = false.
Proof.
  unfold lit_match.
  change (is_ascii_letter 115%N) with true.
  change (is_ascii_letter 99%N) with true. cbn [andb].
  change (ascii_lower 115%N) with 115%N. change (ascii_lower 99%N) with 99%N.
  unfold casefix. change (99 =? 105)%N with false. change (99 =? 115)%N with false.
  change (115 =? 105)%N with false. change (115 =? 115)%N with true.
  cbn [andb orb]. rewrite orb_false_r. intro H.
  apply N.eqb_neq. intro E.
  apply orb_true_iff in H as [H | H]; apply N.eqb_eq in H.
  - congruence.
  - subst d. discriminate E.
Qed.

Lemma strip_comma_closing (w z : str) :
  spaces w -> strip true (txt ",") (w ++ txt ")" ++ z) = None.
Proof.
  intro Hw. destruct w as [|d w]; [reflexivity|].
  inversion Hw as [|? ? Hd _]; subst. simpl in Hd.
  change (txt ",") with [44%N]. cbn [app strip].
  replace (lit_match true 44%N d) with false; [reflexivity|].
  symmetry. unfold lit_match.
  change (true && is_ascii_letter 44%N) with false. cbv iota.
  apply N.eqb_neq. intros <-. discriminate.
Qed.

(** The text of an option is matched by the pattern of that option. *)
Lemma eval_option (key : str) (i : nat) (wa kt wb wc : str) (qo : char)
    (v : str) (qc : char) (s : str) g k (r : A) :
  spaces wa -> lit_text true key kt ->
  match key with [] => false | c :: _ => negb (is_space c) end = true ->
  spaces wb -> spaces wc -> is_quote qo = true -> is_quote qc = true ->
  run_of (NoneOf (DQ ++ SQ)) v ->
  k s ((i, v) :: g) = Some r ->
  m true total
    (seq [Str (txt ","); ws0; Str key; ws0; Str (txt "="); ws0; quote;
          Grp i unquoted0; quote])
    (option_text wa kt wb wc qo v qc ++ s) g k
  = Some r.
Proof.
  intros Hwa Hkt Hkey Hwb Hwc Hqo Hqc Hv Hk.
  replace (option_text wa kt wb wc qo v qc ++ s)
    with (txt "," ++ wa ++ kt ++ wb ++ txt "=" ++ wc ++ qo :: v ++ qc :: s)
    by (unfold option_text; repeat (rewrite <- app_assoc; simpl);
        reflexivity).
  unfold ws0, quote, unquoted0. cbn [seq].
  apply eval_Seq, eval_Str; [repeat constructor | cbv beta].
  apply eval_Seq, eval_Rep;
    [exact Hwa | lia | now apply (lit_text_ends_run true key) | cbv beta].
  apply eval_Seq, eval_Str; [exact Hkt | cbv beta].
  apply eval_Seq, eval_Rep; [exact Hwb | lia | reflexivity | cbv beta].
  apply eval_Seq, eval_Str; [repeat constructor | cbv beta].
  apply eval_Seq, eval_Rep;
    [exact Hwc | lia | simpl; now rewrite (is_quote_not_space _ Hqo)
    | cbv beta].
  apply eval_Seq, eval_Any; [exact Hqo | cbv beta].
  apply eval_Seq, eval_Grp_Rep;
    [exact Hv | lia | now apply is_quote_ends_run | cbv beta].
  apply eval_Any; [exact Hqc | exact Hk].
Qed.

(** The pattern of the [style] option does not match the text of a
    [controls] option. *)
Lemma style_fails_on_controls (b : re) (wa kt t : str) g k :
  spaces wa -> lit_text true (txt "controls") kt ->
  m true total (seq [Str (txt ","); ws0; Str (txt "style"); b])
    (txt "," ++ wa ++ kt ++ t) g k
  = None.
Proof.
  intros Hwa Hkt.
  match goal with
  | |- ?lhs = None => destruct lhs as [a|] eqn:E; [exfalso | reflexivity]
  end.
  destruct (m_sound _ _ _ _ _ _ _ _ E) as (x & s' & _ & Ex & Hx & _).
  clear E. cbn [seq] in Hx. simpl in Hx.
  destruct Hx as (a1 & t1 & -> & H1 & a2 & t2 & -> & [H2 _]
                  & a3 & t3 & -> & H3 & _).
  apply (lit_text_exact true (txt ",") eq_refl) in H1. subst a1.
  simpl in Ex. injection Ex as Ex.
  apply (f_equal skip_spaces) in Ex.
  inversion Hkt as [|c0 d0 ? kt' Hd0 _]; subst.
  inversion H3 as [|c1 d1 ? a3' Hd1 _]; subst.
  rewrite <- !app_assoc in Ex.
  rewrite (skip_spaces_run wa) in Ex;
    [|exact Hwa
     |simpl; apply negb_true_iff;
      now apply (lit_match_space true 99%N d0)].
  rewrite (skip_spaces_run a2) in Ex;
    [|exact H2
     |simpl; apply negb_true_iff;
      now apply (lit_match_space true 115%N d1)].
  simpl in Ex. injection Ex as -> _.
  apply lit_match_s_not_c in Hd1. congruence.
Qed.

Lemma closing_tokens (w5 w6 rest : str) g k (r : A) :
  spaces w5 -> spaces w6 -> k rest g = Some r ->
  m true total (seq [ws0; Str (txt ")"); ws0; Str (txt "}}")])
    (w5 ++ txt ")" ++ w6 ++ txt "}}" ++ rest) g k
  = Some r.
Proof.
  intros Hw5 Hw6 Hk. unfold ws0. cbn [seq].
  apply eval_Seq, eval_Rep; [exact Hw5 | lia | reflexivity | cbv beta].
  apply eval_Seq, eval_Str; [repeat constructor | cbv beta].
  apply eval_Seq, eval_Rep; [exact Hw6 | lia | reflexivity | cbv beta].
  apply eval_Str; [repeat constructor | exact Hk].
Qed.

(** The two options, each given or not, and the closing tokens. *)
Lemma PATTERN_tail_given (w4 sx cx w5 w6 : str) (sty ctl : option str)
    (f rest : str) k (r : A) :
  spaces w4 ->
  option_given (txt "style") sty sx -> option_given (txt "controls") ctl cx ->
  spaces w5 -> spaces w6 ->
  k rest (options_groups f sty ctl) = Some r ->
  m true total PATTERN_tail
    (w4 ++ sx ++ cx ++ w5 ++ txt ")" ++ w6 ++ txt "}}" ++ rest)
    [(quoted_filename, f)] k
  = Some r.
Proof.
  intros Hw4 Hsx Hcx Hw5 Hw6 Hk.
  destruct sty as [s|], ctl as [c|]; cbn [option_given] in Hsx, Hcx;
    unfold options_groups in Hk; cbn [app] in Hk.
  - destruct Hsx as (wa & ks & wb & wc & qo & qc & -> & Hwa & Hks & Hwb & Hwc
                     & Hqo & Hqc & Hs).
    destruct Hcx as (wa' & kc & wb' & wc' & qo' & qc' & -> & Hwa' & Hkc
                     & Hwb' & Hwc' & Hqo' & Hqc' & Hc).
    unfold PATTERN_tail. cbn [seq].
    apply eval_Seq, eval_Rep; [exact Hw4 | lia | reflexivity | cbv beta].
    apply eval_Seq, eval_Opt_some.
    apply (eval_option (txt "style")); try assumption; [reflexivity|].
    cbv beta.
    apply eval_Seq, eval_Opt_some.
    apply (eval_option (txt "controls")); try assumption; [reflexivity|].
    cbv beta. now apply closing_tokens.
  - destruct Hsx as (wa & ks & wb & wc & qo & qc & -> & Hwa & Hks & Hwb & Hwc
                     & Hqo & Hqc & Hs).
    subst cx. cbn [app].
    unfold PATTERN_tail. cbn [seq].
    apply eval_Seq, eval_Rep; [exact Hw4 | lia | reflexivity | cbv beta].
    apply eval_Seq, eval_Opt_some.
    apply (eval_option (txt "style")); try assumption; [reflexivity|].
    cbv beta.
    apply eval_Seq, eval_Opt_none.
    { cbn [m]. now rewrite strip_comma_closing. }
    cbv beta. now apply closing_tokens.
  - subst sx. cbn [app].
    destruct Hcx as (wa' & kc & wb' & wc' & qo' & qc' & -> & Hwa' & Hkc
                     & Hwb' & Hwc' & Hqo' & Hqc' & Hc).
    unfold PATTERN_tail. cbn [seq].
    apply eval_Seq, eval_Rep; [exact Hw4 | lia | reflexivity | cbv beta].
    apply eval_Seq, eval_Opt_none.
    { unfold option_text. rewrite <- !app_assoc.
      exact (style_fails_on_controls _ wa' kc _ _ _ Hwa' Hkc). }
    cbv beta.
    apply eval_Seq, eval_Opt_some.
    apply (eval_option (txt "controls")); try assumption; [reflexivity|].
    cbv beta. now apply closing_tokens.
  - subst sx cx. cbn [app]. rewrite app_assoc.
    apply PATTERN_tail_closing; [|exact Hw6 | exact Hk].
    apply Forall_app. now split.
Qed.

(** The opening tokens and the quoted filename. *)
Lemma PATTERN_quoted_head_given (w1 name w2 w3 : str) (q1 : char) (f : str)
    (q2 : char) (s : str) k (r : A) :
  spaces w1 -> same_ignoring_case (txt "kicad_schematic") name ->
  spaces w2 -> spaces w3 ->
  is_quote q1 = true -> run_of (NoneOf (DQ ++ SQ)) f -> f <> [] ->
  is_quote q2 = true ->
  m true total PATTERN_tail s [(quoted_filename, f)] k = Some r ->
  m true total PATTERN
    (txt "{{" ++ w1 ++ name ++ w2 ++ txt "(" ++ w3 ++ q1 :: f ++ q2 :: s) [] k
  = Some r.
Proof.
  intros Hw1 Hname Hw2 Hw3 Hq1 Hf Hne Hq2 H.
  unfold PATTERN, ws0, quote, unquoted0, unquoted1. cbn [seq].
  apply eval_Seq, eval_Str; [repeat constructor | cbv beta].
  apply eval_Seq, eval_Rep;
    [exact Hw1 | lia | now apply (lit_text_ends_run true (txt "kicad_schematic"))
    | cbv beta].
  apply eval_Seq, eval_Str; [exact Hname | cbv beta].
  apply eval_Seq, eval_Rep; [exact Hw2 | lia | reflexivity | cbv beta].
  apply eval_Seq, eval_Str; [repeat constructor | cbv beta].
  apply eval_Seq, eval_Rep;
    [exact Hw3 | lia
    | simpl; now rewrite (is_quote_not_space _ Hq1) | cbv beta].
  apply eval_Seq, eval_Alt_l.
  apply eval_Seq, eval_Any; [exact Hq1 | cbv beta].
  apply eval_Seq, eval_Grp_Rep;
    [exact Hf | now apply length_pos_nonnil | now apply is_quote_ends_run
    | cbv beta].
  apply eval_Any; [exact Hq2 | cbv beta].
  exact H.
Qed.

End GivenOptionFacts.

Section QuotedCallFacts.

Variables (w1 name w2 w3 : str) (q1 : char) (f : str) (q2 : char)
  (w4 sx cx w5 w6 : str) (sty ctl : option str).

Hypothesis Hw1 : spaces w1.
Hypothesis Hname : same_ignoring_case (txt "kicad_schematic") name.
Hypothesis Hw2 : spaces w2.
Hypothesis Hw3 : spaces w3.
Hypothesis Hq1 : is_quote q1 = true.
Hypothesis Hf : run_of (NoneOf (DQ ++ SQ)) f.
Hypothesis Hne : f <> [].
Hypothesis Hq2 : is_quote q2 = true.
Hypothesis Hw4 : spaces w4.
Hypothesis Hsx : option_given (txt "style") sty sx.
Hypothesis Hcx : option_given (txt "controls") ctl cx.
Hypothesis Hw5 : spaces w5.
Hypothesis Hw6 : spaces w6.

Lemma match_here_quoted_call_with total rest :
  match_here true total PATTERN
    (quoted_call_with w1 name w2 w3 q1 f q2 w4 sx cx w5 w6 ++ rest)
  = Some ({| group0 := quoted_call_with w1 name w2 w3 q1 f q2 w4 sx cx w5 w6;
             captures := options_groups f sty ctl |}, rest).
Proof.
  unfold match_here.
  replace (quoted_call_with w1 name w2 w3 q1 f q2 w4 sx cx w5 w6 ++ rest)
    with (txt "{{" ++ w1 ++ name ++ w2 ++ txt "(" ++ w3 ++ q1 :: f ++ q2
            :: w4 ++ sx ++ cx ++ w5 ++ txt ")" ++ w6 ++ txt "}}" ++ rest)
    at 1
    by (unfold quoted_call_with; repeat (rewrite <- app_assoc; simpl);
        reflexivity).
  apply PATTERN_quoted_head_given; try assumption.
  apply PATTERN_tail_given with (sty := sty) (ctl := ctl); try assumption.
  now rewrite firstn_consumed.
Qed.

Lemma quoted_call_with_braces :
  startswith (quoted_call_with w1 name w2 w3 q1 f q2 w4 sx cx w5 w6) (txt "{")
  = true.
Proof. reflexivity. Qed.

End QuotedCallFacts.

Section SplitFacts.

Variable ic : bool.
Variable r : re.
Variable repl : Match -> str.
Hypothesis Hbos : no_bos r = true.
Hypothesis Hempty : ~ matches ic r [].

(** When no match that begins in the first part [pre] of a text reaches
    into the rest [s], the two parts are substituted each on its own. *)
Lemma sub_from_split t1 t2 t3 (s : str) : forall pre skip,
  (forall p1 x l,
     pre ++ s = p1 ++ x ++ l -> matches ic r x -> length p1 < length pre ->
     length s <= length l) ->
  skip <= length pre ->
  sub_from ic t1 r repl (pre ++ s) skip
  = sub_from ic t2 r repl pre skip ++ sub_from ic t3 r repl s 0.
Proof.
  induction pre as [|c pre IH]; intros skip H Hs.
  - assert (skip = 0) by (simpl in Hs; lia). subst skip. simpl app.
    assert (E0 : match_here ic t2 r [] = None).
    { destruct (match_here ic t2 r []) as [[mo rest]|] eqn:E; [|reflexivity].
      exfalso. apply (match_here_nonempty ic r Hempty _ _ _ _ E).
      destruct (match_here_sound _ _ _ _ _ _ E) as [E1 _].
      symmetry in E1. now apply app_eq_nil in E1. }
    cbn [sub_from]. rewrite E0. cbn [app].
    now apply sub_from_total.
  - assert (Htail : forall p1 x l,
               pre ++ s = p1 ++ x ++ l -> matches ic r x ->
               length p1 < length pre -> length s <= length l).
    { intros p1 x l E Hx Hl. apply (H (c :: p1) x l); [|exact Hx|simpl; lia].
      simpl. now rewrite E. }
    destruct skip as [|n].
    + simpl app. simpl sub_from.
      pose proof (match_here_append ic r Hbos t1 t2 (c :: pre) s
                    (fun x l E Hx => H [] x l E Hx (Nat.lt_0_succ _))) as Hm.
      simpl app in Hm. rewrite Hm.
      destruct (match_here ic t2 r (c :: pre)) as [[mo rest]|] eqn:E.
      * simpl. rewrite <- app_assoc. f_equal.
        destruct (match_here_sound _ _ _ _ _ _ E) as [E1 _].
        destruct (length (group0 mo)) as [|n] eqn:El.
        -- simpl. f_equal. apply IH; [exact Htail | lia].
        -- apply IH; [exact Htail|].
           apply (f_equal (@length char)) in E1.
           rewrite length_app, El in E1. simpl in E1. lia.
      * simpl. f_equal. apply IH; [exact Htail | lia].
    + simpl. apply IH; [exact Htail | simpl in Hs; lia].
Qed.

End SplitFacts.

Section InPlaceFacts.

Lemma option_given_value (name : str) (v : option str) (x : str) :
  option_given name v x -> run_of (NoneOf (DQ ++ SQ)) (get v []).
Proof.
  destruct v as [s|]; simpl; [|constructor].
  now intros (wa & key & wb & wc & qo & qc & _ & _ & _ & _ & _ & _ & _ & Hs).
Qed.

Lemma options_groups_values (f : str) (sty ctl : option str) :
  group (options_groups f sty ctl) quoted_filename = Some f /\
  group (options_groups f sty ctl) unquoted_filename = None /\
  group (options_groups f sty ctl) style = sty /\
  group (options_groups f sty ctl) controls = ctl.
Proof. destruct sty, ctl; repeat split. Qed.

(** A match that begins in a text begins with two braces; none does in a
    text in which no two braces open. *)
Lemma no_braces_open_no_reach (pre after : str) :
  no_braces_open pre = true -> startswith after (txt "{") = true ->
  ~ reaches_into pre after.
Proof.
  intros Hp Ha (p1 & x & l & E & Hx & Hl & _).
  destruct after as [|b z]; [discriminate|].
  change (char_eqb 123%N b && true = true) in Ha.
  rewrite andb_true_r in Ha. apply char_eqb_eq in Ha. subst b.
  assert (Ht : exists t, pre = p1 ++ t /\ t <> [] /\ t ++ 123%N :: z = x ++ l).
  { clear - E Hl. revert p1 E Hl.
    induction pre as [|c pre IH]; intros p1 E Hl; [simpl in Hl; lia|].
    destruct p1 as [|d p1].
    - exists (c :: pre). repeat split; [discriminate | exact E].
    - simpl in E. injection E as <- E. simpl in Hl.
      destruct (IH p1 E ltac:(lia)) as (t & -> & Hne & Et).
      now exists t. }
  destruct Ht as (t & Ep & Hne & Et).
  pose proof (no_braces_open_no_match (length (x ++ l)) pre z Hp p1 t Ep Hne)
    as Hn.
  rewrite Et in Hn. revert Hn. unfold match_here.
  apply m_complete; [reflexivity | exact Hx | discriminate].
Qed.

Lemma no_braces_open_unchanged (pre : str) :
  no_braces_open pre = true -> run_line pre = pre.
Proof.
  intro Hp. unfold run_line, re_sub. apply sub_from_no_match.
  intros p1 t ->.
  destruct (match_here true (length (p1 ++ t)) PATTERN t)
    as [[mo rest]|] eqn:E; [exfalso | reflexivity].
  apply match_here_PATTERN_braces in E.
  unfold no_braces_open in Hp. apply negb_true_iff in Hp.
  assert (Hc : contains (txt "{{") (t ++ txt "{") = false).
  { clear E. induction p1 as [|c p1 IH]; [exact Hp|].
    apply IH. rewrite <- app_assoc in Hp. simpl app in Hp.
    apply contains_tail in Hp. now rewrite <- app_assoc. }
  apply contains_head in Hc.
  destruct t as [|a [|b t]].
  - discriminate E.
  - change (char_eqb 123%N a && false = true) in E.
    rewrite andb_false_r in E. discriminate.
  - change (startswith (a :: b :: t) (txt "{{"))
      with (startswith ((a :: b :: t) ++ txt "{") (txt "{{")) in E.
    unfold str, char in *. rewrite E in Hc. discriminate.
Qed.

(** A call which no earlier match reaches is replaced where it stands;
    the text in front of it and the text behind it are processed each on
    its own. *)
Lemma run_line_in_place (pre rest : str) (mo : Match) :
  group0 mo <> [] ->
  (forall total,
     match_here true total PATTERN (group0 mo ++ rest) = Some (mo, rest)) ->
  ~ reaches_into pre (group0 mo ++ rest) ->
  run_line (pre ++ group0 mo ++ rest)
  = run_line pre ++ _replace_match mo ++ run_line rest.
Proof.
  intros Hne Hm Hr. unfold run_line, re_sub.
  rewrite (sub_from_split true PATTERN _replace_match eq_refl PATTERN_nonempty
             _ (length pre) (length rest) (group0 mo ++ rest) pre 0);
    [|intros p1 x l E Hx Hl|lia].
  - f_equal. now rewrite sub_from_match.
  - destruct (Nat.le_gt_cases (length (group0 mo ++ rest)) (length l))
      as [|Hlt]; [assumption | exfalso].
    apply Hr. now exists p1, x, l.
Qed.

End InPlaceFacts.

(** What [run] makes of a quoted call with its options. *)
Lemma run_quoted_call_with
    (w1 name w2 w3 : str) (q1 : char) (f : str) (q2 : char)
    (w4 sx cx w5 w6 : str) (sty ctl : option str) :
  spaces w1 -> same_ignoring_case (txt "kicad_schematic") name ->
  spaces w2 -> spaces w3 ->
  is_quote q1 = true -> run_of (NoneOf (DQ ++ SQ)) f -> f <> [] ->
  is_quote q2 = true -> spaces w4 ->
  option_given (txt "style") sty sx -> option_given (txt "controls") ctl cx ->
  spaces w5 -> spaces w6 ->
  let call := quoted_call_with w1 name w2 w3 q1 f q2 w4 sx cx w5 w6 in
  let mo := {| group0 := call; captures := options_groups f sty ctl |} in
  (forall rest, re_match true PATTERN (call ++ rest) = Some mo) /\
  match_filename mo = f /\
  _replace_match mo = element f (get sty []) (get ctl []) /\
  run [call] = [element f (get sty []) (get ctl [])] /\
  (forall pre rest,
     ~ reaches_into pre (call ++ rest) ->
     run_line (pre ++ call ++ rest)
     = run_line pre ++ element f (get sty []) (get ctl []) ++ run_line rest).
Proof.
  intros Hw1 Hname Hw2 Hw3 Hq1 Hf Hne Hq2 Hw4 Hsx Hcx Hw5 Hw6 call mo.
  assert (Hm : forall total rest,
             match_here true total PATTERN (call ++ rest) = Some (mo, rest)).
  { intros. now apply match_here_quoted_call_with. }
  assert (Hrepl : _replace_match mo = element f (get sty []) (get ctl [])).
  { apply replace_match_options; try assumption.
    - exact (option_given_value _ _ _ Hsx).
    - exact (option_given_value _ _ _ Hcx). }
  assert (Hcall : call <> []) by (unfold call, quoted_call_with; discriminate).
  assert (Hin : forall pre rest,
             ~ reaches_into pre (call ++ rest) ->
             run_line (pre ++ call ++ rest)
             = run_line pre ++ element f (get sty []) (get ctl [])
                 ++ run_line rest).
  { intros pre rest Hr. rewrite <- Hrepl.
    apply (run_line_in_place pre rest mo); [exact Hcall | | exact Hr].
    intro total. apply Hm. }
  destruct (options_groups_values f sty ctl) as (G1 & G2 & _).
  split; [|split; [|split; [|split]]].
  - intro rest. unfold re_match. now rewrite Hm.
  - unfold match_filename, mgroup. cbn [captures mo]. rewrite G1, G2.
    destruct f; [congruence | reflexivity].
  - exact Hrepl.
  - change (run [call]) with [run_line call]. f_equal.
    assert (Hr : ~ reaches_into [] (call ++ [])).
    { intros (p1 & x & l & _ & _ & Hl & _). simpl in Hl. lia. }
    pose proof (Hin [] [] Hr) as H. cbn [app] in H.
    rewrite app_nil_r in H. rewrite H.
    change (run_line []) with (@nil char). cbn [app]. apply app_nil_r.
  - exact Hin.
Qed.

(* ===================================================================== *)
(** * Grammar A: quoted filenames, with options and inside a line *)
(* ===================================================================== *)




(* ===================================================================== *)
(** * Empty options: the template function and Grammar A, in general *)
(* ===================================================================== *)




(* ===================================================================== *)
(** * The version check script: the exit code *)
(* ===================================================================== *)

(** The script exits with 0 or 1, and with 0 exactly when the version
    file exists, the request succeeded and the text of the file without
    the white space around it is the first seven characters of the commit
    hash. A line is written to the standard error stream exactly when the
    request failed. So a version file that holds more than seven
    characters between the white space, the full hash for instance, is
    never reported as up to date. *)
Theorem version_check_exit_code
    (version_file : option str) (response : str + str) :
  let result := CheckKicanvasVersion.main version_file response in
  let code := snd result in
  (code = 0%Z \/ code = 1%Z) /\
  (code = 0%Z <->
   exists v sha,
     version_file = Some v /\ response = inr sha /\
     CheckKicanvasVersion.strip v = firstn 7 sha) /\
  (snd (fst result) = [] <-> exists sha, response = inr sha) /\
  (forall v,
     version_file = Some v ->
     7 < length (CheckKicanvasVersion.strip v) -> code = 1%Z).
Proof.
  cbv zeta. unfold CheckKicanvasVersion.main,
    CheckKicanvasVersion.get_current_version,
    CheckKicanvasVersion.get_latest_commit.
  destruct response as [e | sha], version_file as [v|]; cbn [option_map].
  - cbn [snd fst]. split; [now right|]. split; [|split].
    + split; [discriminate | now intros (? & ? & _ & ? & _)].
    + split; [discriminate | now intros (? & ?)].
    + reflexivity.
  - cbn [snd fst]. split; [now right|]. split; [|split].
    + split; [discriminate | now intros (? & ? & ? & _)].
    + split; [discriminate | now intros (? & ?)].
    + discriminate.
  - destruct (str_eqb (CheckKicanvasVersion.strip v) (firstn 7 sha)) eqn:E;
      cbn [negb snd fst].
    + apply str_eqb_eq in E. split; [now left|]. split; [|split].
      * split; [now exists v, sha | reflexivity].
      * split; [now exists sha | reflexivity].
      * intros v' Hv Hl. injection Hv as <-. rewrite E in Hl.
        pose proof (firstn_le_length 7 sha). lia.
    + split; [now right|]. split; [|split].
      * split; [discriminate|].
        intros (v' & sha' & Hv & Hs & Es). injection Hv as <-.
        injection Hs as <-. rewrite Es, str_eqb_refl in E. discriminate.
      * split; [now exists sha | reflexivity].
      * reflexivity.
  - cbn [snd fst]. split; [now right|]. split; [|split].
    + split; [discriminate | now intros (? & ? & ? & _)].
    + split; [now exists sha | reflexivity].
    + discriminate.
Qed.

Lemma version_check_exit_code_witness :
  snd (CheckKicanvasVersion.main
         (Some (txt "0123456789abcdef0123456789abcdef01234567" ++ NL))
         (inr (txt "0123456789abcdef0123456789abcdef01234567")))
  = 1%Z.
Proof.
  apply (proj2 (proj2 (proj2
           (version_check_exit_code
              (Some (txt "0123456789abcdef0123456789abcdef01234567" ++ NL))
              (inr (txt "0123456789abcdef0123456789abcdef01234567")))))
           (txt "0123456789abcdef0123456789abcdef01234567" ++ NL));
    [reflexivity | vm_compute; lia].
Defined.
